(** * NimbleSM contact manager: skinning, contact entities and the projection kernel

    A shallow embedding of [src/src/nimble_contact_manager.cc].

    - C++ [double] is Rocq's primitive binary64 [float]; every arithmetic
      operation and comparison below is the IEEE-754 one the C++ code runs.
    - C++ [int] is [Z]; the arithmetic that builds entity ids is truncated to
      32 bits ([Int32.wrap]).
    - [std::vector] is [list], read with [!!] and written with [<[i:=x]>].
    - [std::map] is a key-sorted association list ([StdMap]), so that iterating
      it visits the keys in increasing order, as the C++ container does.
    - [std::string] is [string], and a [std::stringstream] read with [>>] is
      the text not yet read with its [eofbit] and [failbit].
    - A [throw] or an [abort] is [None], or the exception in the outcome; so is
      an access outside an array where the function is modelled with it. *)

From Stdlib Require Import ZArith List Floats Lia Bool Permutation Sorted.
From Stdlib Require String Ascii.
From stdpp Require Import base list sorting.

(** ** Contact entities *)

(** Modelled from the spec: the enumeration [ContactEntity::CONTACT_ENTITY_TYPE]
    ([nimble_contact_entity.h] is not among the sources), with the two kinds
    the contact manager creates. *)
Inductive CONTACT_ENTITY_TYPE := NODE | TRIANGLE.

(** Modelled from the spec: the enumeration [PROJECTION_TYPE]
    ([nimble_contact_manager.h] is not among the sources), with the three
    values the projection kernel assigns. *)
Inductive PROJECTION_TYPE := UNKNOWN | NODE_OR_EDGE | FACE.

(** Modelled from the spec: the class [ContactEntity]
    ([nimble_contact_entity.h] is not among the sources).  The record keeps
    what the constructor is handed in [CreateContactNodesAndFaces] and the
    fields the projection kernel reads: kind, parallel-unique id, local index,
    up to three vertex coordinate triples, the characteristic length, and for
    a triangle the two real mesh nodes and the four nodes behind its
    barycentre vertex. *)
Record ContactEntity := {
  entity_type_ : CONTACT_ENTITY_TYPE;
  contact_entity_global_id_ : Z;
  local_id_ : Z;
  coord_1_x_ : float; coord_1_y_ : float; coord_1_z_ : float;
  coord_2_x_ : float; coord_2_y_ : float; coord_2_z_ : float;
  coord_3_x_ : float; coord_3_y_ : float; coord_3_z_ : float;
  char_len_ : float;
  node_id_for_node_1_ : Z;
  node_id_for_node_2_ : Z;
  node_ids_for_fictitious_node_ : list Z
}.

(** A [double[3]] array (also [ContactEntity::vertex::coords_]). *)
Record double3 := D3 { at0 : float; at1 : float; at2 : float }.

(** ** The geometric projection kernel *)

Module Kernel.
Local Open Scope float_scope.

(** Modelled from the spec: [CrossProduct] ([nimble_utils.h] is not among the
    sources); the spec's [n = u x v]. *)
Definition CrossProduct (u v : double3) : double3 :=
  D3 (at1 u * at2 v - at2 u * at1 v)
     (at2 u * at0 v - at0 u * at2 v)
     (at0 u * at1 v - at1 u * at0 v).

Definition sub3 (a b : double3) : double3 :=
  D3 (at0 a - at0 b) (at1 a - at1 b) (at2 a - at2 b).

(** [a[0]*b[0] + a[1]*b[1] + a[2]*b[2]], summed left to right. *)
Definition dot3 (a b : double3) : float :=
  at0 a * at0 b + at1 a * at1 b + at2 a * at2 b.

Definition node_p (node : ContactEntity) : double3 :=
  D3 (coord_1_x_ node) (coord_1_y_ node) (coord_1_z_ node).
Definition tri_p1 (tri : ContactEntity) : double3 :=
  D3 (coord_1_x_ tri) (coord_1_y_ tri) (coord_1_z_ tri).
Definition tri_p2 (tri : ContactEntity) : double3 :=
  D3 (coord_2_x_ tri) (coord_2_y_ tri) (coord_2_z_ tri).
Definition tri_p3 (tri : ContactEntity) : double3 :=
  D3 (coord_3_x_ tri) (coord_3_y_ tri) (coord_3_z_ tri).

Section FullProjection.

(** The two edge helpers of [nimble_utils.h] are not among the sources; the
    full projection is modelled for any pair of them. *)
Variable PointEdgeClosestPointFindT : double3 -> double3 -> double3 -> float.
Variable PointEdgeClosestPointFindDistanceSquared :
  double3 -> double3 -> double3 -> float -> float.

(** [x*x + y*y + z*z] with [x = a[0] - p[0]] and so on. *)
Definition dist2 (a p : double3) : float :=
  let x := at0 a - at0 p in
  let y := at1 a - at1 p in
  let z := at2 a - at2 p in
  x * x + y * y + z * z.

(** The running minimum of the fall-back search.  [min_distance_squared_t] is
    uninitialised in the source until an edge wins; it is read only then. *)
Record scan := {
  min_distance_squared : float;
  min_distance_squared_t : float;
  min_case : Z
}.

Definition scan_vertex (a p : double3) (k : Z) (s : scan) : scan :=
  let distance_squared := dist2 a p in
  if distance_squared <? min_distance_squared s
  then {| min_distance_squared := distance_squared;
          min_distance_squared_t := min_distance_squared_t s;
          min_case := k |}
  else s.

Definition scan_edge (a b p : double3) (k : Z) (s : scan) : scan :=
  let t := PointEdgeClosestPointFindT a b p in
  if (0 <? t) && (t <? 1) then
    let distance_squared := PointEdgeClosestPointFindDistanceSquared a b p t in
    if distance_squared <? min_distance_squared s
    then {| min_distance_squared := distance_squared;
            min_distance_squared_t := t;
            min_case := k |}
    else s
  else s.

(** [a[i] + (b[i] - a[i]) * t]. *)
Definition edge_point (a b : double3) (t : float) : double3 :=
  D3 (at0 a + (at0 b - at0 a) * t)
     (at1 a + (at1 b - at1 a) * t)
     (at2 a + (at2 b - at2 a) * t).

Definition fallback_scan (p1 p2 p3 p : double3) : scan :=
  let s := {| min_distance_squared := dist2 p1 p;
              min_distance_squared_t := 0;
              min_case := 1 |} in
  let s := scan_vertex p2 p 2 s in
  let s := scan_vertex p3 p 3 s in
  let s := scan_edge p1 p2 p 4 s in
  let s := scan_edge p2 p3 p 5 s in
  scan_edge p3 p1 p 6 s.

Definition fallback_point (p1 p2 p3 : double3) (s : scan) : double3 :=
  match min_case s with
  | 2%Z => p2
  | 3%Z => p3
  | 4%Z => edge_point p1 p2 (min_distance_squared_t s)
  | 5%Z => edge_point p2 p3 (min_distance_squared_t s)
  | 6%Z => edge_point p3 p1 (min_distance_squared_t s)
  | _ => p1
  end.

(** [ContactManager::ClosestPointProjectionSingle]: the pair of the two
    out-parameters [*closest_point] and [*projection_type]. *)
Definition ClosestPointProjectionSingle
    (node tri : ContactEntity) (tol : float) : double3 * PROJECTION_TYPE :=
  let p := node_p node in
  let p1 := tri_p1 tri in
  let p2 := tri_p2 tri in
  let p3 := tri_p3 tri in
  let u := sub3 p2 p1 in
  let v := sub3 p3 p1 in
  let w := sub3 p p1 in
  let n := CrossProduct u v in
  let n_squared := at0 n * at0 n + at1 n * at1 n + at2 n * at2 n in
  let cross := CrossProduct u w in
  let gamma := (at0 cross * at0 n + at1 cross * at1 n + at2 cross * at2 n) / n_squared in
  let cross := CrossProduct w v in
  let beta := (at0 cross * at0 n + at1 cross * at1 n + at2 cross * at2 n) / n_squared in
  let alpha := 1 - gamma - beta in
  let alpha_is_zero := (- tol <? alpha) && (alpha <? tol) in
  let alpha_in_range := (- tol <? alpha) && (alpha <? 1 + tol) in
  let beta_is_zero := (- tol <? beta) && (beta <? tol) in
  let beta_in_range := (- tol <? beta) && (beta <? 1 + tol) in
  let gamma_is_zero := (- tol <? gamma) && (gamma <? tol) in
  let gamma_in_range := (- tol <? gamma) && (gamma <? 1 + tol) in
  if alpha_in_range && beta_in_range && gamma_in_range then
    (D3 (alpha * at0 p1 + beta * at0 p2 + gamma * at0 p3)
        (alpha * at1 p1 + beta * at1 p2 + gamma * at1 p3)
        (alpha * at2 p1 + beta * at2 p2 + gamma * at2 p3),
     if alpha_is_zero || beta_is_zero || gamma_is_zero then NODE_OR_EDGE else FACE)
  else
    (fallback_point p1 p2 p3 (fallback_scan p1 p2 p3 p), NODE_OR_EDGE).

End FullProjection.

(** [double tol = 1.0e-16] of [ClosestPointProjection]: the binary64 number
    nearest to it. *)
Definition default_tol : float := 0x1.cd2b297d889bcp-54.

(** [ContactManager::ClosestPointProjection]: the pairs [(nodes[i],
    triangles[i])] projected one by one with [default_tol]. *)
Definition ClosestPointProjection
    (FindT : double3 -> double3 -> double3 -> float)
    (FindDistanceSquared : double3 -> double3 -> double3 -> float -> float)
    (nodes triangles : list ContactEntity) : list (double3 * PROJECTION_TYPE) :=
  map (fun nt => ClosestPointProjectionSingle FindT FindDistanceSquared
                   (fst nt) (snd nt) default_tol)
      (zip nodes triangles).

(** [ContactManager::SimpleClosestPointProjectionSingle].  The reference and
    pointer out-parameters keep their incoming values ([closest_point0],
    [gap0], [normal0]) where the function does not assign them. *)
Record SimpleProjection := {
  sp_projection_type : PROJECTION_TYPE;
  sp_closest_point : double3;
  sp_gap : float;
  sp_normal : double3
}.

Definition SimpleClosestPointProjectionSingle
    (node tri : ContactEntity)
    (closest_point0 : double3) (gap0 : float) (normal0 : double3)
    (tol : float) : SimpleProjection :=
  let p := node_p node in
  let p1 := tri_p1 tri in
  let p2 := tri_p2 tri in
  let p3 := tri_p3 tri in
  let u := sub3 p2 p1 in
  let v := sub3 p3 p1 in
  let w := sub3 p p1 in
  let n := CrossProduct u v in
  let n_squared := at0 n * at0 n + at1 n * at1 n + at2 n * at2 n in
  let cross := CrossProduct u w in
  let alpha3 := (at0 cross * at0 n + at1 cross * at1 n + at2 cross * at2 n) / n_squared in
  let cross := CrossProduct w v in
  let alpha2 := (at0 cross * at0 n + at1 cross * at1 n + at2 cross * at2 n) / n_squared in
  let alpha1 := 1 - alpha2 - alpha3 in
  let tol2 := 1 + tol in
  let a1 := (- tol <? alpha1) && (alpha1 <? tol2) in
  let a2 := (- tol <? alpha2) && (alpha2 <? tol2) in
  let a3 := (- tol <? alpha3) && (alpha3 <? tol2) in
  if a1 && a2 && a3 then
    let xp := alpha1 * at0 p1 + alpha2 * at0 p2 + alpha3 * at0 p3 in
    let yp := alpha1 * at1 p1 + alpha2 * at1 p2 + alpha3 * at1 p3 in
    let zp := alpha1 * at2 p1 + alpha2 * at2 p2 + alpha3 * at2 p3 in
    let dx := coord_1_x_ node - xp in
    let dy := coord_1_y_ node - yp in
    let dz := coord_1_z_ node - zp in
    let s := 1 / sqrt n_squared in
    let normal := D3 (at0 n * s) (at1 n * s) (at2 n * s) in
    {| sp_projection_type := FACE;
       sp_closest_point := D3 xp yp zp;
       sp_gap := dx * at0 normal + dy * at1 normal + dz * at2 normal;
       sp_normal := normal |}
  else
    {| sp_projection_type := UNKNOWN;
       sp_closest_point := closest_point0;
       sp_gap := gap0;
       sp_normal := normal0 |}.

(** [ContactManager::Projection], with the same convention for the
    out-parameters [gap], [normal] and [barycentric_coordinates]; [in] is
    always assigned. *)
Record ProjectionResult := {
  in_ : bool;
  gap : float;
  normal : double3;
  barycentric_coordinates : double3
}.

Definition Projection
    (node tri : ContactEntity)
    (gap0 : float) (normal0 barycentric_coordinates0 : double3)
    (tol : float) : ProjectionResult :=
  let p := node_p node in
  let p1 := tri_p1 tri in
  let p2 := tri_p2 tri in
  let p3 := tri_p3 tri in
  let u := sub3 p2 p1 in
  let v := sub3 p3 p1 in
  let w := sub3 p p1 in
  let n := CrossProduct u v in
  let n_squared := at0 n * at0 n + at1 n * at1 n + at2 n * at2 n in
  let cross := CrossProduct u w in
  let alpha3 := (at0 cross * at0 n + at1 cross * at1 n + at2 cross * at2 n) / n_squared in
  let cross := CrossProduct w v in
  let alpha2 := (at0 cross * at0 n + at1 cross * at1 n + at2 cross * at2 n) / n_squared in
  let alpha1 := 1 - alpha2 - alpha3 in
  let tol2 := 1 + tol in
  let a1 := (- tol <? alpha1) && (alpha1 <? tol2) in
  let a2 := (- tol <? alpha2) && (alpha2 <? tol2) in
  let a3 := (- tol <? alpha3) && (alpha3 <? tol2) in
  if a1 && a2 && a3 then
    let xp := alpha1 * at0 p1 + alpha2 * at0 p2 + alpha3 * at0 p3 in
    let yp := alpha1 * at1 p1 + alpha2 * at1 p2 + alpha3 * at1 p3 in
    let zp := alpha1 * at2 p1 + alpha2 * at2 p2 + alpha3 * at2 p3 in
    let dx := coord_1_x_ node - xp in
    let dy := coord_1_y_ node - yp in
    let dz := coord_1_z_ node - zp in
    let s := 1 / sqrt n_squared in
    let normal := D3 (at0 n * s) (at1 n * s) (at2 n * s) in
    let gap := dx * at0 normal + dy * at1 normal + dz * at2 normal in
    {| in_ := (gap <? 0) && (- char_len_ tri <? gap);
       gap := gap;
       normal := normal;
       barycentric_coordinates := D3 alpha1 alpha2 alpha3 |}
  else
    {| in_ := false;
       gap := gap0;
       normal := normal0;
       barycentric_coordinates := barycentric_coordinates0 |}.

End Kernel.

(** ** 32-bit [int] arithmetic of the entity ids *)

Module Int32.
Local Open Scope Z_scope.

Definition INT_MAX : Z := 2147483647.

(** Two's-complement truncation to 32 bits. *)
Definition wrap (z : Z) : Z := (z + 2 ^ 31) mod 2 ^ 32 - 2 ^ 31.

Definition add (a b : Z) : Z := wrap (a + b).
Definition shl (a k : Z) : Z := wrap (Z.shiftl a k).

(** Representable in an [int]. *)
Definition in_range (z : Z) : Prop := - 2 ^ 31 <= z < 2 ^ 31.

End Int32.

(** ** [std::sort] and the orders of the [std::map] keys *)

Fixpoint sorted_insert (x : Z) (l : list Z) : list Z :=
  match l with
  | [] => [x]
  | y :: l' => if (x <=? y)%Z then x :: l else y :: sorted_insert x l'
  end.

(** [std::sort(key.begin(), key.end())] on a vector of [int]. *)
Definition std_sort (l : list Z) : list Z := fold_right sorted_insert [] l.

(** [operator<] of [std::vector<int>]: lexicographic. *)
Fixpoint lex_compare (a b : list Z) : comparison :=
  match a, b with
  | [], [] => Eq
  | [], _ :: _ => Lt
  | _ :: _, [] => Gt
  | x :: a', y :: b' =>
      match (x ?= y)%Z with
      | Eq => lex_compare a' b'
      | c => c
      end
  end.

(** ** [std::map]: an association list kept in increasing key order *)

Module StdMap.
Section Map.
Context {K V : Type} (cmp : K -> K -> comparison).

Definition t := list (K * V).

(** [m.find(k)], [None] standing for [m.end()]. *)
Fixpoint find (k : K) (m : t) : option V :=
  match m with
  | [] => None
  | (k', v) :: m' =>
      match cmp k k' with
      | Eq => Some v
      | _ => find k m'
      end
  end.

(** [m[k] = v]: overwrite, or insert at the key's place in the order. *)
Fixpoint insert (k : K) (v : V) (m : t) : t :=
  match m with
  | [] => [(k, v)]
  | (k', v') :: m' =>
      match cmp k k' with
      | Lt => (k, v) :: m
      | Eq => (k, v) :: m'
      | Gt => (k', v') :: insert k v m'
      end
  end.

(** An assignment through the iterator that [find] returned. *)
Fixpoint alter (f : V -> V) (k : K) (m : t) : t :=
  match m with
  | [] => []
  | (k', v) :: m' =>
      match cmp k k' with
      | Eq => (k', f v) :: m'
      | _ => (k', v) :: alter f k m'
      end
  end.

(** [m.emplace(k, v)]: no effect when the key is already present. *)
Definition emplace (k : K) (v : V) (m : t) : t :=
  match find k m with
  | Some _ => m
  | None => insert k v m
  end.

End Map.
End StdMap.

(** ** The mesh *)

(** Modelled from the spec: the class [GenesisMesh] ([nimble_genesis_mesh.h]
    is not among the sources), as the accessors the contact manager calls:
    per-block connectivity and element global ids, per-node global ids and
    coordinates. *)
Record GenesisMesh := {
  GetNumElementsInBlock : Z -> nat;
  GetNumNodesPerElement : Z -> nat;
  GetConnectivity : Z -> list Z;
  GetElementGlobalIdsInBlock : Z -> list Z;
  GetNodeGlobalIds : list Z;
  GetCoordinatesX : list float;
  GetCoordinatesY : list float;
  GetCoordinatesZ : list float;
  GetMaxNodeGlobalId : Z
}.

(** ** Mesh skinning: [ContactManager::SkinBlocks] *)

Module Skin.
Local Open Scope Z_scope.

(** One visit of an element face: the unsorted node list, the 1-based global id
    of the element and the face ordinal. *)
Record hex_face := {
  hf_nodes : list Z;
  hf_elem : Z;
  hf_ordinal : Z
}.

(** The Exodus corner templates, face 0 to face 5. *)
Definition face_templates : list (Z * list nat) :=
  [ (0, [0; 1; 5; 4]%nat); (1, [1; 2; 6; 5]%nat); (2, [2; 3; 7; 6]%nat);
    (3, [0; 4; 7; 3]%nat); (4, [0; 3; 2; 1]%nat); (5, [4; 5; 6; 7]%nat) ].

(** The six faces of the element whose corners start at [conn[conn_index]]. *)
Definition element_faces (conn : list Z) (conn_index : nat) (elem_global_id : Z)
  : list hex_face :=
  map (fun ot : Z * list nat =>
         {| hf_nodes := map (fun k => nth (conn_index + k) conn 0) (snd ot);
            hf_elem := elem_global_id;
            hf_ordinal := fst ot |})
      face_templates.

(** [key]: the sorted node list. *)
Definition face_key (f : hex_face) : list Z := std_sort (hf_nodes f).

(** [value]: count, unsorted node list, element id, face ordinal. *)
Definition face_value (f : hex_face) : list Z :=
  1 :: hf_nodes f ++ [hf_elem f; hf_ordinal f].

(** [faces.find(key)], then [faces[key] = value] or [face_it->second[0] += 1]. *)
Definition visit_face (faces : StdMap.t (K:=list Z) (V:=list Z)) (f : hex_face)
  : StdMap.t (K:=list Z) (V:=list Z) :=
  match StdMap.find lex_compare (face_key f) faces with
  | None => StdMap.insert lex_compare (face_key f) (face_value f) faces
  | Some _ =>
      StdMap.alter lex_compare (fun v => <[0%nat := nth 0 v 0 + 1]> v) (face_key f) faces
  end.

(** The body of the loop over [i_elem]; the state is [faces] and [conn_index]. *)
Definition visit_element (conn elem_global_ids : list Z) (num_node_per_elem : nat)
    (st : StdMap.t (K:=list Z) (V:=list Z) * nat) (i_elem : nat)
  : StdMap.t (K:=list Z) (V:=list Z) * nat :=
  let elem_global_id := Int32.add (nth i_elem elem_global_ids 0) 1 in
  (fold_left visit_face (element_faces conn (snd st) elem_global_id) (fst st),
   (snd st + num_node_per_elem)%nat).

(** The body of the loop over [block_ids]. *)
Definition visit_block (mesh : GenesisMesh)
    (faces : StdMap.t (K:=list Z) (V:=list Z)) (block_id : Z)
  : StdMap.t (K:=list Z) (V:=list Z) :=
  let num_elem_in_block := GetNumElementsInBlock mesh block_id in
  let num_node_per_elem := GetNumNodesPerElement mesh block_id in
  let conn := GetConnectivity mesh block_id in
  let elem_global_ids := GetElementGlobalIdsInBlock mesh block_id in
  fst (fold_left (visit_element conn elem_global_ids num_node_per_elem)
                 (seq 0 num_elem_in_block) (faces, 0%nat)).

(** The id a skin face leaves [SkinBlocks] with. *)
Definition skin_entity_id (value : list Z) (entity_id_offset : Z) : Z :=
  let entity_id := Int32.shl (Int32.add (nth 5 value 0) entity_id_offset) 5 in
  let entity_id := Z.lor entity_id (Int32.shl (nth 6 value 0) 2) in
  Z.lor entity_id 0.

(** The final loop over [faces], in key order; [None] is [NIMBLE_ABORT]. *)
Fixpoint collect_skin (faces : StdMap.t (K:=list Z) (V:=list Z)) (entity_id_offset : Z)
    (skin_faces : list (list Z)) (entity_ids : list Z)
  : option (list (list Z) * list Z) :=
  match faces with
  | [] => Some (skin_faces, entity_ids)
  | (_, value) :: rest =>
      if nth 0 value 0 =? 1 then
        let skin_face := take (length value - 3) (drop 1 value) in
        collect_skin rest entity_id_offset
          (skin_faces ++ [skin_face])
          (entity_ids ++ [skin_entity_id value entity_id_offset])
      else if negb (nth 0 value 0 =? 2) then None
      else collect_skin rest entity_id_offset skin_faces entity_ids
  end.

Definition SkinBlocks (mesh : GenesisMesh) (block_ids : list Z) (entity_id_offset : Z)
  : option (list (list Z) * list Z) :=
  let faces := fold_left (visit_block mesh) block_ids [] in
  collect_skin faces entity_id_offset [] [].

End Skin.

(** ** Faces on partition boundaries: [ContactManager::RemoveInternalSkinFaces]

    The body under [NIMBLE_HAVE_MPI], as one rank runs it.  [received] lists the
    buffers the [num_ranks - 1] calls of [MPI_Sendrecv] deliver, in the order of
    [shift]; a build without MPI is the case [received = []]. *)

Module Dedup.
Local Open Scope Z_scope.

Definition num_nodes_in_face : nat := 4.

(** [fvec]: the global ids of the face's nodes over a vector of
    [num_nodes_in_face] copies of [INT_MAX], sorted.  (A face of more than four
    nodes would write past the vector; [<[ii:=_]>] leaves it unchanged there.) *)
Definition face_fvec (genesis_node_global_ids face : list Z) : list Z :=
  std_sort
    (fold_left
       (fun fvec ii =>
          <[ii := nth (Z.to_nat (nth ii face 0)) genesis_node_global_ids 0]> fvec)
       (seq 0 (length face))
       (replicate num_nodes_in_face Int32.INT_MAX)).

(** What the rank sends: the sorted quadruples of its faces, concatenated. *)
Definition face_global_ids (genesis_node_global_ids : list Z) (faces : list (list Z))
  : list Z :=
  concat (map (face_fvec genesis_node_global_ids) faces).

(** [faceList]: sorted quadruple to face index, filled with [emplace]. *)
Definition faceList_of (genesis_node_global_ids : list Z) (faces : list (list Z))
  : StdMap.t (K:=list Z) (V:=nat) :=
  fold_left
    (fun m iface =>
       StdMap.emplace lex_compare
         (face_fvec genesis_node_global_ids (nth iface faces [])) iface m)
    (seq 0 (length faces)) [].

Record marks := {
  remove_face_hash : list bool;
  remove_entity_ids_hash : list bool;
  iCountRemovals : nat
}.

(** One received quadruple [tmpList]. *)
Definition mark_received (faceList : StdMap.t (K:=list Z) (V:=nat))
    (st : marks) (tmpList : list Z) : marks :=
  match StdMap.find lex_compare tmpList faceList with
  | Some iface =>
      {| remove_face_hash := <[iface := true]> (remove_face_hash st);
         remove_entity_ids_hash := <[iface := true]> (remove_entity_ids_hash st);
         iCountRemovals := S (iCountRemovals st) |}
  | None => st
  end.

(** The quadruple number [i_mpi_buff_face] of a received buffer. *)
Definition buffer_face (mpi_buffer : list Z) (i_mpi_buff_face : nat) : list Z :=
  take num_nodes_in_face (drop (i_mpi_buff_face * num_nodes_in_face) mpi_buffer).

(** One exchange: every quadruple of the buffer received for this [shift]. *)
Definition scan_buffer (faceList : StdMap.t (K:=list Z) (V:=nat))
    (st : marks) (mpi_buffer : list Z) : marks :=
  let recv_size := length mpi_buffer in
  let mpi_buffer_num_faces := (recv_size / num_nodes_in_face)%nat in
  fold_left
    (fun st i => mark_received faceList st (buffer_face mpi_buffer i))
    (seq 0 mpi_buffer_num_faces) st.

(** The marks after all exchanges. *)
Definition exchange_marks (genesis_node_global_ids : list Z)
    (faces : list (list Z)) (entity_ids : list Z) (received : list (list Z)) : marks :=
  fold_left (scan_buffer (faceList_of genesis_node_global_ids faces)) received
    {| remove_face_hash := replicate (length faces) false;
       remove_entity_ids_hash := replicate (length entity_ids) false;
       iCountRemovals := 0%nat |}.

(** [for i: if (!hash[i]) out.emplace_back(l[i])]. *)
Fixpoint compact {A : Type} (hash : list bool) (l : list A) : list A :=
  match hash, l with
  | h :: hash', x :: l' => if h then compact hash' l' else x :: compact hash' l'
  | _, _ => []
  end.

Definition RemoveInternalSkinFaces (genesis_node_global_ids : list Z)
    (faces : list (list Z)) (entity_ids : list Z) (received : list (list Z))
  : list (list Z) * list Z :=
  let st := exchange_marks genesis_node_global_ids faces entity_ids received in
  if (iCountRemovals st =? 0)%nat then (faces, entity_ids)
  else (compact (remove_face_hash st) faces,
        compact (remove_entity_ids_hash st) entity_ids).

End Dedup.

(** ** The contact submodel *)

Module Submodel.
Local Open Scope float_scope.

(** [std::numeric_limits<double>::lowest()]. *)
Definition lowest : float := (-0x1.fffffffffffffp+1023)%float.

(** [coord_[i]] for an [int] index. *)
Definition rd (coord_ : list float) (i : Z) : float := nth (Z.to_nat i) coord_ 0.

(** The squared length of the edge between two submodel nodes. *)
Definition edge_length_square (coord_ : list float) (node_id_1 node_id_2 : Z) : float :=
  (rd coord_ (3 * node_id_2) - rd coord_ (3 * node_id_1))
    * (rd coord_ (3 * node_id_2) - rd coord_ (3 * node_id_1))
  + (rd coord_ (3 * node_id_2 + 1) - rd coord_ (3 * node_id_1 + 1))
    * (rd coord_ (3 * node_id_2 + 1) - rd coord_ (3 * node_id_1 + 1))
  + (rd coord_ (3 * node_id_2 + 2) - rd coord_ (3 * node_id_1 + 2))
    * (rd coord_ (3 * node_id_2 + 2) - rd coord_ (3 * node_id_1 + 2)).

(** The edges [(face[i], face[i+1])] of a face, the last one closing on
    [face[0]]. *)
Definition face_edges (face : list Z) : list (Z * Z) :=
  map (fun i =>
         (nth i face 0%Z,
          if (i + 1 <? length face)%nat then nth (i + 1) face 0%Z else nth 0 face 0%Z))
      (seq 0 (length face)).

(** [if (e > m) m = e], over a list of values, from [m0]. *)
Definition running_max (m0 : float) (es : list float) : float :=
  fold_left (fun m e => if m <? e then e else m) es m0.

(** [max_edge_length] of [CreateContactNodesAndFaces]. *)
Definition max_edge_length (coord_ : list float) (face : list Z) : float :=
  running_max lowest
    (map (fun e => sqrt (edge_length_square coord_ (fst e) (snd e))) (face_edges face)).

(** [max_edge_length_square] of [CreateContactEntities]. *)
Definition max_edge_length_square (coord_ : list float) (face : list Z) : float :=
  running_max lowest
    (map (fun e => edge_length_square coord_ (fst e) (snd e)) (face_edges face)).

(** [fictitious_node]: the coordinates of the face's nodes summed from [0.0]
    and divided by [num_nodes_in_face]. *)
Definition fictitious_coord (coord_ : list float) (face : list Z) (j : Z) : float :=
  fold_left (fun s node_id => s + rd coord_ (3 * node_id + j)) face 0
  / of_uint63 (Uint63.of_Z (Z.of_nat (length face))).

Definition fictitious_node (coord_ : list float) (face : list Z) : double3 :=
  D3 (fictitious_coord coord_ face 0)
     (fictitious_coord coord_ face 1)
     (fictitious_coord coord_ face 2).

Definition node_coord (coord_ : list float) (node_id : Z) : double3 :=
  D3 (rd coord_ (3 * node_id)) (rd coord_ (3 * node_id + 1)) (rd coord_ (3 * node_id + 2)).

(** Modelled from the spec: the [ContactEntity] constructor, called with
    [ContactEntity::TRIANGLE]; [model_coord[0..8]] are the three vertices. *)
Definition triangle_entity (entity_id index : Z) (v1 v2 v3 : double3)
    (characteristic_length : float) (node_id_1 node_id_2 : Z)
    (node_ids_for_fictitious_node : list Z) : ContactEntity :=
  {| entity_type_ := TRIANGLE;
     contact_entity_global_id_ := entity_id;
     local_id_ := index;
     coord_1_x_ := at0 v1; coord_1_y_ := at1 v1; coord_1_z_ := at2 v1;
     coord_2_x_ := at0 v2; coord_2_y_ := at1 v2; coord_2_z_ := at2 v2;
     coord_3_x_ := at0 v3; coord_3_y_ := at1 v3; coord_3_z_ := at2 v3;
     char_len_ := characteristic_length;
     node_id_for_node_1_ := node_id_1;
     node_id_for_node_2_ := node_id_2;
     node_ids_for_fictitious_node_ := node_ids_for_fictitious_node |}.

(** Modelled from the spec: the [ContactEntity] constructor, called with
    [ContactEntity::NODE]; the vertex slots 2 and 3 are unused. *)
Definition node_entity (entity_id index : Z) (v1 : double3)
    (characteristic_length : float) (node_id : Z) : ContactEntity :=
  {| entity_type_ := NODE;
     contact_entity_global_id_ := entity_id;
     local_id_ := index;
     coord_1_x_ := at0 v1; coord_1_y_ := at1 v1; coord_1_z_ := at2 v1;
     coord_2_x_ := 0; coord_2_y_ := 0; coord_2_z_ := 0;
     coord_3_x_ := 0; coord_3_y_ := 0; coord_3_z_ := 0;
     char_len_ := characteristic_length;
     node_id_for_node_1_ := node_id;
     node_id_for_node_2_ := 0;
     node_ids_for_fictitious_node_ := [] |}.

(** The triangle built from [face[a]], [face[b]] and the barycentre, with
    triangle ordinal [ordinal], stored at [contact_faces[index]]. *)
Definition face_triangle (coord_ : list float) (face : list Z) (skin_entity_id : Z)
    (index : Z) (a b : nat) (ordinal : Z) : ContactEntity :=
  let node_id_1 := nth a face 0%Z in
  let node_id_2 := nth b face 0%Z in
  triangle_entity (Z.lor skin_entity_id ordinal) index
    (node_coord coord_ node_id_1) (node_coord coord_ node_id_2)
    (fictitious_node coord_ face)
    (max_edge_length coord_ face)
    node_id_1 node_id_2
    (map (fun i => nth i face 0%Z) [0; 1; 2; 3]%nat).

(** The loop over [primary_skin_faces]; [None] is [NIMBLE_ABORT]. *)
Fixpoint create_faces (coord_ : list float) (primary_skin_faces : list (list Z))
    (primary_skin_entity_ids : list Z) (i_face : nat) (index : Z)
  : option (list ContactEntity) :=
  match primary_skin_faces with
  | [] => Some []
  | face :: rest =>
      if negb (length face =? 4)%nat then None
      else
        let id := nth i_face primary_skin_entity_ids 0%Z in
        match create_faces coord_ rest primary_skin_entity_ids (S i_face) (index + 4)%Z with
        | None => None
        | Some tail =>
            Some (face_triangle coord_ face id index 0 1 0
                  :: face_triangle coord_ face id (index + 1)%Z 1 2 1
                  :: face_triangle coord_ face id (index + 2)%Z 2 3 2
                  :: face_triangle coord_ face id (index + 3)%Z 3 0 3
                  :: tail)
        end
  end.

(** The loop over [secondary_node_ids]; [None] is the exception of [.at]. *)
Definition create_nodes (coord_ : list float) (secondary_node_ids : list Z)
    (secondary_node_entity_ids : list Z)
    (secondary_node_char_lens : StdMap.t (K:=Z) (V:=float))
  : option (list ContactEntity) :=
  mapM (fun i_node =>
          node_id ← secondary_node_ids !! i_node;
          entity_id ← secondary_node_entity_ids !! i_node;
          characteristic_length ← StdMap.find Z.compare node_id secondary_node_char_lens;
          Some (node_entity entity_id (Z.of_nat i_node) (node_coord coord_ node_id)
                  characteristic_length node_id))
       (seq 0 (length secondary_node_ids)).

(** [ContactManager::CreateContactNodesAndFaces]: the pair
    [(contact_nodes, contact_faces)]. *)
Definition CreateContactNodesAndFaces (coord_ : list float)
    (primary_skin_faces : list (list Z)) (primary_skin_entity_ids : list Z)
    (secondary_node_ids secondary_node_entity_ids : list Z)
    (secondary_node_char_lens : StdMap.t (K:=Z) (V:=float))
  : option (list ContactEntity * list ContactEntity) :=
  contact_faces ← create_faces coord_ primary_skin_faces primary_skin_entity_ids 0 0;
  contact_nodes ← create_nodes coord_ secondary_node_ids secondary_node_entity_ids
                     secondary_node_char_lens;
  Some (contact_nodes, contact_faces).

End Submodel.

(** ** The contact manager *)

Module Manager.
Import Submodel.
Local Open Scope float_scope.

(** The members of [ContactManager] the modelled functions read and write. *)
Record ContactManager := {
  node_ids_ : list Z;
  model_coord_ : list float;
  coord_ : list float;
  force_ : list float;
  contact_nodes_ : list ContactEntity;
  contact_faces_ : list ContactEntity
}.

(** What [CreateContactEntities] finds when it is entered: what the rank gets
    from MPI and from the vector communicator while it builds the submodel,
    and the [force_] vector the manager holds. *)
Record Environment := {
  (** [force_] on entry: empty after the constructor, the forces of the
      earlier submodel on a manager that is built again. *)
  force_before : list float;
  mpi_rank : Z;
  (** [MPI_Allreduce(.., MPI_MAX, ..)] of the rank's value. *)
  allreduce_max : Z -> Z;
  (** The buffers received while deduplicating the primary and the secondary
      skin faces. *)
  received_primary : list (list Z);
  received_secondary : list (list Z);
  (** [GetPartitionBoundaryNodeLocalIds]. *)
  partition_boundary_node_local_ids : list Z;
  min_rank_containing_partition_boundary_nodes : list Z
}.

(** [std::set<int>::insert]. *)
Fixpoint set_insert (x : Z) (s : list Z) : list Z :=
  match s with
  | [] => [x]
  | y :: s' =>
      match (x ?= y)%Z with
      | Lt => x :: s
      | Eq => s
      | Gt => y :: set_insert x s'
      end
  end.

Definition insert_faces (s : list Z) (faces : list (list Z)) : list Z :=
  fold_left (fun s face => fold_left (fun s id => set_insert id s) face s) faces s.

(** [node_ids_]: the set of the nodes of all skin faces, in increasing order. *)
Definition collect_node_ids (primary_skin_faces secondary_skin_faces : list (list Z))
  : list Z :=
  insert_faces (insert_faces [] primary_skin_faces) secondary_skin_faces.

(** [genesis_mesh_node_id_to_contact_submodel_id]. *)
Definition submodel_id_map (node_ids_ : list Z) : StdMap.t (K:=Z) (V:=Z) :=
  fold_left
    (fun m i_node =>
       StdMap.insert Z.compare (nth i_node node_ids_ 0%Z) (Z.of_nat i_node) m)
    (seq 0 (length node_ids_)) [].

(** Mesh node ids replaced by submodel ids; [None] is the exception of [.at]. *)
Definition renumber (m : StdMap.t (K:=Z) (V:=Z)) (faces : list (list Z))
  : option (list (list Z)) :=
  mapM (mapM (fun genesis_mesh_node_id => StdMap.find Z.compare genesis_mesh_node_id m))
       faces.

(** The partition-boundary nodes whose minimal rank is another rank. *)
Definition ghosted_nodes (env : Environment) : list Z :=
  flat_map
    (fun i =>
       if (nth i (min_rank_containing_partition_boundary_nodes env) 0 =? mpi_rank env)%Z
       then []
       else [nth i (partition_boundary_node_local_ids env) 0%Z])
    (seq 0 (length (partition_boundary_node_local_ids env))).

(** [ghosted_contact_node_ids]: those of them that are in the submodel. *)
Definition ghosted_contact_nodes (m : StdMap.t (K:=Z) (V:=Z))
    (ghosted_node_local_ids : list Z) : list Z :=
  flat_map
    (fun node_id =>
       match StdMap.find Z.compare node_id m with
       | Some i => [i]
       | None => []
       end)
    ghosted_node_local_ids.

(** [model_coord_] and [coord_] at construction. *)
Definition initial_coord (mesh : GenesisMesh) (node_ids_ : list Z) : list float :=
  flat_map
    (fun node_id =>
       [ rd (GetCoordinatesX mesh) node_id;
         rd (GetCoordinatesY mesh) node_id;
         rd (GetCoordinatesZ mesh) node_id ])
    node_ids_.

(** [std::find(v.begin(), v.end(), x) != v.end()]. *)
Definition found (x : Z) (v : list Z) : bool := existsb (Z.eqb x) v.

(** The secondary nodes collected so far. *)
Record secondary := {
  secondary_node_ids : list Z;
  secondary_node_entity_ids : list Z;
  secondary_node_char_lens : StdMap.t (K:=Z) (V:=float)
}.

(** [m[k]] read as an rvalue: a missing key is first inserted with [0.0]. *)
Definition subscript (k : Z) (m : StdMap.t (K:=Z) (V:=float))
  : float * StdMap.t (K:=Z) (V:=float) :=
  match StdMap.find Z.compare k m with
  | Some v => (v, m)
  | None => (0, StdMap.insert Z.compare k 0 m)
  end.

(** The body of the loop over the nodes of one secondary face. *)
Definition visit_secondary_node (genesis_node_global_ids node_ids_ : list Z)
    (ghosted_contact_node_ids : list Z) (characteristic_length : float)
    (st : secondary) (node_id : Z) : secondary :=
  if found node_id ghosted_contact_node_ids then st
  else if negb (found node_id (secondary_node_ids st)) then
    let contact_node_entity_id :=
      Int32.add
        (nth (Z.to_nat (nth (Z.to_nat node_id) node_ids_ 0%Z)) genesis_node_global_ids 0%Z)
        1 in
    {| secondary_node_ids := secondary_node_ids st ++ [node_id];
       secondary_node_entity_ids := secondary_node_entity_ids st ++ [contact_node_entity_id];
       secondary_node_char_lens :=
         StdMap.insert Z.compare node_id characteristic_length
           (secondary_node_char_lens st) |}
  else
    let '(len, lens) := subscript node_id (secondary_node_char_lens st) in
    if len <? characteristic_length
    then {| secondary_node_ids := secondary_node_ids st;
            secondary_node_entity_ids := secondary_node_entity_ids st;
            secondary_node_char_lens :=
              StdMap.insert Z.compare node_id characteristic_length lens |}
    else {| secondary_node_ids := secondary_node_ids st;
            secondary_node_entity_ids := secondary_node_entity_ids st;
            secondary_node_char_lens := lens |}.

(** The characteristic length of a secondary face. *)
Definition secondary_characteristic_length (coord_ : list float) (face : list Z) : float :=
  sqrt (max_edge_length_square coord_ face).

(** The body of the loop over [secondary_skin_faces]. *)
Definition visit_secondary_face (genesis_node_global_ids node_ids_ : list Z)
    (ghosted_contact_node_ids : list Z) (coord_ : list float)
    (st : secondary) (face : list Z) : secondary :=
  fold_left
    (visit_secondary_node genesis_node_global_ids node_ids_ ghosted_contact_node_ids
       (secondary_characteristic_length coord_ face))
    face st.

(** "Store nodes in secondary faces": the three containers after the loop. *)
Definition collect_secondary_nodes (genesis_node_global_ids node_ids_ : list Z)
    (ghosted_contact_node_ids : list Z) (coord_ : list float)
    (secondary_skin_faces : list (list Z)) : secondary :=
  fold_left
    (visit_secondary_face genesis_node_global_ids node_ids_ ghosted_contact_node_ids coord_)
    secondary_skin_faces
    {| secondary_node_ids := [];
       secondary_node_entity_ids := [];
       secondary_node_char_lens := [] |}.

(** [ContactManager::CreateContactEntities]; [None] when the construction
    aborts or throws.  [force_.resize(array_len, 0.0)] keeps the entries the
    manager holds on entry and appends zeros. *)
Definition CreateContactEntities (mesh : GenesisMesh) (env : Environment)
    (primary_block_ids secondary_block_ids : list Z) : option ContactManager :=
  let max_node_global_id := allreduce_max env (GetMaxNodeGlobalId mesh) in
  let contact_entity_id_offset := max_node_global_id in
  '(primary_skin_faces, primary_skin_entity_ids) ←
    Skin.SkinBlocks mesh primary_block_ids contact_entity_id_offset;
  '(secondary_skin_faces, secondary_skin_entity_ids) ←
    Skin.SkinBlocks mesh secondary_block_ids contact_entity_id_offset;
  let '(primary_skin_faces, primary_skin_entity_ids) :=
    Dedup.RemoveInternalSkinFaces (GetNodeGlobalIds mesh)
      primary_skin_faces primary_skin_entity_ids (received_primary env) in
  let '(secondary_skin_faces, secondary_skin_entity_ids) :=
    Dedup.RemoveInternalSkinFaces (GetNodeGlobalIds mesh)
      secondary_skin_faces secondary_skin_entity_ids (received_secondary env) in
  let ghosted_node_local_ids := ghosted_nodes env in
  let node_ids_ := collect_node_ids primary_skin_faces secondary_skin_faces in
  let genesis_mesh_node_id_to_contact_submodel_id := submodel_id_map node_ids_ in
  primary_skin_faces ← renumber genesis_mesh_node_id_to_contact_submodel_id primary_skin_faces;
  secondary_skin_faces ← renumber genesis_mesh_node_id_to_contact_submodel_id secondary_skin_faces;
  let ghosted_contact_node_ids :=
    ghosted_contact_nodes genesis_mesh_node_id_to_contact_submodel_id ghosted_node_local_ids in
  let coord_ := initial_coord mesh node_ids_ in
  let sec :=
    collect_secondary_nodes (GetNodeGlobalIds mesh) node_ids_ ghosted_contact_node_ids
      coord_ secondary_skin_faces in
  '(contact_nodes_, contact_faces_) ←
    CreateContactNodesAndFaces coord_ primary_skin_faces primary_skin_entity_ids
      (secondary_node_ids sec) (secondary_node_entity_ids sec)
      (secondary_node_char_lens sec);
  Some {| node_ids_ := node_ids_;
          model_coord_ := coord_;
          coord_ := coord_;
          force_ := resize (3 * length node_ids_) 0 (force_before env);
          contact_nodes_ := contact_nodes_;
          contact_faces_ := contact_faces_ |}.

Section Displacements.

(** [ContactEntity::SetCoordinates] is not among the sources; the manager is
    modelled for any implementation of it. *)
Variable SetCoordinates : list float -> ContactEntity -> ContactEntity.

(** The inner loop [for (int i = 0; i < 3; i++)] of [ApplyDisplacements]. *)
Definition displace_node (node_ids_ : list Z) (model_coord_ displacement : list float)
    (coord_ : list float) (i_node : nat) : list float :=
  let node_id := nth i_node node_ids_ 0%Z in
  fold_left
    (fun coord_ i =>
       <[(3 * i_node + i)%nat :=
           nth (3 * i_node + i) model_coord_ 0 + rd displacement (3 * node_id + Z.of_nat i)]>
         coord_)
    [0; 1; 2]%nat coord_.

(** [ContactManager::ApplyDisplacements], host version. *)
Definition ApplyDisplacements (cm : ContactManager) (displacement : list float)
  : ContactManager :=
  let coord_ :=
    fold_left (displace_node (node_ids_ cm) (model_coord_ cm) displacement)
      (seq 0 (length (node_ids_ cm))) (coord_ cm) in
  {| node_ids_ := node_ids_ cm;
     model_coord_ := model_coord_ cm;
     coord_ := coord_;
     force_ := force_ cm;
     contact_nodes_ := map (SetCoordinates coord_) (contact_nodes_ cm);
     contact_faces_ := map (SetCoordinates coord_) (contact_faces_ cm) |}.

End Displacements.

(** The inner loop [for (int i = 0; i < 3; i++)] of [GetForces]. *)
Definition gather_node (node_ids_ : list Z) (force_ : list float)
    (contact_force : list float) (i_node : nat) : list float :=
  let node_id := nth i_node node_ids_ 0%Z in
  fold_left
    (fun contact_force i =>
       <[Z.to_nat (3 * node_id + Z.of_nat i) := nth (3 * i_node + i) force_ 0]>
         contact_force)
    [0; 1; 2]%nat contact_force.

(** [ContactManager::GetForces], host version: the array behind [contact_force]
    after the call. *)
Definition GetForces (cm : ContactManager) (contact_force : list float) : list float :=
  fold_left (gather_node (node_ids_ cm) (force_ cm))
    (seq 0 (length (node_ids_ cm))) contact_force.

End Manager.

(** ** Resetting the forces *)

Module Forces.
Import Manager.
Local Open Scope float_scope.

(** [ContactManager::ZeroContactForce], host version:
    [for (auto& fval : force_) fval = 0.0]. *)
Definition ZeroContactForce (cm : ContactManager) : ContactManager :=
  {| node_ids_ := node_ids_ cm;
     model_coord_ := model_coord_ cm;
     coord_ := coord_ cm;
     force_ := (fun _ => 0) <$> force_ cm;
     contact_nodes_ := contact_nodes_ cm;
     contact_faces_ := contact_faces_ cm |}.

End Forces.

(** ** The bounding box of the submodel *)

Module Bounds.
Import Submodel Manager.
Local Open Scope float_scope.

(** [std::numeric_limits<double>::max()]. *)
Definition big : float := 0x1.fffffffffffffp+1023.

(** The six reference out-parameters of [BoundingBox]. *)
Record box := {
  x_min : float; x_max : float;
  y_min : float; y_max : float;
  z_min : float; z_max : float
}.

(** The body of the loop over [i]. *)
Definition grow (coord_ : list float) (b : box) (i : nat) : box :=
  let x := nth (i * 3) coord_ 0 in
  let y := nth (i * 3 + 1) coord_ 0 in
  let z := nth (i * 3 + 2) coord_ 0 in
  {| x_min := if x <? x_min b then x else x_min b;
     x_max := if x_max b <? x then x else x_max b;
     y_min := if y <? y_min b then y else y_min b;
     y_max := if y_max b <? y then y else y_max b;
     z_min := if z <? z_min b then z else z_min b;
     z_max := if z_max b <? z then z else z_max b |}.

(** [ContactManager::BoundingBox], host version. *)
Definition BoundingBox (cm : ContactManager) : box :=
  fold_left (grow (coord_ cm)) (seq 0 (length (coord_ cm) / 3))
    {| x_min := big; x_max := -1 * big;
       y_min := big; y_max := -1 * big;
       z_min := big; z_max := -1 * big |}.

(** What a build with MPI adds to
    [BoundingBoxAverageCharacteristicLengthOverAllRanks]: the number of ranks
    and [MPI_Allreduce(.., MPI_SUM, ..)] of the rank's value. *)
Record Ranks := {
  num_ranks : Z;
  allreduce_sum : float -> float
}.

(** [ContactManager::BoundingBoxAverageCharacteristicLengthOverAllRanks];
    [mpi = None] is a build without [NIMBLE_HAVE_MPI]. *)
Definition BoundingBoxAverageCharacteristicLengthOverAllRanks
    (cm : ContactManager) (mpi : option Ranks) : float :=
  let b := BoundingBox cm in
  let longest_edge := x_max b - x_min b in
  let longest_edge :=
    if longest_edge <? y_max b - y_min b then y_max b - y_min b else longest_edge in
  let longest_edge :=
    if longest_edge <? z_max b - z_min b then z_max b - z_min b else longest_edge in
  match mpi with
  | None => longest_edge
  | Some r => allreduce_sum r longest_edge / of_uint63 (Uint63.of_Z (num_ranks r))
  end.

End Bounds.

(** ** The visualization of the contact entities *)

Module Visualization.
Import Manager.
Import String.
Local Open Scope Z_scope.

(** [a * b] on [int]. *)
Definition int_mul (a b : Z) : Z := Int32.wrap (a * b).

(** [if (entity.contact_entity_global_id_ > max) max = ...]. *)
Definition raise_max (max_contact_entity_id : Z) (e : ContactEntity) : Z :=
  if max_contact_entity_id <? contact_entity_global_id_ e
  then contact_entity_global_id_ e
  else max_contact_entity_id.

(** "determine the maximum contact entity global id over all MPI partitions".
    The accessors [getContactFace], [getContactNode], [numContactFaces] and
    [numContactNodes] of the header read [contact_faces_] and
    [contact_nodes_]. *)
Definition max_contact_entity_id (env : Environment) (cm : ContactManager) : Z :=
  let m := fold_left raise_max (contact_faces_ cm) 0 in
  let m := fold_left raise_max (contact_nodes_ cm) m in
  allreduce_max env m.

(** The vectors the function fills before it hands them to
    [GenesisMesh::Initialize], and the running [node_index]. *)
Record mesh_data := {
  node_global_id : list Z;
  node_x : list float;
  node_y : list float;
  node_z : list float;
  elem_global_id : list Z;
  block_ids : list Z;
  block_names : StdMap.t (K:=Z) (V:=string);
  block_elem_global_ids : StdMap.t (K:=Z) (V:=list Z);
  block_num_nodes_per_elem : StdMap.t (K:=Z) (V:=Z);
  block_elem_connectivity : StdMap.t (K:=Z) (V:=list Z);
  node_index : Z
}.

(** [m[k].push_back(x)]: a missing key is first inserted with an empty
    vector. *)
Definition subscript_push (k x : Z) (m : StdMap.t (K:=Z) (V:=list Z))
  : StdMap.t (K:=Z) (V:=list Z) :=
  match StdMap.find Z.compare k m with
  | Some _ => StdMap.alter Z.compare (fun conn => conn ++ [x]) k m
  | None => StdMap.insert Z.compare k [x] m
  end.

(** [v.push_back(..)] on the vectors of one node, and
    [block_elem_connectivity[block_id].push_back(node_index++)]. *)
Definition push_node (block_id : Z) (id : Z) (x y z : float) (d : mesh_data) : mesh_data :=
  {| node_global_id := node_global_id d ++ [id];
     node_x := node_x d ++ [x];
     node_y := node_y d ++ [y];
     node_z := node_z d ++ [z];
     elem_global_id := elem_global_id d;
     block_ids := block_ids d;
     block_names := block_names d;
     block_elem_global_ids := block_elem_global_ids d;
     block_num_nodes_per_elem := block_num_nodes_per_elem d;
     block_elem_connectivity :=
       subscript_push block_id (node_index d) (block_elem_connectivity d);
     node_index := Int32.add (node_index d) 1 |}.

(** [elem_global_id.push_back(..)]. *)
Definition push_elem (id : Z) (d : mesh_data) : mesh_data :=
  {| node_global_id := node_global_id d;
     node_x := node_x d;
     node_y := node_y d;
     node_z := node_z d;
     elem_global_id := elem_global_id d ++ [id];
     block_ids := block_ids d;
     block_names := block_names d;
     block_elem_global_ids := block_elem_global_ids d;
     block_num_nodes_per_elem := block_num_nodes_per_elem d;
     block_elem_connectivity := block_elem_connectivity d;
     node_index := node_index d |}.

(** The five statements that open a block. *)
Definition open_block (block_id : Z) (name : string) (nodes_per_elem : Z)
    (d : mesh_data) : mesh_data :=
  {| node_global_id := node_global_id d;
     node_x := node_x d;
     node_y := node_y d;
     node_z := node_z d;
     elem_global_id := elem_global_id d;
     block_ids := block_ids d ++ [block_id];
     block_names := StdMap.insert Z.compare block_id name (block_names d);
     block_elem_global_ids := StdMap.insert Z.compare block_id [] (block_elem_global_ids d);
     block_num_nodes_per_elem :=
       StdMap.insert Z.compare block_id nodes_per_elem (block_num_nodes_per_elem d);
     block_elem_connectivity :=
       StdMap.insert Z.compare block_id [] (block_elem_connectivity d);
     node_index := node_index d |}.

(** The body of the loop over the contact faces. *)
Definition visualize_face (max_contact_entity_id : Z) (d : mesh_data) (face : ContactEntity)
  : mesh_data :=
  let contact_entity_global_id := contact_entity_global_id_ face in
  let id k :=
    Int32.add (Int32.add (int_mul 3 contact_entity_global_id) max_contact_entity_id) k in
  let d := push_node 1 (id 9) (coord_1_x_ face) (coord_1_y_ face) (coord_1_z_ face) d in
  let d := push_node 1 (id 10) (coord_2_x_ face) (coord_2_y_ face) (coord_2_z_ face) d in
  let d := push_node 1 (id 11) (coord_3_x_ face) (coord_3_y_ face) (coord_3_z_ face) d in
  push_elem contact_entity_global_id d.

(** The body of the loop over the contact nodes. *)
Definition visualize_node (d : mesh_data) (node : ContactEntity) : mesh_data :=
  let contact_entity_global_id := contact_entity_global_id_ node in
  let d := push_node 2 contact_entity_global_id
             (coord_1_x_ node) (coord_1_y_ node) (coord_1_z_ node) d in
  push_elem contact_entity_global_id d.

(** [ContactManager::InitializeContactVisualization], up to the call of
    [mesh.Initialize]: the mesh of the visualization. *)
Definition InitializeContactVisualization (env : Environment) (cm : ContactManager)
  : mesh_data :=
  let max_contact_entity_id := max_contact_entity_id env cm in
  let d := {| node_global_id := []; node_x := []; node_y := []; node_z := [];
              elem_global_id := []; block_ids := [];
              block_names := []; block_elem_global_ids := [];
              block_num_nodes_per_elem := []; block_elem_connectivity := [];
              node_index := 0 |} in
  let d := open_block 1 "contact_faces" 3 d in
  let d := fold_left (visualize_face max_contact_entity_id) (contact_faces_ cm) d in
  let d := open_block 2 "contact_nodes" 1 d in
  fold_left visualize_node (contact_nodes_ cm) d.

Section Steps.
Local Open Scope float_scope.

(** [static_cast<double>(entity.contact_status())] and
    [static_cast<double>(numActiveContactFaces())]: the header's. *)
Variable contact_status : ContactEntity -> float.
Variable num_contacts : ContactManager -> float.

(** What [WriteVisualizationData] hands to [ExodusOutput::WriteStep]. *)
Record step_data := {
  global_data : list float;
  node_data_for_output : list (list float);
  elem_data_labels_for_output : StdMap.t (K:=Z) (V:=list string);
  derived_elem_data_labels : StdMap.t (K:=Z) (V:=list string)
}.

(** [model_coord[node_index]]; the source does not check the index: a read
    outside the array is [None]. *)
Definition model_coord (coord : list float) (node_index : Z) : option float :=
  if (node_index <? 0)%Z then None else coord !! Z.to_nat node_index.

(** [node_data_for_output[k][node_index] = v]; a write outside the vector is
    [None]. *)
Definition set_data (k : nat) (node_index : Z) (v : float) (data : list (list float))
  : option (list (list float)) :=
  ndata ← data !! k;
  if ((0 <=? node_index)%Z && (node_index <? Z.of_nat (List.length ndata))%Z)%bool
  then Some (<[k := <[Z.to_nat node_index := v]> ndata]> data)
  else None.

(** The four assignments made for one node of the visualization, and
    [node_index += 1]. *)
Definition write_node (model_coord_x model_coord_y model_coord_z : list float)
    (x y z status : float) (st : list (list float) * Z) : option (list (list float) * Z) :=
  let '(data, node_index) := st in
  mx ← model_coord model_coord_x node_index;
  data ← set_data 0 node_index (x - mx) data;
  my ← model_coord model_coord_y node_index;
  data ← set_data 1 node_index (y - my) data;
  mz ← model_coord model_coord_z node_index;
  data ← set_data 2 node_index (z - mz) data;
  data ← set_data 3 node_index status data;
  Some (data, Int32.add node_index 1).

Definition write_face (model_coord_x model_coord_y model_coord_z : list float)
    (st : option (list (list float) * Z)) (face : ContactEntity)
  : option (list (list float) * Z) :=
  let status := contact_status face in
  st ← st;
  st ← write_node model_coord_x model_coord_y model_coord_z
         (coord_1_x_ face) (coord_1_y_ face) (coord_1_z_ face) status st;
  st ← write_node model_coord_x model_coord_y model_coord_z
         (coord_2_x_ face) (coord_2_y_ face) (coord_2_z_ face) status st;
  write_node model_coord_x model_coord_y model_coord_z
    (coord_3_x_ face) (coord_3_y_ face) (coord_3_z_ face) status st.

Definition write_contact_node (model_coord_x model_coord_y model_coord_z : list float)
    (st : option (list (list float) * Z)) (node : ContactEntity)
  : option (list (list float) * Z) :=
  st ← st;
  write_node model_coord_x model_coord_y model_coord_z
    (coord_1_x_ node) (coord_1_y_ node) (coord_1_z_ node) (contact_status node) st.

(** [ContactManager::WriteVisualizationData], up to the call of
    [out.WriteStep]; [mesh_block_ids], [num_nodes] and the three coordinate
    arrays are those of [genesis_mesh_for_contact_visualization_]. *)
Definition WriteVisualizationData (cm : ContactManager)
    (mesh_block_ids : list Z) (num_nodes : nat)
    (model_coord_x model_coord_y model_coord_z : list float) : option step_data :=
  let labels :=
    fold_left (fun m block_id => StdMap.insert Z.compare block_id [] m) mesh_block_ids [] in
  let data := replicate 4 (replicate num_nodes 0) in
  let st := fold_left (write_face model_coord_x model_coord_y model_coord_z)
              (contact_faces_ cm) (Some (data, 0%Z)) in
  let st := fold_left (write_contact_node model_coord_x model_coord_y model_coord_z)
              (contact_nodes_ cm) st in
  st ← st;
  Some {| global_data := [num_contacts cm];
          node_data_for_output := fst st;
          elem_data_labels_for_output := labels;
          derived_elem_data_labels := labels |}.

End Steps.

End Visualization.

(** ** The contact command of the input deck: [ParseContactCommand] *)

Module Parse.
Import Ascii String.

(** [std::isspace] in the classic locale: the space and the characters
    [\t \n \v \f \r]. *)
Definition isspace (c : ascii) : bool :=
  let n := nat_of_ascii c in
  (n =? 32)%nat || ((9 <=? n)%nat && (n <=? 13)%nat).

(** A [std::stringstream] read with [>>]: the characters not yet read and the
    two state bits the function can raise. *)
Record sstream := {
  buf : string;
  eofbit : bool;
  failbit : bool
}.

(** [ss.good()]. *)
Definition good (ss : sstream) : bool := negb (eofbit ss) && negb (failbit ss).

(** What the sentry of a formatted input does first: skip the white space. *)
Fixpoint skip_ws (s : string) : string :=
  match s with
  | EmptyString => EmptyString
  | String c s' => if isspace c then skip_ws s' else s
  end.

(** The characters up to the next white space or the end, and the rest. *)
Fixpoint read_word (s : string) : string * string :=
  match s with
  | EmptyString => (EmptyString, EmptyString)
  | String c s' =>
      if isspace c then (EmptyString, s)
      else let (w, r) := read_word s' in (String c w, r)
  end.

Definition is_empty (s : string) : bool :=
  match s with EmptyString => true | String _ _ => false end.

(** [ss >> str] for a [std::string]: a stream that is not good, or holds
    nothing but white space, raises [failbit] and leaves [str] alone; a word
    that runs to the end of the stream raises [eofbit]. *)
Definition extract_string (ss : sstream) (str : string) : sstream * string :=
  if good ss then
    match skip_ws (buf ss) with
    | EmptyString => ({| buf := EmptyString; eofbit := true; failbit := true |}, str)
    | String c s' =>
        let (w, r) := read_word (String c s') in
        ({| buf := r; eofbit := is_empty r; failbit := false |}, w)
    end
  else ({| buf := buf ss; eofbit := eofbit ss; failbit := true |}, str).

(** [while (ss.good() && !found) { std::string temp; ss >> temp; ... }]: the
    names pushed until the key is met.  Every turn either reads a character or
    ends the loop, so [fuel] above the number of characters left is never used
    up. *)
Fixpoint scan_names (fuel : nat) (is_key : string -> bool) (ss : sstream)
    (names : list string) : sstream * list string * bool :=
  match fuel with
  | O => (ss, names, false)
  | S fuel' =>
      if good ss then
        let (ss', temp) := extract_string ss EmptyString in
        if is_key temp then (ss', names, true)
        else scan_names fuel' is_key ss' (names ++ [temp])
      else (ss, names, false)
  end.

Definition is_primary_key (s : string) : bool :=
  (s =? "primary_blocks")%string || (s =? "master_blocks")%string.

Definition is_secondary_key (s : string) : bool :=
  (s =? "secondary_blocks")%string || (s =? "slave_blocks")%string.

Definition is_penalty_key (s : string) : bool := (s =? "penalty_parameter")%string.

(** The three [std::invalid_argument] the function throws. *)
Inductive invalid_argument :=
  | unknown_key (contact_primary_key : string)
  | expected_secondary_blocks
  | expected_penalty_parameter.

(** The exception, if any, and the three reference parameters as the
    function leaves them. *)
Record outcome := {
  thrown : option invalid_argument;
  primary_block_names : list string;
  secondary_block_names : list string;
  penalty_parameter : float
}.

Section Command.

(** The conversion of [std::num_get] is the library's; it is applied to the
    characters that follow the white space. *)
Variable num_get : string -> float.

(** [ss >> penalty_parameter] for a [double]. *)
Definition extract_double (ss : sstream) (v : float) : float :=
  if good ss then
    match skip_ws (buf ss) with
    | EmptyString => v
    | String c s' => num_get (String c s')
    end
  else v.

(** [nimble::ParseContactCommand]. *)
Definition ParseContactCommand (command : string)
    (primary_block_names0 secondary_block_names0 : list string)
    (penalty_parameter0 : float) : outcome :=
  let ss := {| buf := command; eofbit := false; failbit := false |} in
  let (ss, contact_primary_key) := extract_string ss EmptyString in
  if negb (is_primary_key contact_primary_key) then
    {| thrown := Some (unknown_key contact_primary_key);
       primary_block_names := primary_block_names0;
       secondary_block_names := secondary_block_names0;
       penalty_parameter := penalty_parameter0 |}
  else
    let '(ss, primary, secondary_key_found) :=
      scan_names (S (length (buf ss))) is_secondary_key ss primary_block_names0 in
    if negb secondary_key_found then
      {| thrown := Some expected_secondary_blocks;
         primary_block_names := primary;
         secondary_block_names := secondary_block_names0;
         penalty_parameter := penalty_parameter0 |}
    else
      let '(ss, secondary, penalty_parameter_key_found) :=
        scan_names (S (length (buf ss))) is_penalty_key ss secondary_block_names0 in
      if negb penalty_parameter_key_found then
        {| thrown := Some expected_penalty_parameter;
           primary_block_names := primary;
           secondary_block_names := secondary;
           penalty_parameter := penalty_parameter0 |}
      else
        {| thrown := None;
           primary_block_names := primary;
           secondary_block_names := secondary;
           penalty_parameter := extract_double ss penalty_parameter0 |}.

End Command.

End Parse.

(** * Properties *)

(** ** Facts about the order on binary64 numbers *)

Module Flt.
Local Open Scope float_scope.

Ltac fold_pos_cmp :=
  repeat match goal with
  | |- context [PosDef.Pos.compare_cont Eq ?p ?q] =>
      change (PosDef.Pos.compare_cont Eq p q) with (Pos.compare p q)
  end.

Ltac sf_cases ex ey ez mx my mz :=
  fold_pos_cmp;
  destruct (Z.compare_spec ex ey), (Z.compare_spec ey ez), (Z.compare_spec ex ez);
  try lia; try (simpl; congruence);
  destruct (Pos.compare_spec mx my), (Pos.compare_spec my mz), (Pos.compare_spec mx mz);
  simpl; try lia; try congruence.

Lemma SFltb_irrefl x : SFltb x x = false.
Proof.
  unfold SFltb, SFcompare.
  destruct x as [s|s| |s m e]; try destruct s; try reflexivity;
    rewrite Z.compare_refl; fold_pos_cmp; rewrite Pos.compare_refl; reflexivity.
Qed.

Lemma SFltb_trans x y z :
  SFltb x y = true -> SFltb y z = true -> SFltb x z = true.
Proof.
  unfold SFltb, SFcompare.
  destruct x as [sx|sx| |sx mx ex], y as [sy|sy| |sy my ey], z as [sz|sz| |sz mz ez];
    try destruct sx; try destruct sy; try destruct sz; try (simpl; congruence);
    sf_cases ex ey ez mx my mz.
Qed.

(** On numbers [<] is a total order: below [y] and not above [z] chain. *)
Lemma SFltb_lt_nlt x y z :
  SFltb x y = true -> SFltb z y = false -> z <> S754_nan -> SFltb x z = true.
Proof.
  unfold SFltb, SFcompare.
  destruct x as [sx|sx| |sx mx ex], y as [sy|sy| |sy my ey], z as [sz|sz| |sz mz ez];
    try destruct sx; try destruct sy; try destruct sz; try (simpl; congruence);
    sf_cases ex ez ey mx mz my.
Qed.

Lemma ltb_irrefl (x : float) : (x <? x) = false.
Proof. rewrite FloatAxioms.ltb_spec. apply SFltb_irrefl. Qed.

Lemma ltb_trans (x y z : float) :
  (x <? y) = true -> (y <? z) = true -> (x <? z) = true.
Proof. rewrite !FloatAxioms.ltb_spec. apply SFltb_trans. Qed.

Lemma is_nan_false_SF x : is_nan x = false -> Prim2SF x <> S754_nan.
Proof.
  unfold is_nan. rewrite FloatAxioms.eqb_spec. intros H E.
  rewrite E in H. discriminate.
Qed.

Lemma ltb_lt_nlt (x y z : float) :
  (x <? y) = true -> (z <? y) = false -> is_nan z = false -> (x <? z) = true.
Proof.
  rewrite !FloatAxioms.ltb_spec. intros.
  eapply SFltb_lt_nlt; eauto using is_nan_false_SF.
Qed.

(** A value that nothing exceeds stays unexceeded after a strict-[<] update. *)
Lemma ltb_max_step (m e x : float) :
  (m <? x) = false -> (m <? e) = true -> (e <? x) = false.
Proof.
  intros Hm He. destruct (e <? x) eqn:E; [|reflexivity].
  rewrite (ltb_trans _ _ _ He E) in Hm. discriminate.
Qed.









End Flt.

(** ** The projection kernel *)

Module KernelFacts.
Import Kernel.
Local Open Scope float_scope.

(** The formulas of the specification, written once for the three kernels:
    [u = p2 - p1], [v = p3 - p1], [w = point - p1], [n = u x v]. *)
Definition n_of (tri : ContactEntity) : double3 :=
  CrossProduct (sub3 (tri_p2 tri) (tri_p1 tri)) (sub3 (tri_p3 tri) (tri_p1 tri)).

Definition n_squared_of (tri : ContactEntity) : float := dot3 (n_of tri) (n_of tri).

(** [((u x w) . n) / |n|^2]: the weight of [p3] ([gamma], [alpha3]). *)
Definition weight_p3 (node tri : ContactEntity) : float :=
  let u := sub3 (tri_p2 tri) (tri_p1 tri) in
  let w := sub3 (node_p node) (tri_p1 tri) in
  dot3 (CrossProduct u w) (n_of tri) / n_squared_of tri.

(** [((w x v) . n) / |n|^2]: the weight of [p2] ([beta], [alpha2]). *)
Definition weight_p2 (node tri : ContactEntity) : float :=
  let v := sub3 (tri_p3 tri) (tri_p1 tri) in
  let w := sub3 (node_p node) (tri_p1 tri) in
  dot3 (CrossProduct w v) (n_of tri) / n_squared_of tri.

(** The barycentric combination [a p1 + b p2 + c p3]. *)
Definition combine3 (a b c : float) (p1 p2 p3 : double3) : double3 :=
  D3 (a * at0 p1 + b * at0 p2 + c * at0 p3)
     (a * at1 p1 + b * at1 p2 + c * at1 p3)
     (a * at2 p1 + b * at2 p2 + c * at2 p3).

(** [lo < a < hi], both strict. *)
Definition strictly_between (lo hi a : float) : bool := (lo <? a) && (a <? hi).

(** [lo <= a <= hi]. *)
Definition within (lo hi a : float) : bool := (lo <=? a) && (a <=? hi).

(** The weights of the signed-gap projection: [alpha1 = 1 - alpha2 - alpha3]. *)
Definition alpha2 (node tri : ContactEntity) : float := weight_p2 node tri.
Definition alpha3 (node tri : ContactEntity) : float := weight_p3 node tri.
Definition alpha1 (node tri : ContactEntity) : float :=
  1 - alpha2 node tri - alpha3 node tri.

(** All three weights strictly between [-tol] and [1 + tol]. *)
Definition inside (node tri : ContactEntity) (tol : float) : bool :=
  strictly_between (- tol) (1 + tol) (alpha1 node tri)
  && strictly_between (- tol) (1 + tol) (alpha2 node tri)
  && strictly_between (- tol) (1 + tol) (alpha3 node tri).

(** All three weights in the closed interval [[-tol, 1 + tol]]. *)
Definition inside_closed (node tri : ContactEntity) (tol : float) : bool :=
  within (- tol) (1 + tol) (alpha1 node tri)
  && within (- tol) (1 + tol) (alpha2 node tri)
  && within (- tol) (1 + tol) (alpha3 node tri).

(** The outward unit normal: [n] scaled by [1 / sqrt(|n|^2)]. *)
Definition unit_normal (tri : ContactEntity) : double3 :=
  let s := 1 / sqrt (n_squared_of tri) in
  D3 (at0 (n_of tri) * s) (at1 (n_of tri) * s) (at2 (n_of tri) * s).

Definition projected_point (node tri : ContactEntity) : double3 :=
  combine3 (alpha1 node tri) (alpha2 node tri) (alpha3 node tri)
    (tri_p1 tri) (tri_p2 tri) (tri_p3 tri).

(** [(node - projected point) . normal]. *)
Definition signed_gap (node tri : ContactEntity) : float :=
  dot3 (sub3 (node_p node) (projected_point node tri)) (unit_normal tri).

(** Penetrating, and by less than the triangle's characteristic length. *)
Definition penetrating (node tri : ContactEntity) : bool :=
  (signed_gap node tri <? 0) && (- char_len_ tri <? signed_gap node tri).

(** A point entity at [(x, y, z)] and the triangle [p1 p2 p3], for examples. *)
Definition point_entity (x y z : float) : ContactEntity :=
  Submodel.node_entity 1 0 (D3 x y z) 1 0.

Definition triangle_of (p1 p2 p3 : double3) (characteristic_length : float)
  : ContactEntity :=
  Submodel.triangle_entity 64 0 p1 p2 p3 characteristic_length 0 1 [0; 1; 2; 3]%Z.

(** The right triangle with legs of length 1 in the plane [z = 0]. *)
Definition unit_triangle : ContactEntity :=
  triangle_of (D3 0 0 0) (D3 1 0 0) (D3 0 1 0) 1.

(** C1, as amended: the signed-gap projection.  When the three weights
    [alpha1], [alpha2], [alpha3] lie strictly between [-tol] and [1 + tol],
    [Projection] returns the unit normal [n * (1 / |n|)], the weights of the
    projected point and the gap [(node - projected point) . normal], and [in]
    is set exactly when the gap is negative and above minus the triangle's
    characteristic length; [SimpleClosestPointProjectionSingle] returns the
    same normal and gap, the projected point itself and the type [FACE].
    Otherwise [in] is [false], the other outputs keep their incoming values
    and the projection type is [UNKNOWN]. *)
Theorem Projection_signed_gap (node tri : ContactEntity)
    (closest_point0 : double3) (gap0 : float)
    (normal0 barycentric_coordinates0 : double3) (tol : float) :
  Projection node tri gap0 normal0 barycentric_coordinates0 tol
  = (if inside node tri tol
     then {| in_ := penetrating node tri;
             gap := signed_gap node tri;
             normal := unit_normal tri;
             barycentric_coordinates :=
               D3 (alpha1 node tri) (alpha2 node tri) (alpha3 node tri) |}
     else {| in_ := false;
             gap := gap0;
             normal := normal0;
             barycentric_coordinates := barycentric_coordinates0 |})
  /\ SimpleClosestPointProjectionSingle node tri closest_point0 gap0 normal0 tol
     = (if inside node tri tol
        then {| sp_projection_type := FACE;
                sp_closest_point := projected_point node tri;
                sp_gap := signed_gap node tri;
                sp_normal := unit_normal tri |}
        else {| sp_projection_type := UNKNOWN;
                sp_closest_point := closest_point0;
                sp_gap := gap0;
                sp_normal := normal0 |})
  /\ (in_ (Projection node tri gap0 normal0 barycentric_coordinates0 tol) = true
      <-> inside node tri tol = true
          /\ (signed_gap node tri <? 0) = true
          /\ (- char_len_ tri <? signed_gap node tri) = true).
Proof.
  assert (HP : Projection node tri gap0 normal0 barycentric_coordinates0 tol
               = if inside node tri tol
                 then {| in_ := penetrating node tri;
                         gap := signed_gap node tri;
                         normal := unit_normal tri;
                         barycentric_coordinates :=
                           D3 (alpha1 node tri) (alpha2 node tri) (alpha3 node tri) |}
                 else {| in_ := false;
                         gap := gap0;
                         normal := normal0;
                         barycentric_coordinates := barycentric_coordinates0 |})
    by reflexivity.
  split; [exact HP|]. split; [reflexivity|].
  rewrite HP. destruct (inside node tri tol); simpl.
  - unfold penetrating. rewrite andb_true_iff. tauto.
  - split; [discriminate|]. intros [H _]. discriminate.
Qed.

(** The theorem at work on the unit triangle, of characteristic length 1, with
    [tol = 1e-16]: half a unit below the point [(0.25, 0.25, 0)] the gap is
    [-0.5] and the node is in contact; half a unit above, the gap is [0.5] and
    it is not; two units below, it has passed through and is not either. *)
Lemma Projection_signed_gap_witness :
  Projection (point_entity 0.25 0.25 (-0.5)) unit_triangle 7 (D3 0 0 0) (D3 0 0 0)
    default_tol
  = {| in_ := true; gap := -0.5; normal := D3 0 0 1;
       barycentric_coordinates := D3 0.5 0.25 0.25 |}
  /\ Projection (point_entity 0.25 0.25 0.5) unit_triangle 7 (D3 0 0 0) (D3 0 0 0)
       default_tol
     = {| in_ := false; gap := 0.5; normal := D3 0 0 1;
          barycentric_coordinates := D3 0.5 0.25 0.25 |}
  /\ Projection (point_entity 0.25 0.25 (-2)) unit_triangle 7 (D3 0 0 0) (D3 0 0 0)
       default_tol
     = {| in_ := false; gap := -2; normal := D3 0 0 1;
          barycentric_coordinates := D3 0.5 0.25 0.25 |}.
Proof.
  split; [|split].
  - exact (proj1 (Projection_signed_gap (point_entity 0.25 0.25 (-0.5)) unit_triangle
                    (D3 0 0 0) 7 (D3 0 0 0) (D3 0 0 0) default_tol)).
  - exact (proj1 (Projection_signed_gap (point_entity 0.25 0.25 0.5) unit_triangle
                    (D3 0 0 0) 7 (D3 0 0 0) (D3 0 0 0) default_tol)).
  - exact (proj1 (Projection_signed_gap (point_entity 0.25 0.25 (-2)) unit_triangle
                    (D3 0 0 0) 7 (D3 0 0 0) (D3 0 0 0) default_tol)).
Defined.

(** C1, as stated, fails on the boundary of the interval.  The node
    [(0.25, -1e-16, -0.5)] lies half a unit below the unit triangle; with
    [tol = 1e-16] its weights are [0.75], [0.25] and exactly [-tol], all in
    [[-tol, 1 + tol]], and its gap [-0.5] is negative and above
    [-char_len = -1]: yet [in] is [false], nothing else is assigned, and the
    projection type is [UNKNOWN]. *)
Lemma Projection_closed_interval_counterexample :
  let node := point_entity 0.25 (- default_tol) (-0.5) in
  inside_closed node unit_triangle default_tol = true
  /\ alpha3 node unit_triangle = (- default_tol)
  /\ penetrating node unit_triangle = true
  /\ Projection node unit_triangle 7 (D3 0 0 0) (D3 0 0 0) default_tol
     = {| in_ := false; gap := 7; normal := D3 0 0 0;
          barycentric_coordinates := D3 0 0 0 |}
  /\ sp_projection_type
       (SimpleClosestPointProjectionSingle node unit_triangle (D3 0 0 0) 7 (D3 0 0 0)
          default_tol) = UNKNOWN.
Proof. vm_compute. repeat split. Qed.

(** *** The full projection *)

(** The weights of the full projection: [alpha = 1 - gamma - beta]. *)
Definition gamma (node tri : ContactEntity) : float := weight_p3 node tri.
Definition beta (node tri : ContactEntity) : float := weight_p2 node tri.
Definition alpha (node tri : ContactEntity) : float := 1 - gamma node tri - beta node tri.

(** All three weights strictly between [-tol] and [1 + tol]. *)
Definition in_range (node tri : ContactEntity) (tol : float) : bool :=
  strictly_between (- tol) (1 + tol) (alpha node tri)
  && strictly_between (- tol) (1 + tol) (beta node tri)
  && strictly_between (- tol) (1 + tol) (gamma node tri).

(** All three weights in the closed interval [[-tol, 1 + tol]]. *)
Definition in_range_closed (node tri : ContactEntity) (tol : float) : bool :=
  within (- tol) (1 + tol) (alpha node tri)
  && within (- tol) (1 + tol) (beta node tri)
  && within (- tol) (1 + tol) (gamma node tri).

(** Some weight strictly between [-tol] and [tol]. *)
Definition some_weight_is_zero (node tri : ContactEntity) (tol : float) : bool :=
  strictly_between (- tol) tol (alpha node tri)
  || strictly_between (- tol) tol (beta node tri)
  || strictly_between (- tol) tol (gamma node tri).

(** All three weights strictly between [tol] and [1 - tol]. *)
Definition strictly_interior (node tri : ContactEntity) (tol : float) : bool :=
  strictly_between tol (1 - tol) (alpha node tri)
  && strictly_between tol (1 - tol) (beta node tri)
  && strictly_between tol (1 - tol) (gamma node tri).

(** [c] is the first of the candidates at minimal distance: no candidate is
    nearer, and every candidate listed before it is strictly farther (when its
    distance is a number: nothing compares with a NaN). *)
Definition nearest_first (cands : list (float * double3)) (c : float * double3) : Prop :=
  exists k : nat,
    cands !! k = Some c
    /\ (forall j c', cands !! j = Some c' -> (fst c' <? fst c) = false)
    /\ (forall j c', (j < k)%nat -> cands !! j = Some c' ->
          is_nan (fst c') = false -> (fst c <? fst c') = true).

(** [if (d < min) min = d], over the candidates after the first. *)
Definition nearer (best c : float * double3) : float * double3 :=
  if fst c <? fst best then c else best.

Lemma nearest_first_scan (c0 : float * double3) (rest : list (float * double3)) :
  nearest_first (c0 :: rest) (fold_left nearer rest c0).
Proof.
  induction rest as [|c rest IH] using rev_ind.
  - exists 0%nat. simpl. split; [reflexivity|]. split.
    + intros [|j] c' Hj; simpl in Hj; [|discriminate].
      injection Hj as <-. apply Flt.ltb_irrefl.
    + intros j c' Hlt. lia.
  - destruct IH as (k & Hk & Hmin & Hfirst).
    rewrite fold_left_app. simpl.
    set (best := fold_left nearer rest c0) in *.
    assert (Hklt : (k < length (c0 :: rest))%nat) by (eapply lookup_lt_Some; eauto).
    unfold nearer at 1. destruct (fst c <? fst best) eqn:Hcmp.
    + exists (length (c0 :: rest)). rewrite app_comm_cons. split.
      { rewrite lookup_app_r by lia. rewrite Nat.sub_diag. reflexivity. }
      split.
      * intros j c' Hj. apply lookup_app_Some in Hj as [Hj|[_ Hj]].
        -- specialize (Hmin _ _ Hj).
           destruct (fst c' <? fst c) eqn:E; [|reflexivity].
           rewrite (Flt.ltb_trans _ _ _ E Hcmp) in Hmin. discriminate.
        -- destruct (j - length (c0 :: rest))%nat; simpl in Hj; [|discriminate].
           injection Hj as <-. apply Flt.ltb_irrefl.
      * intros j c' Hlt Hj Hnan. rewrite lookup_app_l in Hj by lia.
        eapply Flt.ltb_lt_nlt; [exact Hcmp|eapply Hmin; eauto|exact Hnan].
    + exists k. rewrite app_comm_cons. split.
      { rewrite lookup_app_l by lia. exact Hk. }
      split.
      * intros j c' Hj. apply lookup_app_Some in Hj as [Hj|[_ Hj]].
        -- eapply Hmin; eauto.
        -- destruct (j - length (c0 :: rest))%nat; simpl in Hj; [|discriminate].
           injection Hj as <-. exact Hcmp.
      * intros j c' Hlt Hj. rewrite lookup_app_l in Hj by lia. eapply Hfirst; eauto.
Qed.

Section FullProjectionFacts.

Variable PointEdgeClosestPointFindT : double3 -> double3 -> double3 -> float.
Variable PointEdgeClosestPointFindDistanceSquared :
  double3 -> double3 -> double3 -> float -> float.

(** The foot of the perpendicular on the edge [a b], a candidate only when its
    parameter [t] is strictly between 0 and 1. *)
Definition edge_candidate (a b p : double3) : list (float * double3) :=
  let t := PointEdgeClosestPointFindT a b p in
  if strictly_between 0 1 t
  then [(PointEdgeClosestPointFindDistanceSquared a b p t, edge_point a b t)]
  else [].

(** The candidates in the order of the enumeration: vertex 1, vertex 2,
    vertex 3, edge 1-2, edge 2-3, edge 3-1, each with its squared distance. *)
Definition candidates (p1 p2 p3 p : double3) : list (float * double3) :=
  [(dist2 p1 p, p1); (dist2 p2 p, p2); (dist2 p3 p, p3)]
  ++ edge_candidate p1 p2 p ++ edge_candidate p2 p3 p ++ edge_candidate p3 p1 p.

(** The running minimum of the source and the running nearest candidate. *)
Definition tracks (p1 p2 p3 : double3) (s : scan) (best : float * double3) : Prop :=
  min_distance_squared s = fst best /\ fallback_point p1 p2 p3 s = snd best.

Lemma tracks_vertex p1 p2 p3 p a k s best :
  tracks p1 p2 p3 s best ->
  fallback_point p1 p2 p3
    {| min_distance_squared := dist2 a p;
       min_distance_squared_t := min_distance_squared_t s;
       min_case := k |} = a ->
  tracks p1 p2 p3 (scan_vertex a p k s) (nearer best (dist2 a p, a)).
Proof.
  intros [Hd Hp] Ha. unfold scan_vertex, nearer. simpl. rewrite Hd.
  destruct (dist2 a p <? fst best); split; simpl; auto.
Qed.

Lemma tracks_edge p1 p2 p3 p a b k s best :
  tracks p1 p2 p3 s best ->
  (forall d t,
      fallback_point p1 p2 p3
        {| min_distance_squared := d; min_distance_squared_t := t; min_case := k |}
      = edge_point a b t) ->
  tracks p1 p2 p3
    (scan_edge PointEdgeClosestPointFindT PointEdgeClosestPointFindDistanceSquared a b p k s)
    (fold_left nearer (edge_candidate a b p) best).
Proof.
  intros [Hd Hp] Ha. unfold scan_edge, edge_candidate, strictly_between.
  destruct ((0 <? PointEdgeClosestPointFindT a b p)
            && (PointEdgeClosestPointFindT a b p <? 1)); simpl; [|split; auto].
  unfold nearer. simpl. rewrite Hd.
  destruct (_ <? fst best); split; simpl; auto.
Qed.

Lemma fallback_tracks (p1 p2 p3 p : double3) :
  tracks p1 p2 p3
    (fallback_scan PointEdgeClosestPointFindT PointEdgeClosestPointFindDistanceSquared
       p1 p2 p3 p)
    (fold_left nearer (tl (candidates p1 p2 p3 p)) (dist2 p1 p, p1)).
Proof.
  unfold fallback_scan, candidates. cbn [app tl fold_left].
  rewrite !fold_left_app.
  apply tracks_edge; [|reflexivity].
  apply tracks_edge; [|reflexivity].
  apply tracks_edge; [|reflexivity].
  apply tracks_vertex; [|reflexivity].
  apply tracks_vertex; [|reflexivity].
  split; reflexivity.
Qed.

(** C2, as amended: the full projection.  The weights are
    [gamma = ((u x w) . n) / |n|^2], [beta = ((w x v) . n) / |n|^2] and
    [alpha = 1 - gamma - beta].  When all three lie strictly between [-tol]
    and [1 + tol], the closest point is their barycentric combination, of type
    [NODE_OR_EDGE] when some weight lies strictly between [-tol] and [tol]
    and [FACE] otherwise.  When some weight is out of that range, the type is
    [NODE_OR_EDGE] and the closest point is, among the three vertices and the
    feet of the perpendiculars on the three edges whose parameter is strictly
    between 0 and 1, the first one in the enumeration order at minimal squared
    distance. *)
Theorem ClosestPointProjectionSingle_cases (node tri : ContactEntity) (tol : float) :
  (in_range node tri tol = true ->
   ClosestPointProjectionSingle PointEdgeClosestPointFindT
     PointEdgeClosestPointFindDistanceSquared node tri tol
   = (combine3 (alpha node tri) (beta node tri) (gamma node tri)
        (tri_p1 tri) (tri_p2 tri) (tri_p3 tri),
      if some_weight_is_zero node tri tol then NODE_OR_EDGE else FACE))
  /\ (in_range node tri tol = false ->
      exists c,
        ClosestPointProjectionSingle PointEdgeClosestPointFindT
          PointEdgeClosestPointFindDistanceSquared node tri tol
        = (snd c, NODE_OR_EDGE)
        /\ nearest_first
             (candidates (tri_p1 tri) (tri_p2 tri) (tri_p3 tri) (node_p node)) c).
Proof.
  assert (Hdef :
    ClosestPointProjectionSingle PointEdgeClosestPointFindT
      PointEdgeClosestPointFindDistanceSquared node tri tol
    = if in_range node tri tol
      then (combine3 (alpha node tri) (beta node tri) (gamma node tri)
              (tri_p1 tri) (tri_p2 tri) (tri_p3 tri),
            if some_weight_is_zero node tri tol then NODE_OR_EDGE else FACE)
      else (fallback_point (tri_p1 tri) (tri_p2 tri) (tri_p3 tri)
              (fallback_scan PointEdgeClosestPointFindT
                 PointEdgeClosestPointFindDistanceSquared
                 (tri_p1 tri) (tri_p2 tri) (tri_p3 tri) (node_p node)),
            NODE_OR_EDGE)) by reflexivity.
  rewrite Hdef. split; intros Hin; rewrite Hin; [reflexivity|].
  exists (fold_left nearer
            (tl (candidates (tri_p1 tri) (tri_p2 tri) (tri_p3 tri) (node_p node)))
            (dist2 (tri_p1 tri) (node_p node), tri_p1 tri)).
  split.
  - f_equal. apply fallback_tracks.
  - apply nearest_first_scan.
Qed.

End FullProjectionFacts.

(** Modelled from the spec: the two edge helpers of [nimble_utils.h], "the
    parametric foot of the perpendicular [t] on each edge" and the squared
    distance from it to the point. *)
Definition PointEdgeClosestPointFindT (p1 p2 p : double3) : float :=
  dot3 (sub3 p p1) (sub3 p2 p1) / dot3 (sub3 p2 p1) (sub3 p2 p1).

Definition PointEdgeClosestPointFindDistanceSquared (p1 p2 p : double3) (t : float)
  : float :=
  dist2 (edge_point p1 p2 t) p.

(** The theorem at work: the point [(0.25, 0.25, 0)] of the unit triangle is
    its own projection, of type [FACE]; the point [(2, 2, 0)] has the weight
    [alpha = -3] and projects on the candidate found by the search. *)
Lemma ClosestPointProjectionSingle_cases_witness :
  ClosestPointProjectionSingle PointEdgeClosestPointFindT
    PointEdgeClosestPointFindDistanceSquared
    (point_entity 0.25 0.25 0) unit_triangle default_tol
  = (D3 0.25 0.25 0, FACE)
  /\ exists c,
       ClosestPointProjectionSingle PointEdgeClosestPointFindT
         PointEdgeClosestPointFindDistanceSquared
         (point_entity 2 2 0) unit_triangle default_tol
       = (snd c, NODE_OR_EDGE)
       /\ nearest_first
            (candidates PointEdgeClosestPointFindT
               PointEdgeClosestPointFindDistanceSquared
               (D3 0 0 0) (D3 1 0 0) (D3 0 1 0) (D3 2 2 0)) c.
Proof.
  split.
  - exact (proj1 (ClosestPointProjectionSingle_cases PointEdgeClosestPointFindT
                    PointEdgeClosestPointFindDistanceSquared
                    (point_entity 0.25 0.25 0) unit_triangle default_tol) eq_refl).
  - exact (proj2 (ClosestPointProjectionSingle_cases PointEdgeClosestPointFindT
                    PointEdgeClosestPointFindDistanceSquared
                    (point_entity 2 2 0) unit_triangle default_tol) eq_refl).
Defined.

(** C2, as stated, fails on the boundaries of its intervals, with
    [tol = 1e-16] and the unit triangle.  At the node [(0.25, tol, 0)] the
    weights are in [[-tol, 1 + tol]] and [gamma] is exactly [tol], so not
    strictly inside [(tol, 1 - tol)]: the type is [FACE] all the same.  At the
    node [(0.25, -tol, 0)] the weights are in [[-tol, 1 + tol]], [gamma]
    being exactly [-tol]: the closest point is not the barycentric combination
    [(0.25, -tol, 0)] but the foot [(0.25, 0, 0)] on the edge 1-2. *)
Lemma ClosestPointProjectionSingle_boundary_counterexample :
  let on_tol := point_entity 0.25 default_tol 0 in
  let on_minus_tol := point_entity 0.25 (- default_tol) 0 in
  (in_range_closed on_tol unit_triangle default_tol = true
   /\ gamma on_tol unit_triangle = default_tol
   /\ strictly_interior on_tol unit_triangle default_tol = false
   /\ snd (ClosestPointProjectionSingle PointEdgeClosestPointFindT
             PointEdgeClosestPointFindDistanceSquared
             on_tol unit_triangle default_tol) = FACE)
  /\ (in_range_closed on_minus_tol unit_triangle default_tol = true
      /\ combine3 (alpha on_minus_tol unit_triangle) (beta on_minus_tol unit_triangle)
           (gamma on_minus_tol unit_triangle)
           (D3 0 0 0) (D3 1 0 0) (D3 0 1 0) = D3 0.25 (- default_tol) 0
      /\ ClosestPointProjectionSingle PointEdgeClosestPointFindT
           PointEdgeClosestPointFindDistanceSquared
           on_minus_tol unit_triangle default_tol = (D3 0.25 0 0, NODE_OR_EDGE)).
Proof. vm_compute. repeat split. Qed.

End KernelFacts.

(** ** Displacements and forces *)

Module ManagerFacts.
Import Submodel Manager.
Local Open Scope float_scope.

(** Three consecutive assignments [l[a] = x; l[a+1] = y; l[a+2] = z]. *)
Lemma lookup_insert3 {A : Type} (l : list A) (a : nat) (x y z : A) :
  (a + 2 < length l)%nat ->
  let r := <[(a + 2)%nat := z]> (<[(a + 1)%nat := y]> (<[a := x]> l)) in
  length r = length l
  /\ r !! a = Some x /\ r !! (a + 1)%nat = Some y /\ r !! (a + 2)%nat = Some z
  /\ (forall j, j <> a -> j <> (a + 1)%nat -> j <> (a + 2)%nat -> r !! j = l !! j).
Proof.
  intros Hlen r. subst r. repeat split.
  - rewrite !length_insert. reflexivity.
  - rewrite !list_lookup_insert_ne by lia.
    apply list_lookup_insert_eq. lia.
  - rewrite list_lookup_insert_ne by lia.
    apply list_lookup_insert_eq. rewrite length_insert. lia.
  - apply list_lookup_insert_eq. rewrite !length_insert. lia.
  - intros j H0 H1 H2. rewrite !list_lookup_insert_ne by lia. reflexivity.
Qed.

Section DisplacementFacts.

Variable SetCoordinates : list float -> ContactEntity -> ContactEntity.

(** The value [ApplyDisplacements] stores at [coord_[3 * i_node + c]]. *)
Definition displaced (cm : ContactManager) (displacement : list float) (i_node c : nat)
  : float :=
  nth (3 * i_node + c) (model_coord_ cm) 0
  + rd displacement (3 * nth i_node (node_ids_ cm) 0%Z + Z.of_nat c).

Lemma displace_node_spec (cm : ContactManager) (displacement coord : list float) (n : nat) :
  (3 * n + 2 < length coord)%nat ->
  let r := displace_node (node_ids_ cm) (model_coord_ cm) displacement coord n in
  length r = length coord
  /\ (forall c, (c < 3)%nat -> r !! (3 * n + c)%nat = Some (displaced cm displacement n c))
  /\ (forall j, (j < 3 * n \/ 3 * n + 3 <= j)%nat -> r !! j = coord !! j).
Proof.
  intros Hlen r. subst r. unfold displace_node. cbn [fold_left].
  rewrite Nat.add_0_r in *.
  destruct (lookup_insert3 coord (3 * n)
              (displaced cm displacement n 0) (displaced cm displacement n 1)
              (displaced cm displacement n 2) Hlen) as (HL & H0 & H1 & H2 & Hne).
  unfold displaced in *. rewrite Nat.add_0_r in *.
  split; [exact HL|]. split.
  - intros c Hc. destruct c as [|[|[|c]]]; try lia.
    + rewrite Nat.add_0_r. exact H0.
    + exact H1.
    + exact H2.
  - intros j Hj. apply Hne; lia.
Qed.

Lemma displace_fold_spec (cm : ContactManager) (displacement : list float) (n : nat) :
  forall coord : list float,
  (3 * n <= length coord)%nat ->
  let r := fold_left (displace_node (node_ids_ cm) (model_coord_ cm) displacement)
             (seq 0 n) coord in
  length r = length coord
  /\ (forall i c, (i < n)%nat -> (c < 3)%nat ->
        r !! (3 * i + c)%nat = Some (displaced cm displacement i c))
  /\ (forall j, (3 * n <= j)%nat -> r !! j = coord !! j).
Proof.
  induction n as [|n IH]; intros coord Hlen; cbn zeta.
  - simpl. split; [reflexivity|]. split; [intros; lia|reflexivity].
  - rewrite seq_S, fold_left_app. cbn [fold_left Nat.add].
    destruct (IH coord ltac:(lia)) as (HL & Hset & Hrest).
    set (mid := fold_left _ (seq 0 n) coord) in *.
    destruct (displace_node_spec cm displacement mid n ltac:(lia)) as (HL' & Hset' & Hrest').
    split; [congruence|]. split.
    + intros i c Hi Hc. destruct (decide (i = n)) as [->|Hne].
      * apply Hset'. exact Hc.
      * rewrite Hrest' by lia. apply Hset; lia.
    + intros j Hj. rewrite Hrest' by lia. apply Hrest. lia.
Qed.

(** C9: after [ApplyDisplacements(displacement)], for every local index [i]
    of the submodel and every component [c] in 0, 1, 2, [coord_[3 i + c]] is
    [model_coord_[3 i + c]] plus [displacement[3 node_ids_[i] + c]], and every
    contact face and every contact node has had [SetCoordinates] called on it
    with the new [coord_] array; nothing else of the manager changes. *)
Theorem ApplyDisplacements_coord (cm : ContactManager) (displacement : list float) :
  (3 * length (node_ids_ cm) <= length (coord_ cm))%nat ->
  let cm' := ApplyDisplacements SetCoordinates cm displacement in
  (forall i c, (i < length (node_ids_ cm))%nat -> (c < 3)%nat ->
     coord_ cm' !! (3 * i + c)%nat
     = Some (nth (3 * i + c) (model_coord_ cm) 0
             + rd displacement (3 * nth i (node_ids_ cm) 0%Z + Z.of_nat c)))
  /\ contact_faces_ cm' = map (SetCoordinates (coord_ cm')) (contact_faces_ cm)
  /\ contact_nodes_ cm' = map (SetCoordinates (coord_ cm')) (contact_nodes_ cm)
  /\ length (coord_ cm') = length (coord_ cm)
  /\ node_ids_ cm' = node_ids_ cm
  /\ model_coord_ cm' = model_coord_ cm
  /\ force_ cm' = force_ cm.
Proof.
  intros Hlen cm'. subst cm'. unfold ApplyDisplacements. cbn [coord_ contact_faces_
    contact_nodes_ node_ids_ model_coord_ force_].
  destruct (displace_fold_spec cm displacement (length (node_ids_ cm)) (coord_ cm) Hlen)
    as (HL & Hset & _).
  split; [exact Hset|]. repeat split. exact HL.
Qed.

End DisplacementFacts.

(** Modelled from the spec: [ContactEntity::SetCoordinates]
    ([nimble_contact_entity.h] is not among the sources).  A node takes the
    coordinates of its mesh node; a triangle takes those of its two real nodes
    and, for the third vertex, the mean of the four nodes behind the
    barycentre. *)
Definition SetCoordinates_model (coord : list float) (e : ContactEntity) : ContactEntity :=
  let v1 := node_coord coord (node_id_for_node_1_ e) in
  let v2 := node_coord coord (node_id_for_node_2_ e) in
  let mean j :=
    fold_left (fun s node_id => s + rd coord (3 * node_id + j))
      (node_ids_for_fictitious_node_ e) 0 / 4 in
  match entity_type_ e with
  | TRIANGLE =>
      triangle_entity (contact_entity_global_id_ e) (local_id_ e)
        v1 v2 (D3 (mean 0%Z) (mean 1%Z) (mean 2%Z)) (char_len_ e)
        (node_id_for_node_1_ e) (node_id_for_node_2_ e)
        (node_ids_for_fictitious_node_ e)
  | _ =>
      node_entity (contact_entity_global_id_ e) (local_id_ e) v1 (char_len_ e)
        (node_id_for_node_1_ e)
  end.

(** A submodel of the two mesh nodes 2 and 5, the second one a contact node. *)
Definition two_node_manager : ContactManager :=
  {| node_ids_ := [2; 5]%Z;
     model_coord_ := [0; 0; 0; 1; 1; 1];
     coord_ := [0; 0; 0; 1; 1; 1];
     force_ := [10; 11; 12; 13; 14; 15];
     contact_nodes_ := [node_entity 6 0 (D3 1 1 1) 1 1];
     contact_faces_ := [] |}.

(** A nodal field over the six mesh nodes 0 to 5: entry [k] holds [k / 2]. *)
Definition mesh_field : list float :=
  [0; 0.5; 1; 1.5; 2; 2.5; 3; 3.5; 4; 4.5; 5; 5.5; 6; 6.5; 7; 7.5; 8; 8.5].

(** The theorem at work: the [y] coordinate of the submodel node 1, mesh
    node 5, moves from [1] by [displacement[16] = 8]. *)
Lemma ApplyDisplacements_coord_witness :
  coord_ (ApplyDisplacements SetCoordinates_model two_node_manager mesh_field) !! 4%nat
  = Some 9.
Proof.
  exact (proj1 (ApplyDisplacements_coord SetCoordinates_model two_node_manager mesh_field
                  (le_n 6)) 1%nat 1%nat (le_n 2) (le_S 2 2 (le_n 2))).
Defined.

(** The place [GetForces] writes the component [c] of the submodel node
    [i_node] to. *)
Definition force_target (cm : ContactManager) (i_node c : nat) : nat :=
  Z.to_nat (3 * nth i_node (node_ids_ cm) 0%Z + Z.of_nat c).

Lemma gather_node_spec (cm : ContactManager) (contact_force : list float) (n : nat) :
  (0 <= nth n (node_ids_ cm) 0)%Z ->
  (force_target cm n 2 < length contact_force)%nat ->
  let r := gather_node (node_ids_ cm) (force_ cm) contact_force n in
  length r = length contact_force
  /\ (forall c, (c < 3)%nat ->
        r !! force_target cm n c = Some (nth (3 * n + c) (force_ cm) 0))
  /\ (forall j, (forall c, (c < 3)%nat -> j <> force_target cm n c) ->
        r !! j = contact_force !! j).
Proof.
  intros Hpos Hlen r. subst r. unfold gather_node, force_target in *.
  cbn [fold_left].
  set (id := nth n (node_ids_ cm) 0%Z) in *.
  replace (Z.to_nat (3 * id + Z.of_nat 0)) with (Z.to_nat (3 * id)) by lia.
  replace (Z.to_nat (3 * id + Z.of_nat 1)) with (Z.to_nat (3 * id) + 1)%nat by lia.
  replace (Z.to_nat (3 * id + Z.of_nat 2)) with (Z.to_nat (3 * id) + 2)%nat in * by lia.
  destruct (lookup_insert3 contact_force (Z.to_nat (3 * id))
              (nth (3 * n + 0) (force_ cm) 0) (nth (3 * n + 1) (force_ cm) 0)
              (nth (3 * n + 2) (force_ cm) 0) Hlen) as (HL & H0 & H1 & H2 & Hne).
  split; [exact HL|]. split.
  - intros c Hc. destruct c as [|[|[|c]]]; try lia.
    + replace (Z.to_nat (3 * id + Z.of_nat 0)) with (Z.to_nat (3 * id)) by lia. exact H0.
    + replace (Z.to_nat (3 * id + Z.of_nat 1)) with (Z.to_nat (3 * id) + 1)%nat by lia.
      exact H1.
    + replace (Z.to_nat (3 * id + Z.of_nat 2)) with (Z.to_nat (3 * id) + 2)%nat by lia.
      exact H2.
  - intros j Hj. apply Hne.
    + specialize (Hj 0%nat ltac:(lia)). lia.
    + specialize (Hj 1%nat ltac:(lia)). lia.
    + specialize (Hj 2%nat ltac:(lia)). lia.
Qed.

Lemma force_target_inj (cm : ContactManager) (i i' c c' : nat) :
  NoDup (node_ids_ cm) ->
  Forall (fun id => 0 <= id)%Z (node_ids_ cm) ->
  (i < length (node_ids_ cm))%nat -> (i' < length (node_ids_ cm))%nat ->
  (c < 3)%nat -> (c' < 3)%nat -> i <> i' ->
  force_target cm i c <> force_target cm i' c'.
Proof.
  intros Hnd Hpos Hi Hi' Hc Hc' Hne. unfold force_target.
  destruct (lookup_lt_is_Some_2 _ _ Hi) as [a Ha].
  destruct (lookup_lt_is_Some_2 _ _ Hi') as [b Hb].
  rewrite !nth_lookup, Ha, Hb. simpl.
  assert (a <> b).
  { intros ->. apply Hne. eapply NoDup_lookup; eauto. }
  rewrite Forall_forall in Hpos.
  pose proof (Hpos a (list_elem_of_lookup_2 _ _ _ Ha)).
  pose proof (Hpos b (list_elem_of_lookup_2 _ _ _ Hb)).
  lia.
Qed.

Lemma gather_fold_spec (cm : ContactManager) (contact_force : list float) :
  NoDup (node_ids_ cm) ->
  Forall (fun id => 0 <= id /\ 3 * id + 2 < Z.of_nat (length contact_force))%Z
    (node_ids_ cm) ->
  forall n, (n <= length (node_ids_ cm))%nat ->
  let r := fold_left (gather_node (node_ids_ cm) (force_ cm)) (seq 0 n) contact_force in
  length r = length contact_force
  /\ (forall i c, (i < n)%nat -> (c < 3)%nat ->
        r !! force_target cm i c = Some (nth (3 * i + c) (force_ cm) 0))
  /\ (forall j, (forall i c, (i < n)%nat -> (c < 3)%nat -> j <> force_target cm i c) ->
        r !! j = contact_force !! j).
Proof.
  intros Hnd Hin n. induction n as [|n IH]; intros Hn; cbn zeta.
  - simpl. split; [reflexivity|]. split; [intros; lia|reflexivity].
  - rewrite seq_S, fold_left_app. cbn [fold_left Nat.add].
    destruct (IH ltac:(lia)) as (HL & Hset & Hrest). clear IH.
    set (mid := fold_left _ (seq 0 n) contact_force) in *.
    assert (Hpos : Forall (fun id => 0 <= id)%Z (node_ids_ cm)).
    { eapply Forall_impl; [exact Hin|]. simpl. intros; lia. }
    destruct (lookup_lt_is_Some_2 (node_ids_ cm) n ltac:(lia)) as [id Hid].
    rewrite Forall_forall in Hin.
    pose proof (Hin id (list_elem_of_lookup_2 _ _ _ Hid)) as [Hid0 Hid2].
    assert (Hnth : nth n (node_ids_ cm) 0%Z = id) by (rewrite nth_lookup, Hid; reflexivity).
    destruct (gather_node_spec cm mid n) as (HL' & Hset' & Hrest').
    { rewrite Hnth. exact Hid0. }
    { unfold force_target. rewrite Hnth, HL. lia. }
    split; [congruence|]. split.
    + intros i c Hi Hc. destruct (decide (i = n)) as [->|Hne].
      * apply Hset'. exact Hc.
      * rewrite Hrest'; [apply Hset; lia|].
        intros c' Hc'. apply force_target_inj; auto; lia.
    + intros j Hj. rewrite Hrest'; [apply Hrest|].
      * intros i c Hi Hc. apply Hj; lia.
      * intros c Hc. apply Hj; lia.
Qed.

(** C10: [GetForces(contact_force)] stores, for every submodel node with local
    index [i] and every component [c], the entry [force_[3 i + c]] at
    [contact_force[3 node_ids_[i] + c]], whatever was there before, and leaves
    every other entry of [contact_force] as it was.  (The mesh nodes of the
    submodel are distinct, and [contact_force] covers them.) *)
Theorem GetForces_scatter (cm : ContactManager) (contact_force : list float) :
  NoDup (node_ids_ cm) ->
  Forall (fun id => 0 <= id /\ 3 * id + 2 < Z.of_nat (length contact_force))%Z
    (node_ids_ cm) ->
  let r := GetForces cm contact_force in
  length r = length contact_force
  /\ (forall i c, (i < length (node_ids_ cm))%nat -> (c < 3)%nat ->
        r !! Z.to_nat (3 * nth i (node_ids_ cm) 0%Z + Z.of_nat c)
        = Some (nth (3 * i + c) (force_ cm) 0))
  /\ (forall j,
        (forall i c, (i < length (node_ids_ cm))%nat -> (c < 3)%nat ->
           j <> Z.to_nat (3 * nth i (node_ids_ cm) 0%Z + Z.of_nat c)) ->
        r !! j = contact_force !! j).
Proof.
  intros Hnd Hin. exact (gather_fold_spec cm contact_force Hnd Hin _ (le_n _)).
Qed.

(** The theorem at work: the [z] force of the submodel node 1 lands at entry
    17, mesh node 5, over the [8.5] that was there, and entry 3, mesh node 1,
    keeps its [1.5]. *)
Lemma GetForces_scatter_witness :
  GetForces two_node_manager mesh_field !! 17%nat = Some 15
  /\ GetForces two_node_manager mesh_field !! 3%nat = Some 1.5.
Proof.
  assert (Hnd : NoDup (node_ids_ two_node_manager)).
  { simpl. repeat constructor; rewrite ?elem_of_cons, ?elem_of_nil; intros H;
      repeat destruct H as [H|H]; try discriminate; try contradiction. }
  assert (Hin : Forall (fun id => 0 <= id /\ 3 * id + 2 < Z.of_nat (length mesh_field))%Z
                  (node_ids_ two_node_manager)).
  { simpl. repeat constructor; lia. }
  destruct (GetForces_scatter two_node_manager mesh_field Hnd Hin) as (_ & Hset & Hrest).
  split.
  - exact (Hset 1%nat 2%nat (le_n 2) (le_n 3)).
  - apply (Hrest 3%nat). intros i c Hi Hc. simpl in Hi.
    destruct i as [|[|i]]; [| |lia]; destruct c as [|[|[|c]]]; simpl; lia.
Defined.

End ManagerFacts.

(** ** Triangulation of the primary faces *)

Module TriangulationFacts.
Import Submodel.
Local Open Scope float_scope.


Lemma running_max_cons (m0 e : float) (es : list float) :
  running_max m0 (e :: es) = running_max (if m0 <? e then e else m0) es.
Proof. reflexivity. Qed.

Lemma running_max_spec (es : list float) :
  forall m0 : float,
  (running_max m0 es = m0
   \/ (running_max m0 es ∈ es /\ (m0 <? running_max m0 es) = true))
  /\ forall e, e ∈ es -> (running_max m0 es <? e) = false.
Proof.
  induction es as [|e es IH]; intros m0.
  - split; [left; reflexivity|]. intros e He. inversion He.
  - rewrite running_max_cons. destruct (m0 <? e) eqn:Hlt.
    + destruct (IH e) as [Hr Hmax]. set (r := running_max e es) in *.
      assert (Hre : (r <? e) = false).
      { destruct Hr as [->|[_ Hgt]]; [apply Flt.ltb_irrefl|].
        destruct (r <? e) eqn:E; [|reflexivity].
        pose proof (Flt.ltb_trans _ _ _ Hgt E) as Hcyc.
        rewrite Flt.ltb_irrefl in Hcyc. discriminate. }
      split.
      * right. destruct Hr as [Hr|[Hr Hgt]].
        -- rewrite Hr. split; [left|exact Hlt].
        -- split; [right; exact Hr|]. eapply Flt.ltb_trans; eauto.
      * intros e' He'. apply elem_of_cons in He' as [->|He']; auto.
    + destruct (IH m0) as [Hr Hmax]. set (r := running_max m0 es) in *.
      assert (Hre : (r <? e) = false).
      { destruct Hr as [->|[_ Hgt]]; [exact Hlt|].
        destruct (r <? e) eqn:E; [|reflexivity].
        rewrite (Flt.ltb_trans _ _ _ Hgt E) in Hlt. discriminate. }
      split.
      * destruct Hr as [Hr|[Hr Hgt]]; [left; exact Hr|].
        right. split; [right; exact Hr|exact Hgt].
      * intros e' He'. apply elem_of_cons in He' as [->|He']; auto.
Qed.


(** The Euclidean length of the edge between two submodel nodes. *)
Definition edge_length (coord_ : list float) (a b : Z) : float :=
  sqrt (edge_length_square coord_ a b).

(** The lengths of the four edges of a quadrilateral, the last one closing on
    the first node. *)
Definition quad_edge_lengths (coord_ : list float) (n0 n1 n2 n3 : Z) : list float :=
  [ edge_length coord_ n0 n1; edge_length coord_ n1 n2;
    edge_length coord_ n2 n3; edge_length coord_ n3 n0 ].

(** The arithmetic mean of the coordinates of four nodes, summed from [0.0]. *)
Definition mean_of_four (coord_ : list float) (n0 n1 n2 n3 : Z) : double3 :=
  let mean j :=
    (0 + rd coord_ (3 * n0 + j) + rd coord_ (3 * n1 + j)
       + rd coord_ (3 * n2 + j) + rd coord_ (3 * n3 + j)) / 4 in
  D3 (mean 0%Z) (mean 1%Z) (mean 2%Z).


Lemma max_edge_length_quad (coord_ : list float) (n0 n1 n2 n3 : Z) :
  max_edge_length coord_ [n0; n1; n2; n3]
  = running_max lowest (quad_edge_lengths coord_ n0 n1 n2 n3).
Proof. reflexivity. Qed.

Lemma fictitious_node_quad (coord_ : list float) (n0 n1 n2 n3 : Z) :
  fictitious_node coord_ [n0; n1; n2; n3] = mean_of_four coord_ n0 n1 n2 n3.
Proof. reflexivity. Qed.

(** The four triangles of the face number [i_face], stored from [index] on. *)
Definition four_triangles (coord_ : list float) (face : list Z) (id index : Z)
  : list ContactEntity :=
  [ face_triangle coord_ face id index 0 1 0;
    face_triangle coord_ face id (index + 1)%Z 1 2 1;
    face_triangle coord_ face id (index + 2)%Z 2 3 2;
    face_triangle coord_ face id (index + 3)%Z 3 0 3 ].

Lemma create_faces_quads (coord_ : list float) (ids : list Z) (faces : list (list Z)) :
  forall (i_face : nat) (index : Z),
  Forall (fun face => length face = 4%nat) faces ->
  create_faces coord_ faces ids i_face index
  = Some (concat (imap (fun i face =>
                          four_triangles coord_ face (nth (i_face + i) ids 0%Z)
                            (index + 4 * Z.of_nat i)%Z) faces)).
Proof.
  induction faces as [|face faces IH]; intros i_face index Hall; [reflexivity|].
  apply Forall_cons in Hall as [Hlen Hall].
  cbn [create_faces]. rewrite Hlen. cbn [Nat.eqb negb].
  rewrite (IH (S i_face) (index + 4)%Z Hall).
  cbn [imap concat four_triangles app].
  rewrite Nat.add_0_r. replace (index + 4 * Z.of_nat 0)%Z with index by lia.
  do 6 f_equal. apply imap_ext. intros i f _. cbn.
  replace (i_face + S i)%nat with (S (i_face + i)) by lia.
  replace (index + 4 * Z.of_nat (S i))%Z with (index + 4 + 4 * Z.of_nat i)%Z by lia.
  reflexivity.
Qed.


Lemma lookup_concat_four {A : Type} (ls : list (list A)) (i k : nat) (l : list A) :
  Forall (fun l => length l = 4%nat) ls ->
  ls !! i = Some l -> (k < 4)%nat ->
  concat ls !! (4 * i + k)%nat = l !! k.
Proof.
  revert i. induction ls as [|l0 ls IH]; intros i Hall Hi Hk; [discriminate|].
  apply Forall_cons in Hall as [Hl0 Hall]. cbn [concat]. destruct i as [|i].
  - injection Hi as ->. rewrite lookup_app_l by lia. reflexivity.
  - change (ls !! i = Some l) in Hi. rewrite lookup_app_r by lia.
    replace (4 * S i + k - length l0)%nat with (4 * i + k)%nat by lia.
    apply IH; auto.
Qed.

Lemma length_concat_four {A : Type} (ls : list (list A)) :
  Forall (fun l => length l = 4%nat) ls -> length (concat ls) = (4 * length ls)%nat.
Proof.
  induction 1 as [|l ls Hl Hls IH]; [reflexivity|].
  cbn [concat length]. rewrite length_app, IH, Hl. lia.
Qed.




End TriangulationFacts.

(** ** [std::map] as a first-match association list *)

Module StdMapFacts.
Section Facts.
Context {K V : Type} (cmp : K -> K -> comparison).
Hypothesis cmp_eq : forall a b, cmp a b = Eq <-> a = b.

Lemma cmp_refl (a : K) : cmp a a = Eq.
Proof. apply cmp_eq. reflexivity. Qed.

Lemma find_insert (k : K) (v : V) (m : list (K * V)) :
  StdMap.find cmp k (StdMap.insert cmp k v m) = Some v.
Proof.
  induction m as [|[k' v'] m IH]; simpl.
  - rewrite cmp_refl. reflexivity.
  - destruct (cmp k k') eqn:E; simpl; rewrite ?cmp_refl, ?E; auto.
Qed.

Lemma find_insert_ne (k k' : K) (v : V) (m : list (K * V)) :
  k' <> k -> StdMap.find cmp k' (StdMap.insert cmp k v m) = StdMap.find cmp k' m.
Proof.
  intros Hne.
  assert (Hk : cmp k' k <> Eq) by (rewrite cmp_eq; exact Hne).
  induction m as [|[k0 v0] m IH]; simpl.
  - destruct (cmp k' k); congruence.
  - destruct (cmp k k0) eqn:E; simpl.
    + apply cmp_eq in E. subst k0. destruct (cmp k' k); congruence.
    + destruct (cmp k' k); congruence.
    + rewrite IH. reflexivity.
Qed.

Lemma find_alter (f : V -> V) (k : K) (m : list (K * V)) :
  StdMap.find cmp k (StdMap.alter cmp f k m) = f <$> StdMap.find cmp k m.
Proof.
  induction m as [|[k' v'] m IH]; simpl; [reflexivity|].
  destruct (cmp k k') eqn:E; simpl; rewrite ?E; auto.
Qed.

Lemma find_alter_ne (f : V -> V) (k k' : K) (m : list (K * V)) :
  k' <> k -> StdMap.find cmp k' (StdMap.alter cmp f k m) = StdMap.find cmp k' m.
Proof.
  intros Hne. induction m as [|[k0 v0] m IH]; simpl; [reflexivity|].
  destruct (cmp k k0) eqn:E; simpl.
  - apply cmp_eq in E. subst k0.
    destruct (cmp k' k) eqn:E'; try reflexivity.
    apply cmp_eq in E'. contradiction.
  - rewrite IH. reflexivity.
  - rewrite IH. reflexivity.
Qed.

Lemma keys_alter (f : V -> V) (k : K) (m : list (K * V)) :
  (StdMap.alter cmp f k m).*1 = m.*1.
Proof.
  induction m as [|[k' v'] m IH]; [reflexivity|].
  cbn [StdMap.alter]. destruct (cmp k k'); rewrite !fmap_cons; cbn [fst];
    rewrite ?IH; reflexivity.
Qed.

Lemma find_None_not_key (k : K) (m : list (K * V)) :
  StdMap.find cmp k m = None -> k ∉ m.*1.
Proof.
  induction m as [|[k' v'] m IH]; simpl; intros Hf Hin.
  - inversion Hin.
  - destruct (cmp k k') eqn:E; [discriminate| |];
      apply elem_of_cons in Hin as [->|Hin];
      try (rewrite cmp_refl in E; discriminate); exact (IH Hf Hin).
Qed.

Lemma insert_fresh_perm (k : K) (v : V) (m : list (K * V)) :
  StdMap.find cmp k m = None -> StdMap.insert cmp k v m ≡ₚ (k, v) :: m.
Proof.
  induction m as [|[k' v'] m IH]; simpl; intros Hf; [reflexivity|].
  destruct (cmp k k') eqn:E; [discriminate|reflexivity|].
  rewrite (IH Hf). apply Permutation_swap.
Qed.

Lemma find_Some_elem (k : K) (v : V) (m : list (K * V)) :
  StdMap.find cmp k m = Some v -> (k, v) ∈ m.
Proof.
  induction m as [|[k' v'] m IH]; simpl; [discriminate|].
  destruct (cmp k k') eqn:E; intros Hf.
  - apply cmp_eq in E. subst k'. injection Hf as ->. left.
  - right. auto.
  - right. auto.
Qed.

Lemma elem_find (k : K) (v : V) (m : list (K * V)) :
  NoDup m.*1 -> (k, v) ∈ m -> StdMap.find cmp k m = Some v.
Proof.
  induction m as [|[k' v'] m IH]; simpl; intros Hnd Hin; [inversion Hin|].
  apply NoDup_cons in Hnd as [Hk' Hnd].
  apply elem_of_cons in Hin as [Heq|Hin].
  - injection Heq as -> ->. rewrite cmp_refl. reflexivity.
  - destruct (cmp k k') eqn:E; auto.
    apply cmp_eq in E. subst k'. exfalso. apply Hk'.
    apply list_elem_of_fmap. exists (k, v). split; [reflexivity|exact Hin].
Qed.

End Facts.
End StdMapFacts.

Lemma lex_compare_eq (a b : list Z) : lex_compare a b = Eq <-> a = b.
Proof.
  revert b. induction a as [|x a IH]; intros [|y b]; simpl; try (split; congruence).
  destruct (Z.compare_spec x y) as [->|H|H].
  - rewrite IH. split; congruence.
  - split; [discriminate|]. intros E. injection E as ->. lia.
  - split; [discriminate|]. intros E. injection E as ->. lia.
Qed.

Lemma Z_compare_eq (a b : Z) : (a ?= b)%Z = Eq <-> a = b.
Proof. apply Z.compare_eq_iff. Qed.

(** ** Mesh skinning *)

Module SkinFacts.
Import Skin.
Local Open Scope Z_scope.

(** Every face of every element of a block, in the order [SkinBlocks] visits
    them: element by element, face 0 to face 5. *)
Definition block_faces (mesh : GenesisMesh) (block_id : Z) : list hex_face :=
  flat_map
    (fun i_elem =>
       element_faces (GetConnectivity mesh block_id)
         (i_elem * GetNumNodesPerElement mesh block_id)
         (Int32.add (nth i_elem (GetElementGlobalIdsInBlock mesh block_id) 0) 1))
    (seq 0 (GetNumElementsInBlock mesh block_id)).

(** Every face of every element of the requested blocks. *)
Definition all_faces (mesh : GenesisMesh) (block_ids : list Z) : list hex_face :=
  flat_map (block_faces mesh) block_ids.

(** How many of the faces have the sort-invariant key [key]. *)
Definition occurrences (key : list Z) (faces : list hex_face) : nat :=
  length (filter (fun f => face_key f = key) faces).

(** What a skin face leaves [SkinBlocks] as: its unsorted node list and its
    entity id. *)
Definition skin_output (entity_id_offset : Z) (f : hex_face) : list Z * Z :=
  (hf_nodes f, skin_entity_id (face_value f) entity_id_offset).

(** The faces whose key occurs exactly once. *)
Definition boundary_faces (faces : list hex_face) : list hex_face :=
  filter (fun f => occurrences (face_key f) faces = 1%nat) faces.

Lemma visit_elements_fold (conn ids : list Z) (npe : nat) (n : nat) :
  forall (a : nat) (m : StdMap.t (K:=list Z) (V:=list Z)),
  fold_left (visit_element conn ids npe) (seq a n) (m, (a * npe)%nat)
  = (fold_left visit_face
       (flat_map (fun i => element_faces conn (i * npe) (Int32.add (nth i ids 0) 1))
                 (seq a n)) m,
     ((a + n) * npe)%nat).
Proof.
  induction n as [|n IH]; intros a m.
  - simpl. rewrite Nat.add_0_r. reflexivity.
  - cbn [seq fold_left flat_map]. unfold visit_element at 2. cbn [fst snd].
    replace (a * npe + npe)%nat with (S a * npe)%nat by lia.
    rewrite IH, fold_left_app. f_equal. lia.
Qed.

Lemma visit_block_fold (mesh : GenesisMesh) (m : StdMap.t (K:=list Z) (V:=list Z))
    (block_id : Z) :
  visit_block mesh m block_id = fold_left visit_face (block_faces mesh block_id) m.
Proof.
  unfold visit_block, block_faces.
  change 0%nat with (0 * GetNumNodesPerElement mesh block_id)%nat at 2.
  rewrite visit_elements_fold. reflexivity.
Qed.

Lemma visit_blocks_fold (mesh : GenesisMesh) (block_ids : list Z) :
  forall m : StdMap.t (K:=list Z) (V:=list Z),
  fold_left (visit_block mesh) block_ids m
  = fold_left visit_face (all_faces mesh block_ids) m.
Proof.
  unfold all_faces. induction block_ids as [|b bs IH]; intros m; [reflexivity|].
  cbn [fold_left flat_map]. rewrite fold_left_app, IH, visit_block_fold. reflexivity.
Qed.

(** What the map holds for a key after the faces [faces] have been visited:
    the number of visits, and the value of the first one. *)
Definition summary (key : list Z) (faces : list hex_face) : option (list Z) :=
  match filter (fun f => face_key f = key) faces with
  | [] => None
  | f :: rest =>
      Some (Z.of_nat (S (length rest)) :: hf_nodes f ++ [hf_elem f; hf_ordinal f])
  end.

Definition represents (m : StdMap.t (K:=list Z) (V:=list Z)) (faces : list hex_face)
  : Prop :=
  NoDup m.*1 /\ forall key, StdMap.find lex_compare key m = summary key faces.

Lemma represents_nil : represents [] [].
Proof. split; [constructor|reflexivity]. Qed.

Lemma summary_snoc_ne (key : list Z) (faces : list hex_face) (f : hex_face) :
  face_key f <> key -> summary key (faces ++ [f]) = summary key faces.
Proof.
  intros Hne. unfold summary. rewrite filter_app.
  rewrite (filter_cons_False _ f []) by exact Hne.
  rewrite filter_nil, app_nil_r. reflexivity.
Qed.

Lemma summary_snoc_eq (faces : list hex_face) (f : hex_face) :
  summary (face_key f) (faces ++ [f])
  = match summary (face_key f) faces with
    | None => Some (face_value f)
    | Some v => Some (<[0%nat := nth 0 v 0 + 1]> v)
    end.
Proof.
  unfold summary. rewrite filter_app.
  rewrite (filter_cons_True _ f []) by reflexivity. rewrite filter_nil.
  destruct (filter _ faces) as [|f0 rest]; [reflexivity|].
  cbn [app nth]. rewrite length_app. cbn [length insert list_insert].
  do 2 f_equal. lia.
Qed.

Lemma visit_face_represents (m : StdMap.t (K:=list Z) (V:=list Z))
    (faces : list hex_face) (f : hex_face) :
  represents m faces -> represents (visit_face m f) (faces ++ [f]).
Proof.
  intros [Hnd Hfind]. unfold visit_face.
  destruct (StdMap.find lex_compare (face_key f) m) as [v|] eqn:Hf; split.
  - rewrite StdMapFacts.keys_alter. exact Hnd.
  - intros key. destruct (decide (key = face_key f)) as [->|Hne].
    + rewrite StdMapFacts.find_alter, Hf, summary_snoc_eq, <- Hfind, Hf. reflexivity.
    + rewrite (StdMapFacts.find_alter_ne _ lex_compare_eq) by exact Hne.
      rewrite summary_snoc_ne by congruence. apply Hfind.
  - rewrite (StdMapFacts.insert_fresh_perm _ _ _ _ Hf).
    rewrite fmap_cons. apply NoDup_cons. split; [|exact Hnd].
    apply (StdMapFacts.find_None_not_key _ lex_compare_eq _ _ Hf).
  - intros key. destruct (decide (key = face_key f)) as [->|Hne].
    + rewrite (StdMapFacts.find_insert _ lex_compare_eq), summary_snoc_eq, <- Hfind, Hf.
      reflexivity.
    + rewrite (StdMapFacts.find_insert_ne _ lex_compare_eq) by exact Hne.
      rewrite summary_snoc_ne by congruence. apply Hfind.
Qed.

Lemma visit_faces_represents (more : list hex_face) :
  forall (m : StdMap.t (K:=list Z) (V:=list Z)) (faces : list hex_face),
  represents m faces -> represents (fold_left visit_face more m) (faces ++ more).
Proof.
  induction more as [|f more IH]; intros m faces Hrep.
  - rewrite app_nil_r. exact Hrep.
  - cbn [fold_left]. replace (faces ++ f :: more) with ((faces ++ [f]) ++ more)
      by (rewrite <- app_assoc; reflexivity).
    apply IH, visit_face_represents, Hrep.
Qed.

(** The count of a map entry, and what the final loop pushes for it. *)
Definition entry_count (e : list Z * list Z) : Z := nth 0 (snd e) 0.

Definition entry_output (entity_id_offset : Z) (e : list Z * list Z) : list Z * Z :=
  (take (length (snd e) - 3) (drop 1 (snd e)), skin_entity_id (snd e) entity_id_offset).

Lemma collect_skin_ok (entity_id_offset : Z) (m : StdMap.t (K:=list Z) (V:=list Z)) :
  forall (skin_faces : list (list Z)) (entity_ids : list Z),
  Forall (fun e => entry_count e = 1 \/ entry_count e = 2) m ->
  collect_skin m entity_id_offset skin_faces entity_ids
  = Some (skin_faces
            ++ (entry_output entity_id_offset <$> filter (fun e => entry_count e = 1) m).*1,
          entity_ids
            ++ (entry_output entity_id_offset <$> filter (fun e => entry_count e = 1) m).*2).
Proof.
  induction m as [|[k v] m IH]; intros sf ei Hall.
  - simpl. rewrite !app_nil_r. reflexivity.
  - apply Forall_cons in Hall as [Hkv Hall]. cbn [collect_skin].
    unfold entry_count in Hkv. cbn [snd] in Hkv.
    destruct (nth 0 v 0 =? 1) eqn:E1.
    + apply Z.eqb_eq in E1. rewrite IH by exact Hall.
      rewrite (filter_cons_True (fun e : list Z * list Z => entry_count e = 1) (k, v) m E1).
      rewrite !fmap_cons. cbn [fst snd entry_output]. rewrite <- !app_assoc. reflexivity.
    + apply Z.eqb_neq in E1. destruct Hkv as [Hkv|Hkv]; [contradiction|].
      rewrite Hkv. cbn [Z.eqb Pos.eqb negb]. rewrite IH by exact Hall.
      rewrite (filter_cons_False (fun e : list Z * list Z => entry_count e = 1) (k, v) m E1).
      reflexivity.
Qed.

Lemma collect_skin_abort (entity_id_offset : Z) (m : StdMap.t (K:=list Z) (V:=list Z)) :
  forall (skin_faces : list (list Z)) (entity_ids : list Z),
  Exists (fun e => entry_count e <> 1 /\ entry_count e <> 2) m ->
  collect_skin m entity_id_offset skin_faces entity_ids = None.
Proof.
  induction m as [|[k v] m IH]; intros sf ei Hex; [inversion Hex|].
  cbn [collect_skin]. apply Exists_cons in Hex as [[H1 H2]|Hex].
  - unfold entry_count in *. cbn [snd] in *.
    apply Z.eqb_neq in H1, H2. rewrite H1, H2. reflexivity.
  - destruct (nth 0 v 0 =? 1); [apply IH; exact Hex|].
    destruct (nth 0 v 0 =? 2); [|reflexivity]. apply IH; exact Hex.
Qed.

Lemma occurrences_elem (f : hex_face) (faces : list hex_face) :
  f ∈ faces -> (1 <= occurrences (face_key f) faces)%nat.
Proof.
  intros Hin. unfold occurrences.
  assert (Hf : f ∈ filter (fun g => face_key g = face_key f) faces)
    by (apply list_elem_of_filter; auto).
  destruct (filter _ faces); [inversion Hf|simpl; lia].
Qed.

(** The entry of a key decodes to its first visit and the number of visits. *)
Lemma entry_decode (m : StdMap.t (K:=list Z) (V:=list Z)) (faces : list hex_face)
    (k v : list Z) :
  represents m faces -> (k, v) ∈ m ->
  exists f rest,
    filter (fun g => face_key g = k) faces = f :: rest
    /\ v = Z.of_nat (S (length rest)) :: hf_nodes f ++ [hf_elem f; hf_ordinal f].
Proof.
  intros [Hnd Hfind] Hin.
  pose proof (StdMapFacts.elem_find _ lex_compare_eq _ _ _ Hnd Hin) as Hf.
  rewrite Hfind in Hf. unfold summary in Hf.
  destruct (filter _ faces) as [|f rest]; [discriminate|].
  injection Hf as <-. eauto.
Qed.

Lemma entry_count_occurrences (m : StdMap.t (K:=list Z) (V:=list Z))
    (faces : list hex_face) (k v : list Z) :
  represents m faces -> (k, v) ∈ m ->
  entry_count (k, v) = Z.of_nat (occurrences k faces)
  /\ exists f, f ∈ faces /\ face_key f = k.
Proof.
  intros Hrep Hin. destruct (entry_decode _ _ _ _ Hrep Hin) as (f & rest & Hfil & ->).
  unfold entry_count, occurrences. rewrite Hfil. split; [reflexivity|].
  exists f. assert (Hf : f ∈ filter (fun g => face_key g = k) faces)
    by (rewrite Hfil; left).
  apply list_elem_of_filter in Hf as [Hk Hf]. auto.
Qed.

Lemma entry_output_value (entity_id_offset : Z) (k : list Z) (f : hex_face) :
  entry_output entity_id_offset (k, face_value f) = skin_output entity_id_offset f.
Proof.
  unfold entry_output, skin_output, face_value. cbn [snd drop length].
  f_equal. rewrite length_app. cbn [length].
  replace (S (length (hf_nodes f) + 2) - 3)%nat with (length (hf_nodes f)) by lia.
  apply take_app_length.
Qed.

Lemma skin_output_key (entity_id_offset : Z) (f : hex_face) :
  std_sort (fst (skin_output entity_id_offset f)) = face_key f.
Proof. reflexivity. Qed.

(** Among the faces kept by a test that holds for at most one face of each
    key, no key repeats. *)
Lemma NoDup_keys_filter (P : hex_face -> Prop) `{!forall f, Decision (P f)}
    (faces : list hex_face) :
  (forall f, P f -> (occurrences (face_key f) faces <= 1)%nat) ->
  NoDup (face_key <$> filter P faces).
Proof.
  induction faces as [|a faces IH]; intros Honce; [constructor|].
  assert (Hstep : forall f, (occurrences (face_key f) faces
                             <= occurrences (face_key f) (a :: faces))%nat).
  { intros f. unfold occurrences. rewrite filter_cons.
    destruct (decide (face_key a = face_key f)); simpl; lia. }
  assert (IH' : NoDup (face_key <$> filter P faces)).
  { apply IH. intros f Hf. specialize (Honce f Hf). specialize (Hstep f). lia. }
  rewrite filter_cons. destruct (decide (P a)) as [Ha|Ha]; [|exact IH'].
  rewrite fmap_cons. apply NoDup_cons. split; [|exact IH'].
  intros Hin. apply list_elem_of_fmap in Hin as (f & Hkey & Hf).
  apply list_elem_of_filter in Hf as [_ Hf].
  pose proof (occurrences_elem f faces Hf) as Hge. rewrite <- Hkey in Hge.
  specialize (Honce a Ha). unfold occurrences in Honce, Hge.
  rewrite (filter_cons_True (fun g => face_key g = face_key a) a faces eq_refl) in Honce.
  simpl in Honce. lia.
Qed.

(** The map after all visits, read back: success. *)
Lemma collect_represented_ok (entity_id_offset : Z)
    (m : StdMap.t (K:=list Z) (V:=list Z)) (faces : list hex_face) :
  represents m faces ->
  Forall (fun f => (occurrences (face_key f) faces <= 2)%nat) faces ->
  exists out : list (list Z * Z),
    collect_skin m entity_id_offset [] [] = Some (out.*1, out.*2)
    /\ out ≡ₚ skin_output entity_id_offset <$> boundary_faces faces.
Proof.
  intros Hrep Hle.
  exists (entry_output entity_id_offset <$> filter (fun e => entry_count e = 1) m).
  split.
  - apply (collect_skin_ok entity_id_offset m [] []).
    apply Forall_forall. intros [k v] Hin.
    destruct (entry_count_occurrences _ _ _ _ Hrep Hin) as (Hc & f & Hf & Hk).
    rewrite Hc. rewrite Forall_forall in Hle. specialize (Hle f Hf).
    pose proof (occurrences_elem f faces Hf). rewrite Hk in *. lia.
  - apply NoDup_Permutation.
    + apply (NoDup_fmap_1 fst), (NoDup_fmap_1 std_sort).
      rewrite <- !list_fmap_compose.
      rewrite (list_fmap_ext (std_sort ∘ fst ∘ entry_output entity_id_offset) fst).
      * eapply sublist_NoDup; [exact (proj1 Hrep)|].
        apply fmap_sublist, sublist_filter.
      * intros i [k v] Hi. unfold compose, entry_output. cbn [fst snd].
        apply list_elem_of_lookup_2, list_elem_of_filter in Hi as [Hc Hin].
        destruct (entry_decode _ _ _ _ Hrep Hin) as (f & rest & Hfil & ->).
        assert (Hf : f ∈ filter (fun g => face_key g = k) faces)
          by (rewrite Hfil; left).
        apply list_elem_of_filter in Hf as [Hk _]. rewrite <- Hk.
        unfold face_key. cbn [drop length]. rewrite length_app. cbn [length].
        replace (S (length (hf_nodes f) + 2) - 3)%nat with (length (hf_nodes f)) by lia.
        rewrite drop_0, take_app_length. reflexivity.
    + apply (NoDup_fmap_1 fst), (NoDup_fmap_1 std_sort).
      rewrite <- !list_fmap_compose.
      change (std_sort ∘ fst ∘ skin_output entity_id_offset) with face_key.
      apply NoDup_keys_filter. intros f ->. lia.
    + intros x. rewrite !list_elem_of_fmap. split.
      * intros ([k v] & -> & Hin). apply list_elem_of_filter in Hin as [Hc Hin].
        destruct (entry_decode _ _ _ _ Hrep Hin) as (f & rest & Hfil & ->).
        unfold entry_count in Hc. cbn [snd nth] in Hc.
        destruct rest; [|simpl in Hc; lia].
        assert (Hf : f ∈ filter (fun g => face_key g = k) faces)
          by (rewrite Hfil; left).
        apply list_elem_of_filter in Hf as [Hk Hf].
        exists f. split; [apply entry_output_value|].
        apply list_elem_of_filter. split; [|exact Hf].
        unfold occurrences. rewrite Hk, Hfil. reflexivity.
      * intros (f & -> & Hin). apply list_elem_of_filter in Hin as [Hocc Hf].
        exists (face_key f, face_value f). split; [symmetry; apply entry_output_value|].
        apply list_elem_of_filter. split; [reflexivity|].
        apply (StdMapFacts.find_Some_elem _ lex_compare_eq).
        rewrite (proj2 Hrep). unfold summary. unfold occurrences in Hocc.
        assert (Hf' : f ∈ filter (fun g => face_key g = face_key f) faces)
          by (apply list_elem_of_filter; auto).
        destruct (filter _ faces) as [|f0 [|f1 rest]]; try discriminate.
        apply list_elem_of_singleton in Hf'. subst f0. reflexivity.
Qed.

(** The map after all visits, read back: a face met more than twice. *)
Lemma collect_represented_abort (entity_id_offset : Z)
    (m : StdMap.t (K:=list Z) (V:=list Z)) (faces : list hex_face) :
  represents m faces ->
  Exists (fun f => (2 < occurrences (face_key f) faces)%nat) faces ->
  collect_skin m entity_id_offset [] [] = None.
Proof.
  intros Hrep Hex. apply collect_skin_abort.
  apply Exists_exists in Hex as (f & Hf & Hocc).
  apply Exists_exists.
  destruct (summary (face_key f) faces) as [v|] eqn:Hs.
  - exists (face_key f, v).
    assert (Hin : (face_key f, v) ∈ m).
    { apply (StdMapFacts.find_Some_elem _ lex_compare_eq). rewrite (proj2 Hrep). exact Hs. }
    split; [exact Hin|].
    destruct (entry_count_occurrences _ _ _ _ Hrep Hin) as (Hc & _).
    rewrite Hc. lia.
  - unfold summary in Hs. unfold occurrences in Hocc.
    destruct (filter _ faces); [simpl in Hocc; lia|discriminate].
Qed.

(** [SkinBlocks], with the two output vectors zipped. *)
Lemma SkinBlocks_pairs (mesh : GenesisMesh) (block_ids : list Z) (entity_id_offset : Z) :
  (Forall (fun f => (occurrences (face_key f) (all_faces mesh block_ids) <= 2)%nat)
     (all_faces mesh block_ids) ->
   exists out : list (list Z * Z),
     SkinBlocks mesh block_ids entity_id_offset = Some (out.*1, out.*2)
     /\ out ≡ₚ skin_output entity_id_offset <$> boundary_faces (all_faces mesh block_ids))
  /\ (Exists (fun f => (2 < occurrences (face_key f) (all_faces mesh block_ids))%nat)
        (all_faces mesh block_ids) ->
      SkinBlocks mesh block_ids entity_id_offset = None).
Proof.
  assert (Hrep : represents (fold_left (visit_block mesh) block_ids [])
                   (all_faces mesh block_ids)).
  { rewrite visit_blocks_fold.
    apply (visit_faces_represents (all_faces mesh block_ids) [] []), represents_nil. }
  unfold SkinBlocks. split; intros H.
  - apply collect_represented_ok; assumption.
  - eapply collect_represented_abort; eassumption.
Qed.


(** One block of two hexahedra glued along the face of nodes 1, 2, 6, 5. *)
Definition two_hex_mesh : GenesisMesh :=
  {| GetNumElementsInBlock := fun _ => 2%nat;
     GetNumNodesPerElement := fun _ => 8%nat;
     GetConnectivity := fun _ => [0; 1; 2; 3; 4; 5; 6; 7; 1; 8; 9; 2; 5; 10; 11; 6];
     GetElementGlobalIdsInBlock := fun _ => [0; 1];
     GetNodeGlobalIds := [0; 1; 2; 3; 4; 5; 6; 7; 8; 9; 10; 11];
     GetCoordinatesX := [0; 1; 1; 0; 0; 1; 1; 0; 2; 2; 2; 2]%float;
     GetCoordinatesY := [0; 0; 1; 1; 0; 0; 1; 1; 0; 1; 0; 1]%float;
     GetCoordinatesZ := [0; 0; 0; 0; 1; 1; 1; 1; 0; 0; 1; 1]%float;
     GetMaxNodeGlobalId := 11 |}.



End SkinFacts.

(** ** The secondary contact nodes *)

Module SecondaryFacts.
Import Submodel Manager.
Local Open Scope float_scope.

Section Secondary.

Variables (genesis_node_global_ids node_ids_ ghosted_contact_node_ids : list Z).
Variable coord_ : list float.

(** The output id of the submodel node [node_id]: the global id of its mesh
    node, plus one. *)
Definition node_entity_id (node_id : Z) : Z :=
  Int32.add
    (nth (Z.to_nat (nth (Z.to_nat node_id) node_ids_ 0%Z)) genesis_node_global_ids 0%Z) 1.

(** The visits of the double loop: each node of each face, with the
    characteristic length of the face. *)
Definition visits (faces : list (list Z)) : list (Z * float) :=
  flat_map (fun face => (fun n => (n, secondary_characteristic_length coord_ face)) <$> face)
           faces.

Definition visit (st : secondary) (v : Z * float) : secondary :=
  visit_secondary_node genesis_node_global_ids node_ids_ ghosted_contact_node_ids
    (snd v) st (fst v).

Definition empty_secondary : secondary :=
  {| secondary_node_ids := [];
     secondary_node_entity_ids := [];
     secondary_node_char_lens := [] |}.

Lemma face_as_visits (c : float) (ns : list Z) :
  forall st : secondary,
  fold_left
    (visit_secondary_node genesis_node_global_ids node_ids_ ghosted_contact_node_ids c)
    ns st
  = fold_left visit ((fun n => (n, c)) <$> ns) st.
Proof.
  induction ns as [|n ns IH]; intros st; [reflexivity|].
  cbn [fold_left fmap list_fmap]. rewrite IH. reflexivity.
Qed.

Lemma collect_as_visits (faces : list (list Z)) :
  forall st : secondary,
  fold_left
    (visit_secondary_face genesis_node_global_ids node_ids_ ghosted_contact_node_ids coord_)
    faces st
  = fold_left visit (visits faces) st.
Proof.
  induction faces as [|face faces IH]; intros st; [reflexivity|].
  cbn [fold_left visits flat_map]. rewrite fold_left_app, IH. f_equal.
  apply face_as_visits.
Qed.

Lemma found_spec (x : Z) (v : list Z) : found x v = true <-> x ∈ v.
Proof.
  unfold found. rewrite existsb_exists. split.
  - intros (y & Hy & E). apply Z.eqb_eq in E. subst y. apply list_elem_of_In. exact Hy.
  - intros Hx. exists x. split; [apply list_elem_of_In; exact Hx|apply Z.eqb_refl].
Qed.

Lemma found_false (x : Z) (v : list Z) : found x v = false <-> x ∉ v.
Proof.
  rewrite <- found_spec. destruct (found x v); split; congruence.
Qed.

(** What holds of the three containers after the visits [vs]. *)
Record collected (st : secondary) (vs : list (Z * float)) : Prop := {
  col_nodup : NoDup (secondary_node_ids st);
  col_elem : forall n,
    n ∈ secondary_node_ids st
    <-> (n ∉ ghosted_contact_node_ids) /\ (exists c, (n, c) ∈ vs);
  col_ids : forall j n,
    secondary_node_ids st !! j = Some n ->
    secondary_node_entity_ids st !! j = Some (node_entity_id n);
  col_length : length (secondary_node_entity_ids st) = length (secondary_node_ids st);
  col_len : forall n,
    n ∈ secondary_node_ids st ->
    exists len,
      StdMap.find Z.compare n (secondary_node_char_lens st) = Some len
      /\ (n, len) ∈ vs
      /\ forall c, (n, c) ∈ vs -> (len <? c) = false
}.

Lemma collected_empty : collected empty_secondary [].
Proof.
  split; simpl.
  - constructor.
  - intros n. split; [intros H; inversion H|intros [_ [c H]]; inversion H].
  - intros j n. rewrite lookup_nil. discriminate.
  - reflexivity.
  - intros n H. inversion H.
Qed.

Lemma collected_step (st : secondary) (vs : list (Z * float)) (v : Z * float) :
  collected st vs -> collected (visit st v) (vs ++ [v]).
Proof.
  intros [Hnd Hel Hids Hlen Hmax]. destruct v as [n c].
  unfold visit, visit_secondary_node. cbn [fst snd].
  assert (Hsnoc : forall n' c', (n', c') ∈ vs ++ [(n, c)]
                                <-> (n', c') ∈ vs \/ (n' = n /\ c' = c)).
  { intros n' c'. rewrite elem_of_app, list_elem_of_singleton.
    split; (intros [H|H]; [left; exact H|right]).
    - injection H as -> ->. auto.
    - destruct H as [-> ->]. reflexivity. }
  destruct (found n ghosted_contact_node_ids) eqn:Hg.
  { (* a ghosted node *)
    apply found_spec in Hg. split; auto.
    - intros n'. rewrite Hel. split.
      + intros [Hn' [c' Hc']]. split; [exact Hn'|]. exists c'. apply Hsnoc. auto.
      + intros [Hn' [c' Hc']]. split; [exact Hn'|].
        apply Hsnoc in Hc' as [Hc'|[-> _]]; [eauto|contradiction].
    - intros n' Hn'. destruct (Hmax n' Hn') as (len & Hf & Hin & Hle).
      exists len. split; [exact Hf|]. split; [apply Hsnoc; auto|].
      intros c' Hc'. apply Hsnoc in Hc' as [Hc'|[-> _]]; [auto|].
      apply Hel in Hn' as [Hn' _]. contradiction. }
  apply found_false in Hg.
  destruct (found n (secondary_node_ids st)) eqn:Hf; cbn [negb].
  - (* a node met before *)
    apply found_spec in Hf.
    destruct (Hmax n Hf) as (len & Hfind & Hin & Hle).
    unfold subscript. rewrite Hfind.
    assert (Helem : forall n',
              n' ∈ secondary_node_ids st
              <-> (n' ∉ ghosted_contact_node_ids) /\ (exists c', (n', c') ∈ vs ++ [(n, c)])).
    { intros n'. rewrite Hel. split.
      - intros [Hn' [c' Hc']]. split; [exact Hn'|]. exists c'. apply Hsnoc. auto.
      - intros [Hn' [c' Hc']]. split; [exact Hn'|].
        apply Hsnoc in Hc' as [Hc'|[-> _]]; [eauto|]. apply Hel in Hf as [_ Hf]. exact Hf. }
    destruct (len <? c) eqn:Hcmp; split; cbn [secondary_node_ids
      secondary_node_entity_ids secondary_node_char_lens]; auto.
    + intros n' Hn'. destruct (decide (n' = n)) as [->|Hne].
      * exists c. rewrite (StdMapFacts.find_insert _ Z_compare_eq).
        split; [reflexivity|]. split; [apply Hsnoc; auto|].
        intros c' Hc'. apply Hsnoc in Hc' as [Hc'|[_ ->]].
        -- eapply Flt.ltb_max_step; [apply Hle; exact Hc'|exact Hcmp].
        -- apply Flt.ltb_irrefl.
      * rewrite (StdMapFacts.find_insert_ne _ Z_compare_eq) by exact Hne.
        destruct (Hmax n' Hn') as (len' & Hf' & Hin' & Hle').
        exists len'. split; [exact Hf'|]. split; [apply Hsnoc; auto|].
        intros c' Hc'. apply Hsnoc in Hc' as [Hc'|[-> _]]; [auto|contradiction].
    + intros n' Hn'. destruct (decide (n' = n)) as [->|Hne].
      * exists len. split; [exact Hfind|]. split; [apply Hsnoc; auto|].
        intros c' Hc'. apply Hsnoc in Hc' as [Hc'|[_ ->]]; [auto|exact Hcmp].
      * destruct (Hmax n' Hn') as (len' & Hf' & Hin' & Hle').
        exists len'. split; [exact Hf'|]. split; [apply Hsnoc; auto|].
        intros c' Hc'. apply Hsnoc in Hc' as [Hc'|[-> _]]; [auto|contradiction].
  - (* a new node *)
    apply found_false in Hf.
    split; cbn [secondary_node_ids secondary_node_entity_ids secondary_node_char_lens].
    + apply NoDup_app. split; [exact Hnd|]. split.
      * intros x Hx Hx'. apply list_elem_of_singleton in Hx'. subst x. contradiction.
      * apply NoDup_singleton.
    + intros n'. rewrite elem_of_app, list_elem_of_singleton, Hel. split.
      * intros [[Hn' [c' Hc']]| ->].
        -- split; [exact Hn'|]. exists c'. apply Hsnoc. auto.
        -- split; [exact Hg|]. exists c. apply Hsnoc. auto.
      * intros [Hn' [c' Hc']]. apply Hsnoc in Hc' as [Hc'|[-> _]]; [left; eauto|right; auto].
    + intros j n' Hj. apply lookup_app_Some in Hj as [Hj|[Hge Hj]].
      * rewrite lookup_app_l by (rewrite Hlen; eapply lookup_lt_Some; eauto). auto.
      * rewrite lookup_app_r by lia. rewrite Hlen.
        destruct (j - length (secondary_node_ids st))%nat; [|discriminate].
        injection Hj as <-. reflexivity.
    + rewrite !length_app, Hlen. reflexivity.
    + intros n' Hn'. apply elem_of_app in Hn' as [Hn'|Hn'].
      * assert (Hne : n' <> n) by (intros ->; contradiction).
        rewrite (StdMapFacts.find_insert_ne _ Z_compare_eq) by exact Hne.
        destruct (Hmax n' Hn') as (len' & Hf' & Hin' & Hle').
        exists len'. split; [exact Hf'|]. split; [apply Hsnoc; auto|].
        intros c' Hc'. apply Hsnoc in Hc' as [Hc'|[-> _]]; [auto|contradiction].
      * apply list_elem_of_singleton in Hn'. subst n'.
        exists c. rewrite (StdMapFacts.find_insert _ Z_compare_eq).
        split; [reflexivity|]. split; [apply Hsnoc; auto|].
        intros c' Hc'. apply Hsnoc in Hc' as [Hc'|[_ ->]]; [|apply Flt.ltb_irrefl].
        exfalso. apply Hf, Hel. eauto.
Qed.

Lemma collected_fold (more : list (Z * float)) :
  forall (st : secondary) (vs : list (Z * float)),
  collected st vs -> collected (fold_left visit more st) (vs ++ more).
Proof.
  induction more as [|v more IH]; intros st vs Hc.
  - rewrite app_nil_r. exact Hc.
  - cbn [fold_left]. replace (vs ++ v :: more) with ((vs ++ [v]) ++ more)
      by (rewrite <- app_assoc; reflexivity).
    apply IH, collected_step, Hc.
Qed.

Lemma elem_of_visits (faces : list (list Z)) (n : Z) (c : float) :
  (n, c) ∈ visits faces
  <-> exists face, face ∈ faces /\ n ∈ face
                   /\ c = secondary_characteristic_length coord_ face.
Proof.
  unfold visits. rewrite list_elem_of_In, in_flat_map. split.
  - intros (face & Hface & Hin). apply list_elem_of_In in Hface, Hin.
    apply list_elem_of_fmap in Hin as (n' & E & Hn'). injection E as -> ->. eauto.
  - intros (face & Hface & Hn & ->). exists face.
    split; [apply list_elem_of_In; exact Hface|].
    apply list_elem_of_In, list_elem_of_fmap. eauto.
Qed.

Lemma collect_secondary_nodes_collected (faces : list (list Z)) :
  collected
    (collect_secondary_nodes genesis_node_global_ids node_ids_ ghosted_contact_node_ids
       coord_ faces)
    (visits faces).
Proof.
  unfold collect_secondary_nodes. rewrite collect_as_visits.
  apply (collected_fold (visits faces) empty_secondary []), collected_empty.
Qed.

End Secondary.







End SecondaryFacts.

(** ** Faces on partition boundaries *)

Module DedupFacts.
Import Dedup.

Section Exchange.

Variable genesis_node_global_ids : list Z.
Variable faces : list (list Z).

(** The sorted global-id quadruple of the local face number [i]. *)
Definition own_quadruple (i : nat) : list Z :=
  face_fvec genesis_node_global_ids (nth i faces []).

(** The sorted quadruples of the local faces are pairwise distinct. *)
Definition distinct_quadruples : Prop :=
  forall i j, (i < length faces)%nat -> (j < length faces)%nat ->
    own_quadruple i = own_quadruple j -> i = j.










End Exchange.

Lemma compact_zip {A B : Type} (hash : list bool) :
  forall (l : list A) (k : list B),
  compact hash (zip l k) = zip (compact hash l) (compact hash k).
Proof.
  induction hash as [|h hash IH]; intros l k; [reflexivity|].
  destruct l as [|x l], k as [|y k]; try reflexivity.
  - cbn [zip zip_with compact]. symmetry. apply zip_with_nil_r.
  - cbn [zip zip_with compact]. destruct h; cbn [zip_with]; fold (zip l k);
      rewrite IH; reflexivity.
Qed.


Lemma length_compact {A B : Type} (hash : list bool) :
  forall (l : list A) (k : list B),
  length l = length k -> length (compact hash l) = length (compact hash k).
Proof.
  induction hash as [|h hash IH]; intros [|x l] [|y k] Hlen; try reflexivity;
    try discriminate.
  simpl. injection Hlen as Hlen. destruct h; simpl; rewrite (IH l k Hlen); reflexivity.
Qed.



End DedupFacts.

(** ** Entity ids *)

Module EntityIdFacts.
Import Skin SkinFacts Submodel Manager.
Local Open Scope Z_scope.

(** The ids as the code builds them, in [int] arithmetic:
    [(element_global_id_1_based + offset) << 5 | (face_ordinal & 0x7) << 2
     | (triangle_ordinal & 0x3)] with every sum and shift truncated to 32
    bits; [skin_entity_id_packed] and [lor_triangle_ordinal] read it off
    [SkinBlocks] and the triangulation.  The packed integer of the
    specification, which is not truncated, is
    [SpecifiedIdFacts.specified_entity_id]. *)
Definition packed_entity_id
    (element_global_id_1_based offset face_ordinal triangle_ordinal : Z) : Z :=
  Z.lor
    (Z.lor (Int32.shl (Int32.add element_global_id_1_based offset) 5)
           (Int32.shl (Z.land face_ordinal 7) 2))
    (Z.land triangle_ordinal 3).

(** The same formula over the integers, without truncation. *)
Definition packed_integer
    (element_global_id_1_based offset face_ordinal triangle_ordinal : Z) : Z :=
  (element_global_id_1_based + offset) * 32 + face_ordinal * 4 + triangle_ordinal.

Lemma wrap_in_range (z : Z) : Int32.in_range z -> Int32.wrap z = z.
Proof.
  unfold Int32.in_range, Int32.wrap. intros H.
  rewrite Z.mod_small by lia. lia.
Qed.

Lemma land_low_zero (x b n : Z) :
  0 <= n -> 0 <= b < 2 ^ n -> Z.land (x * 2 ^ n) b = 0.
Proof.
  intros Hn Hb. apply Z.bits_inj'. intros k Hk.
  rewrite Z.land_spec, Z.bits_0, <- Z.shiftl_mul_pow2 by exact Hn.
  destruct (Z.lt_ge_cases k n) as [Hlt|Hge].
  - rewrite Z.shiftl_spec_low by exact Hlt. reflexivity.
  - destruct (Z.eq_dec b 0) as [->|Hb0].
    + rewrite Z.bits_0. apply andb_false_r.
    + rewrite (Z.bits_above_log2 b k);
        [apply andb_false_r|lia|
         apply Z.lt_le_trans with n; [apply Z.log2_lt_pow2; lia|lia]].
Qed.

(** Or-ing low bits into a multiple of [2 ^ n] adds them. *)
Lemma lor_low (x b n : Z) :
  0 <= n -> 0 <= b < 2 ^ n -> Z.lor (x * 2 ^ n) b = x * 2 ^ n + b.
Proof.
  intros Hn Hb. pose proof (land_low_zero x b n Hn Hb) as H0.
  rewrite <- Z.lxor_lor by exact H0. symmetry. apply Z.add_nocarry_lxor. exact H0.
Qed.

Lemma land_7_small (fo : Z) : 0 <= fo <= 7 -> Z.land fo 7 = fo.
Proof.
  intros H. change (Z.land fo 7) with (Z.land fo (Z.ones 3)). rewrite Z.land_ones by lia.
  apply Z.mod_small. change (2 ^ 3) with 8. lia.
Qed.

Lemma land_3_small (t : Z) : 0 <= t <= 3 -> Z.land t 3 = t.
Proof.
  intros H. change (Z.land t 3) with (Z.land t (Z.ones 2)). rewrite Z.land_ones by lia.
  apply Z.mod_small. change (2 ^ 2) with 4. lia.
Qed.

(** Where nothing overflows, the packed id is the packed integer. *)
Lemma packed_entity_id_exact (e offset fo t : Z) :
  0 <= e + offset -> (e + offset) * 32 + 31 <= Int32.INT_MAX ->
  0 <= fo <= 7 -> 0 <= t <= 3 ->
  packed_entity_id e offset fo t = packed_integer e offset fo t.
Proof.
  intros He Hmax Hfo Ht. unfold packed_entity_id, packed_integer, Int32.add, Int32.shl,
    Int32.INT_MAX in *.
  rewrite (land_7_small fo Hfo), (land_3_small t Ht).
  rewrite (wrap_in_range (e + offset)) by (unfold Int32.in_range; lia).
  rewrite !Z.shiftl_mul_pow2 by lia.
  rewrite (wrap_in_range ((e + offset) * 2 ^ 5))
    by (unfold Int32.in_range; change (2 ^ 5) with 32; lia).
  rewrite (wrap_in_range (fo * 2 ^ 2))
    by (unfold Int32.in_range; change (2 ^ 2) with 4; lia).
  rewrite (lor_low (e + offset) (fo * 2 ^ 2) 5)
    by (change (2 ^ 2) with 4; change (2 ^ 5) with 32; lia).
  replace ((e + offset) * 2 ^ 5 + fo * 2 ^ 2) with (((e + offset) * 8 + fo) * 2 ^ 2)
    by (change (2 ^ 5) with 32; change (2 ^ 2) with 4; lia).
  rewrite lor_low by (change (2 ^ 2) with 4; lia).
  change (2 ^ 2) with 4. lia.
Qed.

(** The id [SkinBlocks] gives a face is the packed id with triangle ordinal 0. *)
Lemma skin_entity_id_packed (f : hex_face) (entity_id_offset : Z) :
  length (hf_nodes f) = 4%nat -> 0 <= hf_ordinal f <= 5 ->
  skin_entity_id (face_value f) entity_id_offset
  = packed_entity_id (hf_elem f) entity_id_offset (hf_ordinal f) 0.
Proof.
  intros Hlen Hord. unfold skin_entity_id, packed_entity_id, face_value.
  destruct (hf_nodes f) as [|n0 [|n1 [|n2 [|n3 [|n4 ns]]]]]; try discriminate.
  cbn [app nth]. rewrite land_7_small by lia. reflexivity.
Qed.

(** Or-ing the triangle ordinal into the id of the face sets the ordinal. *)
Lemma lor_triangle_ordinal (e offset fo t : Z) :
  0 <= t <= 3 ->
  Z.lor (packed_entity_id e offset fo 0) t = packed_entity_id e offset fo t.
Proof.
  intros Ht. unfold packed_entity_id. rewrite (land_3_small t Ht).
  change (Z.land 0 3) with 0. rewrite Z.lor_0_r. reflexivity.
Qed.

(** The faces that are visited are quadrilaterals of some element of some
    requested block, with a face ordinal from 0 to 5. *)
Lemma all_faces_elem (mesh : GenesisMesh) (block_ids : list Z) (f : hex_face) :
  f ∈ all_faces mesh block_ids ->
  length (hf_nodes f) = 4%nat
  /\ 0 <= hf_ordinal f <= 5
  /\ exists block_id i_elem,
       block_id ∈ block_ids
       /\ (i_elem < GetNumElementsInBlock mesh block_id)%nat
       /\ hf_elem f
          = Int32.add (nth i_elem (GetElementGlobalIdsInBlock mesh block_id) 0) 1.
Proof.
  unfold all_faces, block_faces. intros Hin.
  apply list_elem_of_In, in_flat_map in Hin as (block_id & Hb & Hin).
  apply in_flat_map in Hin as (i_elem & Hi & Hin).
  apply in_seq in Hi. unfold element_faces in Hin.
  apply in_map_iff in Hin as (ot & <- & Hot).
  cbn [hf_nodes hf_ordinal hf_elem].
  assert (Hot' : length (snd ot) = 4%nat /\ 0 <= fst ot <= 5).
  { unfold face_templates in Hot. simpl in Hot.
    repeat (destruct Hot as [<-|Hot]; [simpl; lia|]). contradiction. }
  split; [rewrite length_map; apply Hot'|]. split; [apply Hot'|].
  exists block_id, i_elem. split; [apply list_elem_of_In; exact Hb|].
  split; [lia|reflexivity].
Qed.

(** The ids [SkinBlocks] returns: face by face, the id of a boundary face with
    triangle ordinal 0. *)
Lemma SkinBlocks_ids (mesh : GenesisMesh) (block_ids : list Z) (entity_id_offset : Z)
    (skin_faces : list (list Z)) (entity_ids : list Z) :
  SkinBlocks mesh block_ids entity_id_offset = Some (skin_faces, entity_ids) ->
  length entity_ids = length skin_faces
  /\ forall j id,
       entity_ids !! j = Some id ->
       exists f,
         f ∈ boundary_faces (all_faces mesh block_ids)
         /\ skin_faces !! j = Some (hf_nodes f)
         /\ id = packed_entity_id (hf_elem f) entity_id_offset (hf_ordinal f) 0.
Proof.
  intros Hskin.
  destruct (SkinBlocks_pairs mesh block_ids entity_id_offset) as [Hok Habort].
  destruct (decide (Forall (fun f => (occurrences (face_key f) (all_faces mesh block_ids)
                                      <= 2)%nat) (all_faces mesh block_ids)))
    as [Hle|Hnle].
  - destruct (Hok Hle) as (out & Hout & Hperm). rewrite Hout in Hskin.
    injection Hskin as <- <-. split; [rewrite !length_fmap; reflexivity|].
    intros j id Hj. rewrite list_lookup_fmap in Hj.
    destruct (out !! j) as [[face id']|] eqn:Hoj; [|discriminate].
    injection Hj as <-.
    assert (Hin : (face, id') ∈ skin_output entity_id_offset
                                  <$> boundary_faces (all_faces mesh block_ids)).
    { rewrite <- Hperm. eapply list_elem_of_lookup_2. exact Hoj. }
    apply list_elem_of_fmap in Hin as (f & Heq & Hf). injection Heq as -> ->.
    exists f. split; [exact Hf|]. split; [rewrite list_lookup_fmap, Hoj; reflexivity|].
    apply list_elem_of_filter in Hf as [_ Hf].
    destruct (all_faces_elem _ _ _ Hf) as (Hlen & Hord & _).
    apply skin_entity_id_packed; assumption.
  - pose proof (not_Forall_Exists
                  (fun f => (occurrences (face_key f) (all_faces mesh block_ids) <= 2)%nat)
                  _ Hnle) as Hex.
    rewrite Habort in Hskin; [discriminate|].
    eapply Exists_impl; [exact Hex|]. simpl. intros f Hf. lia.
Qed.

Lemma elem_of_compact {A : Type} (hash : list bool) :
  forall (l : list A) (x : A), x ∈ Dedup.compact hash l -> x ∈ l.
Proof.
  induction hash as [|h hash IH]; intros [|y l] x Hx; try (inversion Hx; fail).
  simpl in Hx. destruct h.
  - right. apply IH. exact Hx.
  - apply elem_of_cons in Hx as [->|Hx]; [left|right; apply IH; exact Hx].
Qed.

Lemma hashes_same (faceList : StdMap.t (K:=list Z) (V:=nat)) (received : list (list Z)) :
  forall st : Dedup.marks,
  Dedup.remove_entity_ids_hash st = Dedup.remove_face_hash st ->
  Dedup.remove_entity_ids_hash (fold_left (Dedup.scan_buffer faceList) received st)
  = Dedup.remove_face_hash (fold_left (Dedup.scan_buffer faceList) received st).
Proof.
  induction received as [|buf received IH]; intros st Hst; [exact Hst|].
  cbn [fold_left]. apply IH. unfold Dedup.scan_buffer.
  generalize (seq 0 (length buf / Dedup.num_nodes_in_face)) as idx. intros idx.
  revert st Hst. induction idx as [|i idx IHidx]; intros st Hst; [exact Hst|].
  cbn [fold_left]. apply IHidx. unfold Dedup.mark_received.
  destruct (StdMap.find _ _ _); [|exact Hst].
  cbn [Dedup.remove_entity_ids_hash Dedup.remove_face_hash]. rewrite Hst. reflexivity.
Qed.

(** The deduplication keeps faces and ids paired, and invents no id. *)
Lemma RemoveInternalSkinFaces_ids (genesis_node_global_ids : list Z)
    (faces : list (list Z)) (entity_ids : list Z) (received : list (list Z)) :
  length entity_ids = length faces ->
  let out := Dedup.RemoveInternalSkinFaces genesis_node_global_ids faces entity_ids
               received in
  length (snd out) = length (fst out)
  /\ forall id, id ∈ snd out -> id ∈ entity_ids.
Proof.
  intros Hlen out. subst out. unfold Dedup.RemoveInternalSkinFaces.
  destruct (_ =? _)%nat; cbn [fst snd]; [auto|].
  unfold Dedup.exchange_marks. rewrite hashes_same by (cbn; rewrite Hlen; reflexivity).
  split; [apply DedupFacts.length_compact; exact Hlen|].
  intros id. apply elem_of_compact.
Qed.

(** The ids of the triangles: the id of their face or-ed with the ordinal. *)
Lemma create_faces_ids (coord_ : list float) (ids : list Z) (faces : list (list Z)) :
  forall (i_face : nat) (index : Z) (contact_faces : list ContactEntity),
  create_faces coord_ faces ids i_face index = Some contact_faces ->
  forall j e,
    contact_faces !! j = Some e ->
    entity_type_ e = TRIANGLE
    /\ (j / 4 < length faces)%nat
    /\ contact_entity_global_id_ e
       = Z.lor (nth (i_face + j / 4) ids 0) (Z.of_nat (j mod 4)).
Proof.
  induction faces as [|face faces IH]; intros i_face index cf Hcf j e Hj.
  - injection Hcf as <-. discriminate.
  - cbn [create_faces] in Hcf.
    destruct (negb (length face =? 4)%nat); [discriminate|].
    destruct (create_faces coord_ faces ids (S i_face) (index + 4)) as [tail|] eqn:Ht;
      [|discriminate].
    injection Hcf as <-.
    destruct j as [|[|[|[|j]]]]; cbn [lookup list_lookup] in Hj.
    1-4: injection Hj as <-; cbn [length]; split; [reflexivity|];
         split; [cbn; lia|]; cbn [Nat.div Nat.modulo]; cbn;
         rewrite Nat.add_0_r; reflexivity.
    change ((face_triangle coord_ face (nth i_face ids 0) index 0 1 0
             :: face_triangle coord_ face (nth i_face ids 0) (index + 1) 1 2 1
             :: face_triangle coord_ face (nth i_face ids 0) (index + 2) 2 3 2
             :: face_triangle coord_ face (nth i_face ids 0) (index + 3) 3 0 3
             :: tail) !! S (S (S (S j)))) with (tail !! j) in Hj.
    destruct (IH _ _ _ Ht j e Hj) as (Hty & Hlt & Hid).
    replace (S (S (S (S j)))) with (j + 1 * 4)%nat by lia.
    rewrite Nat.div_add, Nat.Div0.mod_add by lia.
    split; [exact Hty|]. split; [cbn [length]; lia|].
    rewrite Hid. do 2 f_equal. lia.
Qed.

(** The contact node number [j] is the secondary node number [j]. *)
Lemma create_nodes_ids (coord_ : list float) (secondary_node_ids : list Z)
    (secondary_node_entity_ids : list Z)
    (secondary_node_char_lens : StdMap.t (K:=Z) (V:=float))
    (contact_nodes : list ContactEntity) :
  create_nodes coord_ secondary_node_ids secondary_node_entity_ids
    secondary_node_char_lens = Some contact_nodes ->
  forall j e,
    contact_nodes !! j = Some e ->
    exists node_id entity_id,
      secondary_node_ids !! j = Some node_id
      /\ secondary_node_entity_ids !! j = Some entity_id
      /\ entity_type_ e = NODE
      /\ contact_entity_global_id_ e = entity_id
      /\ node_id_for_node_1_ e = node_id.
Proof.
  unfold create_nodes. intros Hn j e Hj.
  apply mapM_Some_1 in Hn.
  destruct (Forall2_lookup_r _ _ _ _ _ Hn Hj) as (i & Hi & He).
  apply lookup_seq in Hi as [-> _]. cbn [Nat.add] in He.
  destruct (secondary_node_ids !! j) as [node_id|]; [|discriminate].
  destruct (secondary_node_entity_ids !! j) as [entity_id|]; [|discriminate].
  cbn [mbind option_bind] in He.
  destruct (StdMap.find Z.compare node_id secondary_node_char_lens); [|discriminate].
  cbn [mbind option_bind] in He. injection He as <-.
  exists node_id, entity_id. repeat split.
Qed.

(** The stages of [CreateContactEntities], read off a successful construction. *)
Lemma CreateContactEntities_stages (mesh : GenesisMesh) (env : Environment)
    (primary_block_ids secondary_block_ids : list Z) (cm : ContactManager) :
  CreateContactEntities mesh env primary_block_ids secondary_block_ids = Some cm ->
  let offset := allreduce_max env (GetMaxNodeGlobalId mesh) in
  exists (pskin : list (list Z)) (pids : list Z) (sskin : list (list Z)) (sids : list Z)
         (pfaces sfaces : list (list Z)),
    SkinBlocks mesh primary_block_ids offset = Some (pskin, pids)
    /\ SkinBlocks mesh secondary_block_ids offset = Some (sskin, sids)
    /\ let pd := Dedup.RemoveInternalSkinFaces (GetNodeGlobalIds mesh) pskin pids
                   (received_primary env) in
       let sd := Dedup.RemoveInternalSkinFaces (GetNodeGlobalIds mesh) sskin sids
                   (received_secondary env) in
       node_ids_ cm = collect_node_ids (fst pd) (fst sd)
       /\ renumber (submodel_id_map (node_ids_ cm)) (fst pd) = Some pfaces
       /\ renumber (submodel_id_map (node_ids_ cm)) (fst sd) = Some sfaces
       /\ coord_ cm = initial_coord mesh (node_ids_ cm)
       /\ model_coord_ cm = initial_coord mesh (node_ids_ cm)
       /\ force_ cm = resize (3 * length (node_ids_ cm)) 0%float (force_before env)
       /\ let sec :=
            collect_secondary_nodes (GetNodeGlobalIds mesh) (node_ids_ cm)
              (ghosted_contact_nodes (submodel_id_map (node_ids_ cm)) (ghosted_nodes env))
              (coord_ cm) sfaces in
          CreateContactNodesAndFaces (coord_ cm) pfaces (snd pd)
            (secondary_node_ids sec) (secondary_node_entity_ids sec)
            (secondary_node_char_lens sec)
          = Some (contact_nodes_ cm, contact_faces_ cm).
Proof.
  intros H offset. unfold CreateContactEntities in H. fold offset in H.
  destruct (SkinBlocks mesh primary_block_ids offset) as [[pskin pids]|] eqn:Hp;
    [|discriminate].
  destruct (SkinBlocks mesh secondary_block_ids offset) as [[sskin sids]|] eqn:Hs;
    [|discriminate].
  cbn [mbind option_bind] in H.
  destruct (Dedup.RemoveInternalSkinFaces (GetNodeGlobalIds mesh) pskin pids
              (received_primary env)) as [pf pi] eqn:Hpd.
  destruct (Dedup.RemoveInternalSkinFaces (GetNodeGlobalIds mesh) sskin sids
              (received_secondary env)) as [sf si] eqn:Hsd.
  destruct (renumber (submodel_id_map (collect_node_ids pf sf)) pf) as [pfaces|] eqn:Hrp;
    [|discriminate].
  destruct (renumber (submodel_id_map (collect_node_ids pf sf)) sf) as [sfaces|] eqn:Hrs;
    [|discriminate].
  cbn [mbind option_bind] in H.
  match type of H with
  | context [CreateContactNodesAndFaces ?c ?a ?b ?d ?e ?f] =>
      destruct (CreateContactNodesAndFaces c a b d e f) as [[cn cf]|] eqn:Hc;
        [|discriminate]
  end.
  cbn [mbind option_bind] in H. injection H as <-.
  exists pskin, pids, sskin, sids, pfaces, sfaces.
  rewrite Hpd, Hsd.
  cbn [node_ids_ coord_ model_coord_ force_ contact_nodes_ contact_faces_ fst snd].
  repeat split; assumption.
Qed.

(** A run on one rank, on a manager fresh from its constructor: no force is
    held, nothing is received, no node is on a partition boundary, and the
    reduction returns the rank's own value. *)
Definition serial_run : Environment :=
  {| force_before := [];
     mpi_rank := 0;
     allreduce_max := fun z => z;
     received_primary := [];
     received_secondary := [];
     partition_boundary_node_local_ids := [];
     min_rank_containing_partition_boundary_nodes := [] |}.

(** *** Uniqueness of the ids, and where it stops *)

(** Within the range of [int], distinct (element, face ordinal, triangle
    ordinal) triples have distinct packed ids. *)
Lemma packed_entity_id_injective (offset e1 fo1 t1 e2 fo2 t2 : Z) :
  0 <= e1 + offset -> (e1 + offset) * 32 + 31 <= Int32.INT_MAX ->
  0 <= e2 + offset -> (e2 + offset) * 32 + 31 <= Int32.INT_MAX ->
  0 <= fo1 <= 5 -> 0 <= fo2 <= 5 -> 0 <= t1 <= 3 -> 0 <= t2 <= 3 ->
  packed_entity_id e1 offset fo1 t1 = packed_entity_id e2 offset fo2 t2 ->
  e1 = e2 /\ fo1 = fo2 /\ t1 = t2.
Proof.
  intros He1 Hm1 He2 Hm2 Hf1 Hf2 Ht1 Ht2.
  rewrite !packed_entity_id_exact by lia. unfold packed_integer. lia.
Qed.

Lemma packed_entity_id_injective_witness :
  packed_entity_id 1 11 4 2 = 402 /\ (1 = 1 /\ 4 = 4 /\ 2 = 2).
Proof.
  split; [reflexivity|].
  apply (packed_entity_id_injective 11 1 4 2 1 4 2); unfold Int32.INT_MAX; lia.
Defined.

(** Within the range of [int], with the offset at least the global id of every
    node, no node id [global id + 1] is the packed id of a face. *)
Lemma node_id_not_packed (offset g e fo t : Z) :
  0 <= g <= offset -> 1 <= e -> (e + offset) * 32 + 31 <= Int32.INT_MAX ->
  0 <= fo <= 5 -> 0 <= t <= 3 ->
  Int32.add g 1 <> packed_entity_id e offset fo t.
Proof.
  intros Hg He Hmax Hfo Ht.
  rewrite packed_entity_id_exact by lia. unfold packed_integer, Int32.add.
  rewrite wrap_in_range by (unfold Int32.in_range, Int32.INT_MAX in *; lia). lia.
Qed.

Lemma node_id_not_packed_witness :
  Int32.add 11 1 = 12 /\ Int32.add 11 1 <> packed_entity_id 1 11 0 0.
Proof.
  split; [reflexivity|].
  apply (node_id_not_packed 11 11 1 0 0); unfold Int32.INT_MAX; lia.
Defined.

(** Three disjoint hexahedra: two in block 1, with the element global ids
    [2^27 - 24] and [2^28 - 24], and one in block 2; the largest node global id
    is 23. *)
Definition wide_id_mesh : GenesisMesh :=
  {| GetNumElementsInBlock := fun b => if b =? 1 then 2%nat else 1%nat;
     GetNumNodesPerElement := fun _ => 8%nat;
     GetConnectivity := fun b =>
       if b =? 1 then [0; 1; 2; 3; 4; 5; 6; 7; 8; 9; 10; 11; 12; 13; 14; 15]
       else [16; 17; 18; 19; 20; 21; 22; 23];
     GetElementGlobalIdsInBlock := fun b =>
       if b =? 1 then [134217704; 268435432] else [0];
     GetNodeGlobalIds := [0; 1; 2; 3; 4; 5; 6; 7; 8; 9; 10; 11; 12; 13; 14; 15;
                          16; 17; 18; 19; 20; 21; 22; 23];
     GetCoordinatesX := [0; 1; 1; 0; 0; 1; 1; 0; 2; 3; 3; 2; 2; 3; 3; 2;
                         4; 5; 5; 4; 4; 5; 5; 4]%float;
     GetCoordinatesY := [0; 0; 1; 1; 0; 0; 1; 1; 0; 0; 1; 1; 0; 0; 1; 1;
                         0; 0; 1; 1; 0; 0; 1; 1]%float;
     GetCoordinatesZ := [0; 0; 0; 0; 1; 1; 1; 1; 0; 0; 0; 0; 1; 1; 1; 1;
                         0; 0; 0; 0; 1; 1; 1; 1]%float;
     GetMaxNodeGlobalId := 23 |}.

(** C6 fails on the code: the ids are built in a 32-bit [int], which leaves
    27 bits, not 59, to the element id plus offset.  On [wide_id_mesh], with
    block 1 primary and block 2 secondary, both elements of block 1 have
    [element id + 1 + offset] a multiple of [2^27], so the shift by 5 leaves 0:
    the 12 skin faces of the two elements get the same six ids, the triangles
    0 and 24 of the submodel both have the id 16, and the triangle 1 has the
    id 17 of the first contact node. *)
Lemma entity_id_collision :
  SkinBlocks wide_id_mesh [1] 23
  = Some ([[0; 3; 2; 1]; [0; 1; 5; 4]; [0; 4; 7; 3]; [1; 2; 6; 5]; [2; 3; 7; 6];
           [4; 5; 6; 7]; [8; 11; 10; 9]; [8; 9; 13; 12]; [8; 12; 15; 11];
           [9; 10; 14; 13]; [10; 11; 15; 14]; [12; 13; 14; 15]],
          [16; 0; 12; 4; 8; 20; 16; 0; 12; 4; 8; 20])
  /\ packed_entity_id (134217704 + 1) 23 4 0 = packed_entity_id (268435432 + 1) 23 4 0
  /\ exists cm,
       CreateContactEntities wide_id_mesh serial_run [1] [2] = Some cm
       /\ contact_entity_global_id_ <$> contact_faces_ cm !! 0%nat = Some 16
       /\ contact_entity_global_id_ <$> contact_faces_ cm !! 24%nat = Some 16
       /\ contact_entity_global_id_ <$> contact_faces_ cm !! 1%nat = Some 17
       /\ contact_entity_global_id_ <$> contact_nodes_ cm !! 0%nat = Some 17.
Proof.
  split; [vm_compute; reflexivity|]. split; [vm_compute; reflexivity|].
  destruct (CreateContactEntities wide_id_mesh serial_run [1] [2]) as [cm|] eqn:E.
  - exists cm. split; [reflexivity|].
    vm_compute in E. injection E as <-. vm_compute. repeat split.
  - vm_compute in E. discriminate.
Qed.

End EntityIdFacts.

(** ** What the construction of the submodel establishes *)

Module ConstructionFacts.
Import Skin SkinFacts Submodel Manager.
Local Open Scope Z_scope.

Lemma elem_of_set_insert (x z : Z) (s : list Z) :
  z ∈ set_insert x s <-> z = x \/ z ∈ s.
Proof.
  induction s as [|y s IH]; simpl.
  - rewrite list_elem_of_singleton, elem_of_nil. tauto.
  - destruct (Z.compare_spec x y) as [->|H|H].
    + rewrite elem_of_cons. tauto.
    + rewrite !elem_of_cons. tauto.
    + rewrite !elem_of_cons, IH. tauto.
Qed.

Lemma set_insert_sorted (x : Z) (s : list Z) :
  StronglySorted Z.lt s -> StronglySorted Z.lt (set_insert x s).
Proof.
  induction 1 as [|y s Hs IH Hy]; simpl.
  - repeat constructor.
  - destruct (Z.compare_spec x y) as [->|H|H].
    + constructor; assumption.
    + constructor; [constructor; assumption|].
      constructor; [exact H|]. eapply Forall_impl; [exact Hy|]. simpl. intros; lia.
    + constructor; [exact IH|].
      apply Forall_forall. intros z Hz. apply elem_of_set_insert in Hz as [->|Hz].
      * exact H.
      * rewrite Forall_forall in Hy. auto.
Qed.

Lemma insert_faces_sorted (faces : list (list Z)) :
  forall s, StronglySorted Z.lt s -> StronglySorted Z.lt (insert_faces s faces).
Proof.
  unfold insert_faces. induction faces as [|face faces IH]; intros s Hs; [exact Hs|].
  cbn [fold_left]. apply IH. clear IH. revert s Hs.
  induction face as [|id face IH]; intros s Hs; [exact Hs|].
  cbn [fold_left]. apply IH, set_insert_sorted, Hs.
Qed.

Lemma sorted_NoDup (s : list Z) : StronglySorted Z.lt s -> NoDup s.
Proof.
  induction 1 as [|y s Hs IH Hy]; constructor; [|exact IH].
  intros Hin. rewrite Forall_forall in Hy. specialize (Hy y Hin). lia.
Qed.

Lemma length_initial_coord (mesh : GenesisMesh) (node_ids_ : list Z) :
  length (initial_coord mesh node_ids_) = (3 * length node_ids_)%nat.
Proof.
  unfold initial_coord. induction node_ids_ as [|n ns IH]; [reflexivity|].
  cbn [flat_map length app]. rewrite IH. lia.
Qed.

(** After [CreateContactEntities] the mesh nodes of the submodel are listed in
    strictly increasing order, so without repetition, and [model_coord_],
    [coord_] and [force_] hold three entries per node. *)
Lemma CreateContactEntities_invariants (mesh : GenesisMesh) (env : Environment)
    (primary_block_ids secondary_block_ids : list Z) (cm : ContactManager) :
  CreateContactEntities mesh env primary_block_ids secondary_block_ids = Some cm ->
  StronglySorted Z.lt (node_ids_ cm)
  /\ NoDup (node_ids_ cm)
  /\ length (model_coord_ cm) = (3 * length (node_ids_ cm))%nat
  /\ length (coord_ cm) = (3 * length (node_ids_ cm))%nat
  /\ length (force_ cm) = (3 * length (node_ids_ cm))%nat.
Proof.
  intros Hcm.
  destruct (EntityIdFacts.CreateContactEntities_stages _ _ _ _ _ Hcm)
    as (pskin & pids & sskin & sids & pfaces & sfaces & _ & _ & Hrest).
  cbn zeta in Hrest. destruct Hrest as (Hn & _ & _ & Hc & Hm & Hf & _).
  assert (Hs : StronglySorted Z.lt (node_ids_ cm)).
  { rewrite Hn. unfold collect_node_ids.
    apply insert_faces_sorted, insert_faces_sorted. constructor. }
  split; [exact Hs|]. split; [apply sorted_NoDup; exact Hs|].
  rewrite Hm, Hc, Hf, length_initial_coord, length_resize. auto.
Qed.

Lemma CreateContactEntities_invariants_witness :
  exists cm,
    CreateContactEntities SkinFacts.two_hex_mesh EntityIdFacts.serial_run [1] [1] = Some cm
    /\ NoDup (node_ids_ cm)
    /\ length (coord_ cm) = (3 * length (node_ids_ cm))%nat.
Proof.
  destruct (CreateContactEntities SkinFacts.two_hex_mesh EntityIdFacts.serial_run [1] [1])
    as [cm|] eqn:E.
  - exists cm. split; [reflexivity|].
    pose proof (CreateContactEntities_invariants _ _ _ _ _ E) as H.
    split; [exact (proj1 (proj2 H))|exact (proj1 (proj2 (proj2 (proj2 H))))].
  - vm_compute in E. discriminate.
Defined.

Lemma sorted_insert_perm (x : Z) (l : list Z) : sorted_insert x l ≡ₚ x :: l.
Proof.
  induction l as [|y l IH]; [reflexivity|]. simpl.
  destruct (x <=? y); [reflexivity|]. rewrite IH. apply Permutation_swap.
Qed.

Lemma std_sort_perm (l : list Z) : std_sort l ≡ₚ l.
Proof.
  induction l as [|x l IH]; [reflexivity|].
  unfold std_sort in *. cbn [fold_right]. rewrite sorted_insert_perm, IH. reflexivity.
Qed.

Lemma sorted_insert_sorted (x : Z) (l : list Z) :
  StronglySorted Z.le l -> StronglySorted Z.le (sorted_insert x l).
Proof.
  induction 1 as [|y l Hs IH Hy]; simpl.
  - repeat constructor.
  - destruct (Z.leb_spec x y) as [H|H].
    + constructor; [constructor; assumption|].
      constructor; [exact H|]. eapply Forall_impl; [exact Hy|]. simpl. intros; lia.
    + constructor; [exact IH|].
      rewrite sorted_insert_perm. constructor; [lia|exact Hy].
Qed.

Lemma std_sort_sorted (l : list Z) : StronglySorted Z.le (std_sort l).
Proof.
  induction l as [|x l IH]; [constructor|].
  unfold std_sort in *. cbn [fold_right]. apply sorted_insert_sorted, IH.
Qed.

(** [std::sort] depends on the elements only, not on their order. *)
Lemma std_sort_perm_eq (l1 l2 : list Z) : l1 ≡ₚ l2 -> std_sort l1 = std_sort l2.
Proof.
  intros H. apply (StronglySorted_unique Z.le); try apply std_sort_sorted.
  rewrite !std_sort_perm. exact H.
Qed.

Lemma fmap_inj_on (g : Z -> Z) (l1 : list Z) :
  forall l3 : list Z,
  (forall a b, a ∈ l1 -> b ∈ l3 -> g a = g b -> a = b) ->
  g <$> l1 = g <$> l3 -> l1 = l3.
Proof.
  induction l1 as [|a l1 IH]; intros [|b l3] Hinj Heq; try discriminate; [reflexivity|].
  rewrite !fmap_cons in Heq. injection Heq as Hab Heq.
  f_equal.
  - apply Hinj; [left|left|exact Hab].
  - apply IH; [|exact Heq]. intros a' b' Ha Hb. apply Hinj; right; assumption.
Qed.

Lemma perm_fmap_inj_on (g : Z -> Z) (l1 l2 : list Z) :
  (forall a b, a ∈ l1 -> b ∈ l2 -> g a = g b -> a = b) ->
  g <$> l1 ≡ₚ g <$> l2 -> l1 ≡ₚ l2.
Proof.
  intros Hinj Hperm.
  apply Permutation_map_inv in Hperm as (l3 & Heq & Hperm).
  rewrite (fmap_inj_on g l1 l3); [symmetry; exact Hperm| |exact Heq].
  intros a b Ha Hb. apply Hinj; [exact Ha|]. rewrite Hperm. exact Hb.
Qed.

(** On a face of four nodes [fvec] is the sorted list of the global ids. *)
Lemma face_fvec_quad (gids face : list Z) :
  length face = 4%nat ->
  Dedup.face_fvec gids face = std_sort ((fun n => nth (Z.to_nat n) gids 0) <$> face).
Proof.
  destruct face as [|a [|b [|c [|d [|e face]]]]]; try discriminate. intros _. reflexivity.
Qed.

(** [genesis_node_global_ids[n]]. *)
Definition global_id (mesh : GenesisMesh) (n : Z) : Z :=
  nth (Z.to_nat n) (GetNodeGlobalIds mesh) 0.

(** The faces [SkinBlocks] returns enter [RemoveInternalSkinFaces] with
    pairwise distinct sorted quadruples of global node ids, as soon as the
    nodes of the skin have distinct global ids, and with as many entity ids as
    faces. *)
Lemma SkinBlocks_distinct_quadruples (mesh : GenesisMesh) (block_ids : list Z)
    (entity_id_offset : Z) (skin_faces : list (list Z)) (entity_ids : list Z) :
  SkinBlocks mesh block_ids entity_id_offset = Some (skin_faces, entity_ids) ->
  (forall a b, a ∈ concat skin_faces -> b ∈ concat skin_faces ->
     global_id mesh a = global_id mesh b -> a = b) ->
  DedupFacts.distinct_quadruples (GetNodeGlobalIds mesh) skin_faces
  /\ length entity_ids = length skin_faces.
Proof.
  intros Hskin Hinj.
  destruct (SkinBlocks_pairs mesh block_ids entity_id_offset) as [Hok Habort].
  destruct (decide (Forall (fun f => (occurrences (face_key f) (all_faces mesh block_ids)
                                      <= 2)%nat) (all_faces mesh block_ids)))
    as [Hle|Hnle].
  2:{ pose proof (not_Forall_Exists
                  (fun f => (occurrences (face_key f) (all_faces mesh block_ids) <= 2)%nat)
                  _ Hnle) as Hex.
      rewrite Habort in Hskin; [discriminate|].
      eapply Exists_impl; [exact Hex|]. simpl. intros f Hf. lia. }
  destruct (Hok Hle) as (out & Hout & Hout_perm). rewrite Hout in Hskin.
  injection Hskin as <- <-. split; [|rewrite !length_fmap; reflexivity].
  assert (Hperm : out.*1 ≡ₚ hf_nodes <$> boundary_faces (all_faces mesh block_ids)).
  { rewrite Hout_perm, <- list_fmap_compose. reflexivity. }
  set (skin_faces := out.*1) in *.
  assert (Hquad : forall face, face ∈ skin_faces -> length face = 4%nat).
  { intros face Hin. rewrite Hperm in Hin.
    apply list_elem_of_fmap in Hin as (f & -> & Hf).
    apply list_elem_of_filter in Hf as [_ Hf].
    apply (EntityIdFacts.all_faces_elem _ _ _ Hf). }
  assert (Hnd : NoDup (std_sort <$> skin_faces)).
  { rewrite Hperm, <- list_fmap_compose.
    apply (NoDup_keys_filter
             (fun f => occurrences (face_key f) (all_faces mesh block_ids) = 1%nat)).
    intros f Hf. lia. }
  intros i j Hi Hj Heq. unfold DedupFacts.own_quadruple in Heq.
  destruct (lookup_lt_is_Some_2 skin_faces i Hi) as [fi Hfi].
  destruct (lookup_lt_is_Some_2 skin_faces j Hj) as [fj Hfj].
  rewrite (nth_lookup_Some _ _ _ _ Hfi), (nth_lookup_Some _ _ _ _ Hfj) in Heq.
  assert (Hini : fi ∈ skin_faces) by (eapply list_elem_of_lookup_2; eauto).
  assert (Hinj' : fj ∈ skin_faces) by (eapply list_elem_of_lookup_2; eauto).
  rewrite !face_fvec_quad in Heq by auto.
  assert (Hp : fi ≡ₚ fj).
  { apply (perm_fmap_inj_on (global_id mesh)).
    - intros a b Ha Hb. apply Hinj; apply list_elem_of_In, in_concat;
        [exists fi|exists fj]; split; apply list_elem_of_In; assumption.
    - rewrite <- (std_sort_perm (global_id mesh <$> fi)),
              <- (std_sort_perm (global_id mesh <$> fj)).
      unfold global_id. rewrite Heq. reflexivity. }
  apply std_sort_perm_eq in Hp.
  eapply (NoDup_lookup _ i j); [exact Hnd| |].
  - rewrite list_lookup_fmap, Hfi. reflexivity.
  - rewrite list_lookup_fmap, Hfj, Hp. reflexivity.
Qed.

(** On the two glued hexahedra: ten skin faces, with distinct quadruples. *)
Lemma SkinBlocks_distinct_quadruples_witness :
  exists skin_faces entity_ids,
    SkinBlocks two_hex_mesh [1] 11 = Some (skin_faces, entity_ids)
    /\ length skin_faces = 10%nat
    /\ DedupFacts.distinct_quadruples (GetNodeGlobalIds two_hex_mesh) skin_faces
    /\ length entity_ids = length skin_faces.
Proof.
  destruct (SkinBlocks two_hex_mesh [1] 11) as [[skin_faces entity_ids]|] eqn:E;
    [|vm_compute in E; discriminate].
  exists skin_faces, entity_ids. split; [reflexivity|].
  split; [vm_compute in E; injection E as <- <-; reflexivity|].
  apply (SkinBlocks_distinct_quadruples two_hex_mesh [1] 11 _ _ E).
  vm_compute in E. injection E as <- <-.
  assert (Hid : forall a, a ∈ [0; 1; 2; 3; 4; 5; 6; 7; 8; 9; 10; 11] ->
                          global_id two_hex_mesh a = a).
  { intros a Ha. repeat (apply elem_of_cons in Ha as [->|Ha]; [reflexivity|]).
    inversion Ha. }
  assert (Hnode : forall (a : Z) (l : list Z),
             a ∈ l -> Forall (fun n => 0 <= n <= 11) l ->
             a ∈ [0; 1; 2; 3; 4; 5; 6; 7; 8; 9; 10; 11]).
  { intros a l Ha Hall. rewrite Forall_forall in Hall. specialize (Hall a Ha).
    assert (Hn : a = 0 \/ a = 1 \/ a = 2 \/ a = 3 \/ a = 4 \/ a = 5 \/ a = 6
                 \/ a = 7 \/ a = 8 \/ a = 9 \/ a = 10 \/ a = 11) by lia.
    repeat (destruct Hn as [->|Hn]; [solve [repeat constructor]|]).
    subst a. repeat constructor. }
  intros a b Ha Hb.
  rewrite (Hid a), (Hid b); [auto| |];
    (eapply Hnode; [eassumption|]); cbn [concat app]; repeat (constructor; [lia|]);
    constructor.
Defined.

End ConstructionFacts.

(** ** The contact entities and the skin they come from *)

Module SubmodelFacts.
Import Skin SkinFacts Submodel Manager.
Local Open Scope Z_scope.

Lemma insert_face_elem (face : list Z) :
  forall (s : list Z) (n : Z),
  n ∈ fold_left (fun s id => set_insert id s) face s <-> n ∈ s \/ n ∈ face.
Proof.
  induction face as [|id face IH]; intros s n; cbn [fold_left].
  - rewrite elem_of_nil. tauto.
  - rewrite IH, ConstructionFacts.elem_of_set_insert, elem_of_cons. tauto.
Qed.

Lemma insert_faces_elem (faces : list (list Z)) :
  forall (s : list Z) (n : Z),
  n ∈ insert_faces s faces <-> n ∈ s \/ exists face, face ∈ faces /\ n ∈ face.
Proof.
  unfold insert_faces.
  induction faces as [|face faces IH]; intros s n; cbn [fold_left].
  - split; [auto|]. intros [H|(face & H & _)]; [exact H|inversion H].
  - rewrite IH, insert_face_elem. split.
    + intros [[H|H]|(face' & Hf & Hn)]; [auto| |].
      * right. exists face. split; [left|exact H].
      * right. exists face'. split; [right; exact Hf|exact Hn].
    + intros [H|(face' & Hf & Hn)]; [auto|].
      apply elem_of_cons in Hf as [->|Hf]; [auto|]. right. eauto.
Qed.

(** The nodes of the submodel are the nodes of the skin faces. *)
Lemma collect_node_ids_elem (pf sf : list (list Z)) (n : Z) :
  n ∈ collect_node_ids pf sf
  <-> exists face, (face ∈ pf \/ face ∈ sf) /\ n ∈ face.
Proof.
  unfold collect_node_ids. rewrite !insert_faces_elem, elem_of_nil. split.
  - intros [[[]|(face & Hf & Hn)]|(face & Hf & Hn)]; eauto.
  - intros (face & [Hf|Hf] & Hn); eauto.
Qed.

Definition submodel_id_map_upto (node_ids_ : list Z) (k : nat) : StdMap.t (K:=Z) (V:=Z) :=
  fold_left
    (fun m i_node =>
       StdMap.insert Z.compare (nth i_node node_ids_ 0%Z) (Z.of_nat i_node) m)
    (seq 0 k) [].

Lemma submodel_id_map_upto_find (node_ids_ : list Z) (k : nat) :
  NoDup node_ids_ -> (k <= length node_ids_)%nat ->
  forall n m,
    StdMap.find Z.compare n (submodel_id_map_upto node_ids_ k) = Some m
    <-> exists i, (i < k)%nat /\ node_ids_ !! i = Some n /\ m = Z.of_nat i.
Proof.
  intros Hnd. induction k as [|k IH]; intros Hk n m.
  - cbn. split; [discriminate|]. intros (i & Hi & _). lia.
  - specialize (IH ltac:(lia)). unfold submodel_id_map_upto in *.
    rewrite seq_S, fold_left_app. cbn [fold_left Nat.add].
    destruct (lookup_lt_is_Some_2 node_ids_ k ltac:(lia)) as [nk Hnk].
    rewrite (nth_lookup_Some _ _ _ _ Hnk).
    destruct (decide (n = nk)) as [->|Hne].
    + rewrite (StdMapFacts.find_insert _ Z_compare_eq). split.
      * intros E. injection E as <-. exists k. split; [lia|]. auto.
      * intros (i & Hi & Hin & ->). f_equal. f_equal.
        symmetry. eapply NoDup_lookup; eauto.
    + rewrite (StdMapFacts.find_insert_ne _ Z_compare_eq) by exact Hne.
      rewrite IH. split; intros (i & Hi & Hin & ->); exists i; (split; [|auto]); [lia|].
      destruct (decide (i = k)) as [->|]; [congruence|lia].
Qed.

(** Round trip of the renumbering: the submodel id found for a mesh node is
    its place in [node_ids_]. *)
Lemma submodel_id_map_find (node_ids_ : list Z) (n m : Z) :
  NoDup node_ids_ ->
  StdMap.find Z.compare n (submodel_id_map node_ids_) = Some m
  <-> exists i, node_ids_ !! i = Some n /\ m = Z.of_nat i.
Proof.
  intros Hnd.
  rewrite (submodel_id_map_upto_find node_ids_ (length node_ids_) Hnd (le_n _)).
  split; intros (i & H); exists i; [tauto|].
  destruct H as [Hi ->]. split; [eapply lookup_lt_Some; eauto|auto].
Qed.

Lemma collect_node_ids_NoDup (pf sf : list (list Z)) : NoDup (collect_node_ids pf sf).
Proof.
  apply ConstructionFacts.sorted_NoDup. unfold collect_node_ids.
  apply ConstructionFacts.insert_faces_sorted, ConstructionFacts.insert_faces_sorted.
  constructor.
Qed.

(** The renumbering never misses a node: [.at] does not throw. *)
Lemma renumber_total (pf sf faces : list (list Z)) :
  (forall face, face ∈ faces -> face ∈ pf \/ face ∈ sf) ->
  exists faces',
    renumber (submodel_id_map (collect_node_ids pf sf)) faces = Some faces'
    /\ Forall2 (Forall2 (fun n m =>
                  0 <= m
                  /\ collect_node_ids pf sf !! Z.to_nat m = Some n))
               faces faces'.
Proof.
  intros Hsub. unfold renumber.
  assert (Hsome : is_Some (mapM (mapM (fun n => StdMap.find Z.compare n
                             (submodel_id_map (collect_node_ids pf sf)))) faces)).
  { apply mapM_is_Some, Forall_forall. intros face Hface.
    apply mapM_is_Some, Forall_forall. intros n Hn. cbn.
    assert (Hin : n ∈ collect_node_ids pf sf).
    { apply collect_node_ids_elem. exists face. split; [apply Hsub, Hface|exact Hn]. }
    apply list_elem_of_lookup_1 in Hin as [i Hi].
    exists (Z.of_nat i). apply submodel_id_map_find; [apply collect_node_ids_NoDup|]. eauto. }
  destruct Hsome as [faces' Hf]. exists faces'. split; [exact Hf|].
  apply mapM_Some_1 in Hf. eapply Forall2_impl; [exact Hf|].
  intros face face' Hm. apply mapM_Some_1 in Hm.
  eapply Forall2_impl; [exact Hm|]. cbn. intros n m Hfind.
  apply submodel_id_map_find in Hfind as (i & Hi & ->); [|apply collect_node_ids_NoDup].
  split; [lia|]. rewrite Nat2Z.id. exact Hi.
Qed.


Lemma SkinBlocks_quads (mesh : GenesisMesh) (block_ids : list Z) (entity_id_offset : Z)
    (skin_faces : list (list Z)) (entity_ids : list Z) :
  SkinBlocks mesh block_ids entity_id_offset = Some (skin_faces, entity_ids) ->
  Forall (fun face => length face = 4%nat) skin_faces
  /\ length entity_ids = length skin_faces.
Proof.
  intros Hskin. destruct (EntityIdFacts.SkinBlocks_ids _ _ _ _ _ Hskin) as [Hlen Hids].
  split; [|exact Hlen]. apply Forall_forall. intros face Hface.
  apply list_elem_of_lookup_1 in Hface as [j Hj].
  destruct (lookup_lt_is_Some_2 entity_ids j) as [id Hid].
  { rewrite Hlen. eapply lookup_lt_Some; eauto. }
  destruct (Hids j id Hid) as (f & Hf & Hjf & _).
  rewrite Hj in Hjf. injection Hjf as ->.
  apply list_elem_of_filter in Hf as [_ Hf].
  apply (EntityIdFacts.all_faces_elem _ _ _ Hf).
Qed.

Lemma RemoveInternalSkinFaces_subset (genesis_node_global_ids : list Z)
    (faces : list (list Z)) (entity_ids : list Z) (received : list (list Z)) (face : list Z) :
  face ∈ fst (Dedup.RemoveInternalSkinFaces genesis_node_global_ids faces entity_ids
                received) ->
  face ∈ faces.
Proof.
  unfold Dedup.RemoveInternalSkinFaces. destruct (_ =? _)%nat; cbn [fst]; [auto|].
  apply EntityIdFacts.elem_of_compact.
Qed.

(** The secondary nodes collected always make contact nodes: neither [.at]
    throws. *)
Lemma create_nodes_total (genesis_node_global_ids node_ids_ ghosted : list Z)
    (coord_ coord' : list float) (faces : list (list Z)) :
  let sec := collect_secondary_nodes genesis_node_global_ids node_ids_ ghosted coord_ faces in
  is_Some (create_nodes coord' (secondary_node_ids sec) (secondary_node_entity_ids sec)
             (secondary_node_char_lens sec)).
Proof.
  intros sec.
  destruct (SecondaryFacts.collect_secondary_nodes_collected genesis_node_global_ids
              node_ids_ ghosted coord_ faces) as [_ _ Hids _ Hlen].
  fold sec in Hids, Hlen.
  unfold create_nodes. apply mapM_is_Some, Forall_forall. intros i Hi. cbn.
  apply list_elem_of_In, in_seq in Hi.
  destruct (lookup_lt_is_Some_2 (secondary_node_ids sec) i ltac:(lia)) as [n Hn].
  rewrite Hn, (Hids i n Hn). cbn [mbind option_bind].
  destruct (Hlen n) as (len & Hfind & _); [eapply list_elem_of_lookup_2; eauto|].
  rewrite Hfind. cbn. eauto.
Qed.

(** The construction of the submodel fails only when the skinning of the
    primary or of the secondary blocks aborts: no lookup made afterwards
    throws, and every face that reaches the triangulation has four nodes. *)
Theorem CreateContactEntities_fails_only_in_skinning (mesh : GenesisMesh)
    (env : Environment) (primary_block_ids secondary_block_ids : list Z) :
  let offset := allreduce_max env (GetMaxNodeGlobalId mesh) in
  CreateContactEntities mesh env primary_block_ids secondary_block_ids = None
  <-> SkinBlocks mesh primary_block_ids offset = None
      \/ SkinBlocks mesh secondary_block_ids offset = None.
Proof.
  intros offset. unfold CreateContactEntities. fold offset.
  destruct (SkinBlocks mesh primary_block_ids offset) as [[pskin pids]|] eqn:Hp;
    [|cbn; tauto].
  destruct (SkinBlocks mesh secondary_block_ids offset) as [[sskin sids]|] eqn:Hs;
    [|cbn; tauto].
  cbn [mbind option_bind].
  split; [|intros [H|H]; discriminate]. intros H. exfalso.
  destruct (SkinBlocks_quads _ _ _ _ _ Hp) as [Hpq Hpl].
  pose proof (RemoveInternalSkinFaces_subset (GetNodeGlobalIds mesh) pskin pids
                (received_primary env)) as Hpsub.
  destruct (Dedup.RemoveInternalSkinFaces (GetNodeGlobalIds mesh) pskin pids
              (received_primary env)) as [pf pi].
  destruct (Dedup.RemoveInternalSkinFaces (GetNodeGlobalIds mesh) sskin sids
              (received_secondary env)) as [sf si].
  cbn [fst] in Hpsub.
  destruct (renumber_total pf sf pf ltac:(auto)) as (pfaces & Hrp & Hpren).
  destruct (renumber_total pf sf sf ltac:(auto)) as (sfaces & Hrs & _).
  rewrite Hrp, Hrs in H. cbn [mbind option_bind] in H.
  assert (Hquads : Forall (fun face => length face = 4%nat) pfaces).
  { apply Forall_forall. intros face' Hface'.
    apply list_elem_of_lookup_1 in Hface' as [j Hj].
    destruct (Forall2_lookup_r _ _ _ _ _ Hpren Hj) as (face & Hface & Hren).
    rewrite <- (Forall2_length _ _ _ Hren).
    rewrite Forall_forall in Hpq. apply Hpq, Hpsub.
    eapply list_elem_of_lookup_2; eauto. }
  unfold CreateContactNodesAndFaces in H.
  rewrite (TriangulationFacts.create_faces_quads _ _ _ _ _ Hquads) in H.
  cbn [mbind option_bind] in H.
  match type of H with
  | context [create_nodes ?c (secondary_node_ids (collect_secondary_nodes ?g ?n ?gh ?c0 ?fs))
               _ _] =>
      destruct (create_nodes_total g n gh c0 c fs) as [cn Hcn]
  end.
  cbn zeta in Hcn. rewrite Hcn in H. discriminate.
Qed.


(** The point of the mesh node [n]. *)
Definition mesh_point (mesh : GenesisMesh) (n : Z) : double3 :=
  D3 (rd (GetCoordinatesX mesh) n) (rd (GetCoordinatesY mesh) n)
     (rd (GetCoordinatesZ mesh) n).

Lemma initial_coord_node (mesh : GenesisMesh) (node_ids_ : list Z) (i : nat) (n : Z) :
  node_ids_ !! i = Some n ->
  node_coord (initial_coord mesh node_ids_) (Z.of_nat i) = mesh_point mesh n.
Proof.
  revert i. induction node_ids_ as [|n0 ns IH]; intros i Hi; [discriminate|].
  destruct i as [|i].
  - injection Hi as ->. reflexivity.
  - change (ns !! i = Some n) in Hi. rewrite <- (IH i Hi).
    unfold node_coord, rd, initial_coord. cbn [flat_map app].
    replace (Z.to_nat (3 * Z.of_nat (S i))) with (3 + Z.to_nat (3 * Z.of_nat i))%nat by lia.
    replace (Z.to_nat (3 * Z.of_nat (S i) + 1))
      with (3 + Z.to_nat (3 * Z.of_nat i + 1))%nat by lia.
    replace (Z.to_nat (3 * Z.of_nat (S i) + 2))
      with (3 + Z.to_nat (3 * Z.of_nat i + 2))%nat by lia.
    reflexivity.
Qed.

(** The faces and ids left by the deduplication are pairs of the input. *)
Lemma RemoveInternalSkinFaces_pairs (genesis_node_global_ids : list Z)
    (faces : list (list Z)) (entity_ids : list Z) (received : list (list Z)) :
  length entity_ids = length faces ->
  let out := Dedup.RemoveInternalSkinFaces genesis_node_global_ids faces entity_ids
               received in
  forall q face id,
    fst out !! q = Some face -> snd out !! q = Some id ->
    exists i, faces !! i = Some face /\ entity_ids !! i = Some id.
Proof.
  intros Hlen out q face id Hf Hi.
  assert (Hin : (face, id) ∈ zip faces entity_ids).
  { subst out. unfold Dedup.RemoveInternalSkinFaces in Hf, Hi.
    destruct (_ =? _)%nat; cbn [fst snd] in Hf, Hi.
    - apply (list_elem_of_lookup_2 _ q). rewrite lookup_zip_with, Hf. cbn. rewrite Hi.
      reflexivity.
    - unfold Dedup.exchange_marks in Hi.
      rewrite EntityIdFacts.hashes_same in Hi by (cbn; rewrite Hlen; reflexivity).
      eapply EntityIdFacts.elem_of_compact. rewrite DedupFacts.compact_zip.
      apply (list_elem_of_lookup_2 _ q). rewrite lookup_zip_with.
      unfold Dedup.exchange_marks in Hf. rewrite Hf. cbn. rewrite Hi. reflexivity. }
  apply list_elem_of_lookup_1 in Hin as [i Hi'].
  rewrite lookup_zip_with in Hi'. exists i.
  destruct (faces !! i) as [face'|]; [|discriminate]. cbn in Hi'.
  destruct (entity_ids !! i) as [id'|]; [|discriminate]. cbn in Hi'.
  injection Hi' as -> ->. auto.
Qed.


(** Every contact face is a triangle of a boundary face of the primary
    blocks: the triangle number [j mod 4] of the quadrilateral number [j / 4]
    stands on the mesh points of two consecutive nodes of that face and on the
    mean of its four nodes, carries the packed id of the face with its own
    ordinal, and names its nodes by their places in [node_ids_]. *)
Theorem contact_faces_on_skin (mesh : GenesisMesh) (env : Environment)
    (primary_block_ids secondary_block_ids : list Z) (cm : ContactManager) :
  CreateContactEntities mesh env primary_block_ids secondary_block_ids = Some cm ->
  let offset := allreduce_max env (GetMaxNodeGlobalId mesh) in
  forall j e,
    contact_faces_ cm !! j = Some e ->
    exists (f : hex_face) (n0 n1 n2 n3 m0 m1 m2 m3 : Z),
      f ∈ boundary_faces (all_faces mesh primary_block_ids)
      /\ hf_nodes f = [n0; n1; n2; n3]
      /\ Forall2 (fun n m => 0 <= m
                             /\ node_ids_ cm !! Z.to_nat m = Some n
                             /\ node_coord (coord_ cm) m = mesh_point mesh n)
                  [n0; n1; n2; n3] [m0; m1; m2; m3]
      /\ let k := (j mod 4)%nat in
         let k' := ((k + 1) mod 4)%nat in
         e = triangle_entity
               (EntityIdFacts.packed_entity_id (hf_elem f) offset (hf_ordinal f) (Z.of_nat k))
               (Z.of_nat j)
               (mesh_point mesh (nth k [n0; n1; n2; n3] 0))
               (mesh_point mesh (nth k' [n0; n1; n2; n3] 0))
               (TriangulationFacts.mean_of_four (coord_ cm) m0 m1 m2 m3)
               (running_max lowest
                  (TriangulationFacts.quad_edge_lengths (coord_ cm) m0 m1 m2 m3))
               (nth k [m0; m1; m2; m3] 0) (nth k' [m0; m1; m2; m3] 0)
               [m0; m1; m2; m3].
Proof.
  intros Hcm offset j e Hj.
  destruct (EntityIdFacts.CreateContactEntities_stages _ _ _ _ _ Hcm)
    as (pskin & pids & sskin & sids & pfaces & sfaces & Hp & Hs & Hrest).
  fold offset in Hp, Hs. cbn zeta in Hrest.
  destruct Hrest as (Hnodes & Hrp & _ & Hcoord & _ & _ & Hc).
  destruct (EntityIdFacts.SkinBlocks_ids _ _ _ _ _ Hp) as [Hlen Hids].
  destruct (SkinBlocks_quads _ _ _ _ _ Hp) as [Hpq _].
  pose proof (RemoveInternalSkinFaces_pairs (GetNodeGlobalIds mesh) pskin pids
                (received_primary env) Hlen) as Hpairs.
  pose proof (EntityIdFacts.RemoveInternalSkinFaces_ids (GetNodeGlobalIds mesh) pskin pids
                (received_primary env) Hlen) as [Hdl _].
  pose proof (RemoveInternalSkinFaces_subset (GetNodeGlobalIds mesh) pskin pids
                (received_primary env)) as Hpsub.
  cbn zeta in Hpairs, Hdl.
  set (pd := Dedup.RemoveInternalSkinFaces (GetNodeGlobalIds mesh) pskin pids
               (received_primary env)) in *.
  set (sd := Dedup.RemoveInternalSkinFaces (GetNodeGlobalIds mesh) sskin sids
               (received_secondary env)) in *.
  destruct (renumber_total (fst pd) (fst sd) (fst pd) ltac:(auto)) as (pfaces' & Hrp' & Hren).
  rewrite <- Hnodes in Hrp', Hren. rewrite Hrp in Hrp'. injection Hrp' as <-.
  assert (Hquads : Forall (fun face => length face = 4%nat) pfaces).
  { apply Forall_forall. intros face' Hface'.
    apply list_elem_of_lookup_1 in Hface' as [i Hi].
    destruct (Forall2_lookup_r _ _ _ _ _ Hren Hi) as (face & Hface & Hrf).
    rewrite <- (Forall2_length _ _ _ Hrf).
    rewrite Forall_forall in Hpq. apply Hpq, Hpsub.
    eapply list_elem_of_lookup_2; eauto. }
  unfold CreateContactNodesAndFaces in Hc.
  rewrite (TriangulationFacts.create_faces_quads _ _ _ _ _ Hquads) in Hc.
  cbn [mbind option_bind] in Hc.
  match type of Hc with
  | context [create_nodes ?c ?a ?b ?d] =>
      destruct (create_nodes c a b d) as [cn|]; [|discriminate]
  end.
  cbn [mbind option_bind] in Hc. injection Hc as _ Hcf.
  match type of Hcf with concat ?l = _ => set (quads := l) in * end.
  assert (Hfour : Forall (fun l : list ContactEntity => length l = 4%nat) quads).
  { apply Forall_forall. intros l Hl.
    apply list_elem_of_lookup in Hl as [i Hl]. subst quads.
    rewrite list_lookup_imap in Hl.
    destruct (pfaces !! i); simpl in Hl; [|discriminate].
    injection Hl as <-. reflexivity. }
  assert (Hjlt : (j < 4 * length pfaces)%nat).
  { apply lookup_lt_Some in Hj. rewrite <- Hcf in Hj.
    rewrite (TriangulationFacts.length_concat_four _ Hfour) in Hj.
    subst quads. rewrite length_imap in Hj. exact Hj. }
  pose proof (Nat.div_mod_eq j 4) as Hjdm.
  pose proof (Nat.mod_upper_bound j 4 ltac:(lia)) as Hk.
  set (q := (j / 4)%nat) in *. set (k := (j mod 4)%nat) in *.
  destruct (lookup_lt_is_Some_2 pfaces q ltac:(lia)) as [pface Hpface].
  destruct (Forall2_lookup_r _ _ _ _ _ Hren Hpface) as (face & Hface & Hrf).
  pose proof (Forall2_length _ _ _ Hren) as Hlenren.
  destruct (lookup_lt_is_Some_2 (snd pd) q ltac:(lia)) as [id Hid].
  destruct (Hpairs q face id Hface Hid) as (i & Hi & Hii).
  destruct (Hids i id Hii) as (f & Hf & Hif & Hpacked).
  rewrite Hi in Hif. injection Hif as Hfacef.
  assert (Hl4 : length pface = 4%nat).
  { rewrite Forall_forall in Hquads. apply Hquads. eapply list_elem_of_lookup_2; eauto. }
  pose proof (Forall2_length _ _ _ Hrf) as Hl4'.
  destruct pface as [|m0 [|m1 [|m2 [|m3 [|m4 pface]]]]]; try discriminate.
  destruct face as [|n0 [|n1 [|n2 [|n3 [|n4 face]]]]]; try discriminate.
  exists f, n0, n1, n2, n3, m0, m1, m2, m3.
  split; [exact Hf|]. split; [symmetry; exact Hfacef|].
  assert (Hpts : Forall2 (fun n m => 0 <= m
                             /\ node_ids_ cm !! Z.to_nat m = Some n
                             /\ node_coord (coord_ cm) m = mesh_point mesh n)
                   [n0; n1; n2; n3] [m0; m1; m2; m3]).
  { eapply Forall2_impl; [exact Hrf|]. cbn. intros n m [Hm Hn].
    split; [exact Hm|]. split; [exact Hn|].
    rewrite Hcoord. replace m with (Z.of_nat (Z.to_nat m)) by lia.
    apply initial_coord_node. exact Hn. }
  split; [exact Hpts|].
  assert (Hquad : quads !! q
                  = Some (TriangulationFacts.four_triangles (coord_ cm) [m0; m1; m2; m3]
                            id (4 * Z.of_nat q))).
  { subst quads. rewrite list_lookup_imap, Hpface. cbn.
    rewrite (nth_lookup_Some _ _ _ _ Hid). reflexivity. }
  rewrite <- Hcf, Hjdm in Hj.
  rewrite (TriangulationFacts.lookup_concat_four _ _ _ _ Hfour Hquad Hk) in Hj.
  apply Forall2_cons_1 in Hpts as [(_ & _ & H0) Hpts].
  apply Forall2_cons_1 in Hpts as [(_ & _ & H1) Hpts].
  apply Forall2_cons_1 in Hpts as [(_ & _ & H2) Hpts].
  apply Forall2_cons_1 in Hpts as [(_ & _ & H3) _].
  cbn zeta. fold k.
  assert (Hidx : Z.of_nat j = 4 * Z.of_nat q + Z.of_nat k) by lia.
  rewrite Hidx. clearbody k q. rewrite Hpacked in Hj.
  destruct k as [|[|[|[|k]]]]; [| | | |lia];
    cbn [lookup list_lookup TriangulationFacts.four_triangles] in Hj;
    injection Hj as <-; unfold face_triangle;
    rewrite EntityIdFacts.lor_triangle_ordinal by lia;
    cbn [nth Nat.modulo Nat.add Nat.divmod fst snd Nat.sub map];
    rewrite ?H0, ?H1, ?H2, ?H3; f_equal; lia.
Qed.


(** The theorem at work on the two glued hexahedra: the contact face 5 is the
    triangle 1 of the quadrilateral 1. *)
Lemma contact_faces_on_skin_witness :
  exists cm e,
    CreateContactEntities two_hex_mesh EntityIdFacts.serial_run [1] [1] = Some cm
    /\ contact_faces_ cm !! 5%nat = Some e
    /\ exists (f : hex_face) (n0 n1 n2 n3 m0 m1 m2 m3 : Z),
         f ∈ boundary_faces (all_faces two_hex_mesh [1])
         /\ hf_nodes f = [n0; n1; n2; n3]
         /\ Forall2 (fun n m => 0 <= m
                                /\ node_ids_ cm !! Z.to_nat m = Some n
                                /\ node_coord (coord_ cm) m = mesh_point two_hex_mesh n)
                     [n0; n1; n2; n3] [m0; m1; m2; m3]
         /\ e = triangle_entity
                  (EntityIdFacts.packed_entity_id (hf_elem f) 11 (hf_ordinal f) 1)
                  5
                  (mesh_point two_hex_mesh n1) (mesh_point two_hex_mesh n2)
                  (TriangulationFacts.mean_of_four (coord_ cm) m0 m1 m2 m3)
                  (running_max lowest
                     (TriangulationFacts.quad_edge_lengths (coord_ cm) m0 m1 m2 m3))
                  m1 m2 [m0; m1; m2; m3].
Proof.
  destruct (CreateContactEntities two_hex_mesh EntityIdFacts.serial_run [1] [1])
    as [cm|] eqn:E; [|vm_compute in E; discriminate].
  destruct (contact_faces_ cm !! 5%nat) as [e|] eqn:E5.
  - exists cm, e. split; [reflexivity|]. split; [exact E5|].
    exact (contact_faces_on_skin _ _ _ _ _ E 5%nat e E5).
  - vm_compute in E. injection E as <-. vm_compute in E5. discriminate.
Defined.

Lemma create_nodes_entities (coord_ : list float) (secondary_node_ids : list Z)
    (secondary_node_entity_ids : list Z)
    (secondary_node_char_lens : StdMap.t (K:=Z) (V:=float))
    (contact_nodes : list ContactEntity) :
  create_nodes coord_ secondary_node_ids secondary_node_entity_ids
    secondary_node_char_lens = Some contact_nodes ->
  length contact_nodes = length secondary_node_ids
  /\ forall j e,
       contact_nodes !! j = Some e ->
       exists node_id entity_id len,
         secondary_node_ids !! j = Some node_id
         /\ secondary_node_entity_ids !! j = Some entity_id
         /\ StdMap.find Z.compare node_id secondary_node_char_lens = Some len
         /\ e = node_entity entity_id (Z.of_nat j) (node_coord coord_ node_id) len node_id.
Proof.
  unfold create_nodes. intros Hn. split.
  { apply length_mapM in Hn. rewrite length_seq in Hn. symmetry. exact Hn. }
  intros j e Hj. apply mapM_Some_1 in Hn.
  destruct (Forall2_lookup_r _ _ _ _ _ Hn Hj) as (i & Hi & He).
  apply lookup_seq in Hi as [-> _]. cbn [Nat.add] in He.
  destruct (secondary_node_ids !! j) as [node_id|] eqn:E1; [|discriminate].
  destruct (secondary_node_entity_ids !! j) as [entity_id|] eqn:E2; [|discriminate].
  cbn [mbind option_bind] in He.
  destruct (StdMap.find Z.compare node_id secondary_node_char_lens) as [len|] eqn:E3;
    [|discriminate].
  cbn [mbind option_bind] in He. injection He as <-.
  exists node_id, entity_id, len. auto.
Qed.

Lemma ghosted_contact_nodes_elem (m : StdMap.t (K:=Z) (V:=Z)) (ghosted : list Z) (i : Z) :
  i ∈ ghosted_contact_nodes m ghosted
  <-> exists n, n ∈ ghosted /\ StdMap.find Z.compare n m = Some i.
Proof.
  unfold ghosted_contact_nodes. rewrite list_elem_of_In, in_flat_map. split.
  - intros (n & Hn & Hi). exists n. split; [apply list_elem_of_In; exact Hn|].
    destruct (StdMap.find Z.compare n m) as [i'|]; [|inversion Hi].
    destruct Hi as [->|[]]. reflexivity.
  - intros (n & Hn & Hf). exists n. split; [apply list_elem_of_In; exact Hn|].
    rewrite Hf. left. reflexivity.
Qed.

(** Every contact node is a node of a boundary face of the secondary blocks
    that this rank owns: it stands on the mesh point of that node, carries its
    global id plus one, and names it by its place in [node_ids_]; no mesh node
    gives two contact nodes. *)
Theorem contact_nodes_on_skin (mesh : GenesisMesh) (env : Environment)
    (primary_block_ids secondary_block_ids : list Z) (cm : ContactManager) :
  CreateContactEntities mesh env primary_block_ids secondary_block_ids = Some cm ->
  NoDup (node_id_for_node_1_ <$> contact_nodes_ cm)
  /\ (forall j e,
       contact_nodes_ cm !! j = Some e ->
       exists (m n : Z) (len : float) (f : hex_face),
         0 <= m
         /\ node_ids_ cm !! Z.to_nat m = Some n
         /\ f ∈ boundary_faces (all_faces mesh secondary_block_ids)
         /\ n ∈ hf_nodes f
         /\ (n ∉ ghosted_nodes env)
         /\ e = node_entity
                  (Int32.add (nth (Z.to_nat n) (GetNodeGlobalIds mesh) 0) 1)
                  (Z.of_nat j) (mesh_point mesh n) len m)
  /\ (forall skin_faces entity_ids face n,
        SkinBlocks mesh secondary_block_ids (allreduce_max env (GetMaxNodeGlobalId mesh))
        = Some (skin_faces, entity_ids) ->
        face ∈ fst (Dedup.RemoveInternalSkinFaces (GetNodeGlobalIds mesh) skin_faces
                      entity_ids (received_secondary env)) ->
        n ∈ face -> n ∉ ghosted_nodes env ->
        exists j e,
          contact_nodes_ cm !! j = Some e
          /\ node_ids_ cm !! Z.to_nat (node_id_for_node_1_ e) = Some n).
Proof.
  intros Hcm.
  destruct (EntityIdFacts.CreateContactEntities_stages _ _ _ _ _ Hcm)
    as (pskin & pids & sskin & sids & pfaces & sfaces & Hp & Hs & Hrest).
  cbn zeta in Hrest.
  destruct Hrest as (Hnodes & _ & Hrs & Hcoord & _ & _ & Hc).
  destruct (EntityIdFacts.SkinBlocks_ids _ _ _ _ _ Hs) as [Hlen Hids].
  pose proof (RemoveInternalSkinFaces_subset (GetNodeGlobalIds mesh) sskin sids
                (received_secondary env)) as Hssub.
  set (pd := Dedup.RemoveInternalSkinFaces (GetNodeGlobalIds mesh) pskin pids
               (received_primary env)) in *.
  set (sd := Dedup.RemoveInternalSkinFaces (GetNodeGlobalIds mesh) sskin sids
               (received_secondary env)) in *.
  destruct (renumber_total (fst pd) (fst sd) (fst sd) ltac:(auto)) as (sfaces' & Hrs' & Hren).
  rewrite <- Hnodes in Hrs', Hren. rewrite Hrs in Hrs'. injection Hrs' as <-.
  assert (Hnd : NoDup (node_ids_ cm)) by (rewrite Hnodes; apply collect_node_ids_NoDup).
  unfold CreateContactNodesAndFaces in Hc.
  destruct (create_faces _ _ _ _ _) as [cf|]; [|discriminate].
  cbn [mbind option_bind] in Hc.
  match type of Hc with
  | context [create_nodes ?c ?a ?b ?d] =>
      destruct (create_nodes c a b d) as [cn|] eqn:Hcn; [|discriminate]
  end.
  cbn [mbind option_bind] in Hc. injection Hc as Hcn' _. subst cn.
  destruct (create_nodes_entities _ _ _ _ _ Hcn) as [Hcl Hce].
  match type of Hcn with
  | context [collect_secondary_nodes ?g ?n ?gh ?c ?fs] =>
      destruct (SecondaryFacts.collect_secondary_nodes_collected g n gh c fs)
        as [Hsnd Hsel Hsids _ _];
      set (sec := collect_secondary_nodes g n gh c fs) in *
  end.
  split.
  - assert (Heq : node_id_for_node_1_ <$> contact_nodes_ cm = secondary_node_ids sec).
    { apply list_eq. intros j. rewrite list_lookup_fmap.
      destruct (contact_nodes_ cm !! j) as [e|] eqn:Hj.
      - destruct (Hce j e Hj) as (node_id & entity_id & len & Hn & _ & _ & ->).
        rewrite Hn. reflexivity.
      - apply lookup_ge_None in Hj. symmetry. apply lookup_ge_None. lia. }
    rewrite Heq. exact Hsnd.
  - split; [|intros sskin' sids' face n Hs' Hface Hn Hng;
             rewrite Hs in Hs'; injection Hs' as <- <-; fold sd in Hface].
    2:{ apply list_elem_of_lookup_1 in Hface as [q Hq].
        destruct (Forall2_lookup_l _ _ _ _ _ Hren Hq) as (face' & Hface' & Hrf).
        apply list_elem_of_lookup_1 in Hn as [p Hp'].
        destruct (Forall2_lookup_l _ _ _ _ _ Hrf Hp') as (m & Hm & Hm0 & Hmn).
        assert (Hmin : m ∈ secondary_node_ids sec).
        { apply Hsel. split.
          - intros Hgh. apply ghosted_contact_nodes_elem in Hgh as (n' & Hn' & Hfind).
            apply submodel_id_map_find in Hfind as (i & Hi & ->); [|exact Hnd].
            rewrite Nat2Z.id in Hmn. congruence.
          - eexists. apply SecondaryFacts.elem_of_visits. exists face'.
            split; [eapply list_elem_of_lookup_2; eauto|].
            split; [eapply list_elem_of_lookup_2; eauto|reflexivity]. }
        apply list_elem_of_lookup_1 in Hmin as [j Hj].
        destruct (lookup_lt_is_Some_2 (contact_nodes_ cm) j) as [e He].
        { rewrite Hcl. eapply lookup_lt_Some; eauto. }
        exists j, e. split; [exact He|].
        destruct (Hce j e He) as (m' & entity_id & len & Hm' & _ & _ & ->).
        cbn [node_id_for_node_1_ node_entity]. congruence. }
    intros j e Hj.
    destruct (Hce j e Hj) as (m & entity_id & len & Hm & He & _ & ->).
    rewrite (Hsids j m Hm) in He. injection He as <-.
    assert (Hmin : m ∈ secondary_node_ids sec) by (eapply list_elem_of_lookup_2; eauto).
    apply Hsel in Hmin as [Hng (c & Hvis)].
    apply SecondaryFacts.elem_of_visits in Hvis as (face' & Hface' & Hmf & _).
    apply list_elem_of_lookup_1 in Hface' as [q Hq].
    destruct (Forall2_lookup_r _ _ _ _ _ Hren Hq) as (face & Hface & Hrf).
    apply list_elem_of_lookup_1 in Hmf as [p Hp'].
    destruct (Forall2_lookup_r _ _ _ _ _ Hrf Hp') as (n & Hn & Hm0 & Hmn).
    assert (Hfs : face ∈ sskin) by (apply Hssub; eapply list_elem_of_lookup_2; eauto).
    apply list_elem_of_lookup_1 in Hfs as [i Hi].
    destruct (lookup_lt_is_Some_2 sids i) as [id Hid].
    { rewrite Hlen. eapply lookup_lt_Some; eauto. }
    destruct (Hids i id Hid) as (f & Hf & Hif & _).
    rewrite Hi in Hif. injection Hif as ->.
    exists m, n, len, f.
    split; [exact Hm0|]. split; [exact Hmn|]. split; [exact Hf|].
    split; [eapply list_elem_of_lookup_2; eauto|]. split.
    + intros Hgh. apply Hng. apply ghosted_contact_nodes_elem.
      exists n. split; [exact Hgh|]. apply submodel_id_map_find; [exact Hnd|].
      exists (Z.to_nat m). split; [exact Hmn|lia].
    + unfold SecondaryFacts.node_entity_id. rewrite (nth_lookup_Some _ _ _ _ Hmn).
      f_equal. rewrite Hcoord. replace m with (Z.of_nat (Z.to_nat m)) at 1 by lia.
      apply initial_coord_node. exact Hmn.
Qed.


(** The theorem at work on the two glued hexahedra, primary and secondary at
    once: the twelve mesh nodes give twelve contact nodes. *)
Lemma contact_nodes_on_skin_witness :
  exists cm,
    CreateContactEntities two_hex_mesh EntityIdFacts.serial_run [1] [1] = Some cm
    /\ NoDup (node_id_for_node_1_ <$> contact_nodes_ cm)
    /\ length (contact_nodes_ cm) = 12%nat.
Proof.
  destruct (CreateContactEntities two_hex_mesh EntityIdFacts.serial_run [1] [1])
    as [cm|] eqn:E; [|vm_compute in E; discriminate].
  exists cm. split; [reflexivity|].
  split; [exact (proj1 (contact_nodes_on_skin _ _ _ _ _ E))|].
  vm_compute in E. injection E as <-. reflexivity.
Defined.

End SubmodelFacts.

(** ** The entity ids against the packed integer of the specification *)

Module SpecifiedIdFacts.
Import Skin SkinFacts Submodel Manager EntityIdFacts.
Local Open Scope Z_scope.

(** The packed integer as the specification words it, over the integers:
    [(element_global_id_1_based + offset) << 5 | (face_ordinal & 0x7) << 2
     | (triangle_ordinal & 0x3)].  Nothing is truncated: the id has room for
    the 59 bits of element id plus offset that the source reserves in its
    comment. *)
Definition specified_entity_id
    (element_global_id_1_based offset face_ordinal triangle_ordinal : Z) : Z :=
  Z.lor
    (Z.lor (Z.shiftl (element_global_id_1_based + offset) 5)
           (Z.shiftl (Z.land face_ordinal 7) 2))
    (Z.land triangle_ordinal 3).

(** The element ids of the blocks leave the 5 low bits of an [int] free once
    the offset is added. *)
Definition element_ids_fit (mesh : GenesisMesh) (block_ids : list Z) (offset : Z) : Prop :=
  forall block_id i_elem,
    block_id ∈ block_ids -> (i_elem < GetNumElementsInBlock mesh block_id)%nat ->
    0 <= nth i_elem (GetElementGlobalIdsInBlock mesh block_id) 0
    /\ (nth i_elem (GetElementGlobalIdsInBlock mesh block_id) 0 + 1 + offset) * 32 + 31
       <= Int32.INT_MAX.

Lemma specified_entity_id_integer (e offset fo t : Z) :
  0 <= fo <= 7 -> 0 <= t <= 3 ->
  specified_entity_id e offset fo t = packed_integer e offset fo t.
Proof.
  intros Hfo Ht. unfold specified_entity_id, packed_integer.
  rewrite (land_7_small fo Hfo), (land_3_small t Ht).
  rewrite !Z.shiftl_mul_pow2 by lia.
  rewrite (lor_low (e + offset) (fo * 2 ^ 2) 5)
    by (change (2 ^ 2) with 4; change (2 ^ 5) with 32; lia).
  replace ((e + offset) * 2 ^ 5 + fo * 2 ^ 2) with (((e + offset) * 8 + fo) * 2 ^ 2)
    by (change (2 ^ 5) with 32; change (2 ^ 2) with 4; lia).
  rewrite lor_low by (change (2 ^ 2) with 4; lia).
  change (2 ^ 2) with 4. lia.
Qed.

(** Where nothing overflows, the id the code builds is the specified one. *)
Lemma packed_entity_id_specified (e offset fo t : Z) :
  0 <= e + offset -> (e + offset) * 32 + 31 <= Int32.INT_MAX ->
  0 <= fo <= 7 -> 0 <= t <= 3 ->
  packed_entity_id e offset fo t = specified_entity_id e offset fo t.
Proof.
  intros. rewrite packed_entity_id_exact, specified_entity_id_integer by assumption.
  reflexivity.
Qed.

(** The faces of blocks whose ids fit: the 1-based element id is the global
    id plus one, without wrap-around, and the packed id has room. *)
Lemma all_faces_fit (mesh : GenesisMesh) (block_ids : list Z) (offset : Z) (f : hex_face) :
  0 <= offset -> element_ids_fit mesh block_ids offset ->
  f ∈ all_faces mesh block_ids ->
  length (hf_nodes f) = 4%nat
  /\ 0 <= hf_ordinal f <= 5
  /\ 1 <= hf_elem f
  /\ (hf_elem f + offset) * 32 + 31 <= Int32.INT_MAX
  /\ exists block_id i_elem,
       block_id ∈ block_ids
       /\ (i_elem < GetNumElementsInBlock mesh block_id)%nat
       /\ hf_elem f = nth i_elem (GetElementGlobalIdsInBlock mesh block_id) 0 + 1.
Proof.
  intros Hoff Hfit Hf.
  destruct (all_faces_elem _ _ _ Hf) as (Hlen & Hord & block_id & i_elem & Hb & Hi & He).
  destruct (Hfit block_id i_elem Hb Hi) as [Hg Hmax].
  assert (Hel : hf_elem f = nth i_elem (GetElementGlobalIdsInBlock mesh block_id) 0 + 1).
  { rewrite He. unfold Int32.add. apply wrap_in_range.
    unfold Int32.in_range, Int32.INT_MAX in *. lia. }
  split; [exact Hlen|]. split; [exact Hord|]. split; [lia|]. split; [rewrite Hel; exact Hmax|].
  exists block_id, i_elem. auto.
Qed.

Lemma create_faces_length (coord_ : list float) (ids : list Z) (faces : list (list Z)) :
  forall (i_face : nat) (index : Z) (contact_faces : list ContactEntity),
  create_faces coord_ faces ids i_face index = Some contact_faces ->
  length contact_faces = (4 * length faces)%nat.
Proof.
  induction faces as [|face faces IH]; intros i_face index cf Hcf.
  - injection Hcf as <-. reflexivity.
  - cbn [create_faces] in Hcf.
    destruct (negb (length face =? 4)%nat); [discriminate|].
    destruct (create_faces coord_ faces ids (S i_face) (index + 4)) as [tail|] eqn:Ht;
      [|discriminate].
    injection Hcf as <-. cbn [length]. rewrite (IH _ _ _ Ht). lia.
Qed.

(** The pairs [SkinBlocks] returns, with the ids as specified. *)
Lemma SkinBlocks_specified (mesh : GenesisMesh) (block_ids : list Z) (offset : Z)
    (skin_faces : list (list Z)) (entity_ids : list Z) :
  0 <= offset -> element_ids_fit mesh block_ids offset ->
  SkinBlocks mesh block_ids offset = Some (skin_faces, entity_ids) ->
  length entity_ids = length skin_faces
  /\ zip skin_faces entity_ids
     ≡ₚ (fun f => (hf_nodes f, specified_entity_id (hf_elem f) offset (hf_ordinal f) 0))
        <$> boundary_faces (all_faces mesh block_ids).
Proof.
  intros Hoff Hfit Hskin.
  destruct (SkinBlocks_pairs mesh block_ids offset) as [Hok Habort].
  destruct (decide (Forall (fun f => (occurrences (face_key f) (all_faces mesh block_ids)
                                      <= 2)%nat) (all_faces mesh block_ids)))
    as [Hle|Hnle].
  - destruct (Hok Hle) as (out & Hout & Hperm). rewrite Hout in Hskin.
    injection Hskin as <- <-. split; [rewrite !length_fmap; reflexivity|].
    rewrite zip_fst_snd, Hperm.
    match goal with |- ?l ≡ₚ ?r => assert (Heq : l = r); [|rewrite Heq; reflexivity] end.
    apply list_fmap_ext. intros i f Hi.
    apply list_elem_of_lookup_2, list_elem_of_filter in Hi as [_ Hf].
    destruct (all_faces_fit _ _ _ _ Hoff Hfit Hf) as (Hlen & Hord & He & Hmax & _).
    unfold skin_output. f_equal.
    rewrite skin_entity_id_packed by assumption.
    apply packed_entity_id_specified; lia.
  - pose proof (not_Forall_Exists
                  (fun f => (occurrences (face_key f) (all_faces mesh block_ids) <= 2)%nat)
                  _ Hnle) as Hex.
    rewrite Habort in Hskin; [discriminate|].
    eapply Exists_impl; [exact Hex|]. simpl. intros f Hf. lia.
Qed.

(** Within the range of [int] the entity ids are those of the specification.
    When the offset is not negative, the element ids of the primary blocks
    leave the 5 low bits free and no node global id is [INT_MAX]: [SkinBlocks]
    returns, in some order, exactly the boundary faces of the primary blocks,
    each with the specified id of its element and face ordinal and triangle
    ordinal 0; the submodel has four contact faces for each skin face that the
    deduplication keeps, and the triangle [k] of the kept face [q], at the
    place [4 q + k], has the specified id of that face with triangle ordinal
    [k]; the element id that enters the formula is the element global id plus
    one; and every contact node has the global id of its mesh node plus one. *)
Theorem entity_ids_as_specified (mesh : GenesisMesh) (env : Environment)
    (primary_block_ids secondary_block_ids : list Z) (cm : ContactManager) :
  CreateContactEntities mesh env primary_block_ids secondary_block_ids = Some cm ->
  let offset := allreduce_max env (GetMaxNodeGlobalId mesh) in
  0 <= offset ->
  element_ids_fit mesh primary_block_ids offset ->
  Forall (fun g => 0 <= g < Int32.INT_MAX) (GetNodeGlobalIds mesh) ->
  (exists skin_faces entity_ids,
     SkinBlocks mesh primary_block_ids offset = Some (skin_faces, entity_ids)
     /\ length entity_ids = length skin_faces
     /\ zip skin_faces entity_ids
        ≡ₚ (fun f => (hf_nodes f,
                      specified_entity_id (hf_elem f) offset (hf_ordinal f) 0))
           <$> boundary_faces (all_faces mesh primary_block_ids)
     /\ let kept := Dedup.RemoveInternalSkinFaces (GetNodeGlobalIds mesh)
                      skin_faces entity_ids (received_primary env) in
        length (contact_faces_ cm) = (4 * length (fst kept))%nat
        /\ forall q face,
             fst kept !! q = Some face ->
             exists f,
               f ∈ boundary_faces (all_faces mesh primary_block_ids)
               /\ face = hf_nodes f
               /\ snd kept !! q
                  = Some (specified_entity_id (hf_elem f) offset (hf_ordinal f) 0)
               /\ forall k, (k < 4)%nat ->
                    exists e,
                      contact_faces_ cm !! (4 * q + k)%nat = Some e
                      /\ entity_type_ e = TRIANGLE
                      /\ contact_entity_global_id_ e
                         = specified_entity_id (hf_elem f) offset (hf_ordinal f)
                             (Z.of_nat k))
  /\ (forall f,
        f ∈ all_faces mesh primary_block_ids ->
        0 <= hf_ordinal f <= 5
        /\ exists block_id i_elem,
             block_id ∈ primary_block_ids
             /\ (i_elem < GetNumElementsInBlock mesh block_id)%nat
             /\ hf_elem f = nth i_elem (GetElementGlobalIdsInBlock mesh block_id) 0 + 1)
  /\ (forall j e,
        contact_nodes_ cm !! j = Some e ->
        entity_type_ e = NODE
        /\ contact_entity_global_id_ e
           = nth (Z.to_nat (nth (Z.to_nat (node_id_for_node_1_ e)) (node_ids_ cm) 0))
               (GetNodeGlobalIds mesh) 0 + 1).
Proof.
  intros Hcm offset Hoff Hfit Hnodes_fit.
  destruct (CreateContactEntities_stages _ _ _ _ _ Hcm)
    as (pskin & pids & sskin & sids & pfaces & sfaces & Hp & Hs & Hrest).
  fold offset in Hp, Hs. cbn zeta in Hrest.
  destruct Hrest as (Hnodes & Hrp & Hrs & Hcoord & _ & _ & Hc).
  destruct (SkinBlocks_specified _ _ _ _ _ Hoff Hfit Hp) as [Hlen Hperm].
  pose proof (RemoveInternalSkinFaces_ids (GetNodeGlobalIds mesh) pskin pids
                (received_primary env) Hlen) as [Hdl _].
  pose proof (SubmodelFacts.RemoveInternalSkinFaces_pairs (GetNodeGlobalIds mesh) pskin pids
                (received_primary env) Hlen) as Hpairs.
  cbn zeta in Hpairs.
  set (pd := Dedup.RemoveInternalSkinFaces (GetNodeGlobalIds mesh) pskin pids
               (received_primary env)) in *.
  unfold CreateContactNodesAndFaces in Hc.
  destruct (create_faces (coord_ cm) pfaces (snd pd) 0 0) as [cf|] eqn:Hcf; [|discriminate].
  cbn [mbind option_bind] in Hc.
  match type of Hc with
  | context [create_nodes ?c ?a ?b ?d] =>
      destruct (create_nodes c a b d) as [cn|] eqn:Hcn; [|discriminate]
  end.
  cbn [mbind option_bind] in Hc. injection Hc as Hcn' Hcf'. subst cn cf.
  pose proof (create_faces_length _ _ _ _ _ _ Hcf) as Hcfl.
  apply length_mapM in Hrp.
  split; [|split].
  - exists pskin, pids. split; [exact Hp|]. split; [exact Hlen|]. split; [exact Hperm|].
    cbn zeta. fold pd. split; [lia|].
    intros q face Hq.
    assert (Hq' : (q < length (snd pd))%nat)
      by (rewrite Hdl; eapply lookup_lt_Some; exact Hq).
    destruct (lookup_lt_is_Some_2 _ _ Hq') as [id Hid].
    destruct (Hpairs q face id Hq Hid) as (i & Hif & Hii).
    assert (Hin : (face, id) ∈ zip pskin pids).
    { apply (list_elem_of_lookup_2 _ i). rewrite lookup_zip_with, Hif. cbn. rewrite Hii.
      reflexivity. }
    rewrite Hperm in Hin. apply list_elem_of_fmap in Hin as (f & Heq & Hf).
    injection Heq as -> ->.
    exists f. split; [exact Hf|]. split; [reflexivity|]. split; [exact Hid|].
    intros k Hk.
    assert (Hlt : (4 * q + k < length (contact_faces_ cm))%nat).
    { apply lookup_lt_Some in Hq. lia. }
    destruct (lookup_lt_is_Some_2 _ _ Hlt) as [e He]. exists e. split; [exact He|].
    destruct (create_faces_ids _ _ _ _ _ _ Hcf _ e He) as (Hty & _ & Hide).
    split; [exact Hty|].
    assert (Hdiv : ((4 * q + k) / 4 = q)%nat).
    { rewrite (Nat.mul_comm 4), Nat.div_add_l, (Nat.div_small k 4) by lia. lia. }
    assert (Hmod : ((4 * q + k) mod 4 = k)%nat).
    { rewrite Nat.add_comm, (Nat.mul_comm 4), Nat.Div0.mod_add.
      apply Nat.mod_small. exact Hk. }
    rewrite Hide, Hdiv, Hmod. cbn [Nat.add].
    rewrite (nth_lookup_Some _ _ _ _ Hid).
    apply list_elem_of_filter in Hf as [_ Hf].
    destruct (all_faces_fit _ _ _ _ Hoff Hfit Hf) as (_ & Hord & He1 & Hmax & _).
    rewrite <- (packed_entity_id_specified (hf_elem f) offset (hf_ordinal f) 0) by lia.
    rewrite lor_triangle_ordinal by lia.
    apply packed_entity_id_specified; lia.
  - intros f Hf.
    destruct (all_faces_fit _ _ _ _ Hoff Hfit Hf) as (_ & Hord & _ & _ & Hel). auto.
  - intros j e Hj.
    destruct (create_nodes_ids _ _ _ _ _ Hcn j e Hj)
      as (node_id & entity_id & Hn & He & Hty & Hid & Hnode).
    split; [exact Hty|]. rewrite Hid, Hnode.
    match type of Hn with
    | secondary_node_ids (collect_secondary_nodes ?g ?n ?gh ?c ?fs) !! _ = _ =>
        destruct (SecondaryFacts.collect_secondary_nodes_collected g n gh c fs)
          as [_ _ Hsame _ _]
    end.
    specialize (Hsame j node_id Hn). rewrite Hsame in He. injection He as <-.
    unfold SecondaryFacts.node_entity_id, Int32.add. apply wrap_in_range.
    set (i := Z.to_nat (nth (Z.to_nat node_id) (node_ids_ cm) 0)).
    assert (Hg : 0 <= nth i (GetNodeGlobalIds mesh) 0 < Int32.INT_MAX).
    { rewrite nth_lookup. destruct (GetNodeGlobalIds mesh !! i) as [g|] eqn:Hgi; cbn.
      - exact (proj1 (Forall_forall _ _) Hnodes_fit g (list_elem_of_lookup_2 _ _ _ Hgi)).
      - unfold Int32.INT_MAX. lia. }
    unfold Int32.in_range, Int32.INT_MAX in *. lia.
Qed.

(** The theorem at work on the two glued hexahedra, primary and secondary at
    once, with the offset 11: ten skin faces, forty triangles with the ids
    [(element + 11) * 32 + 4 * face ordinal + k], and twelve contact nodes
    with the ids 1 to 12. *)
Lemma entity_ids_as_specified_witness :
  exists cm,
    CreateContactEntities two_hex_mesh serial_run [1] [1] = Some cm
    /\ contact_entity_global_id_ <$> contact_faces_ cm
       = [400; 401; 402; 403; 384; 385; 386; 387; 396; 397; 398; 399; 432; 433; 434; 435;
          416; 417; 418; 419; 392; 393; 394; 395; 424; 425; 426; 427; 404; 405; 406; 407;
          436; 437; 438; 439; 420; 421; 422; 423]
    /\ contact_entity_global_id_ <$> contact_nodes_ cm
       = [1; 4; 3; 2; 6; 5; 8; 10; 9; 11; 7; 12]
    /\ specified_entity_id 1 11 4 0 = 400
    /\ specified_entity_id 2 11 5 3 = 439
    /\ (exists skin_faces entity_ids,
          SkinBlocks two_hex_mesh [1] 11 = Some (skin_faces, entity_ids)
          /\ length entity_ids = 10%nat
          /\ zip skin_faces entity_ids
             ≡ₚ (fun f => (hf_nodes f,
                           specified_entity_id (hf_elem f) 11 (hf_ordinal f) 0))
                <$> boundary_faces (all_faces two_hex_mesh [1])
          /\ length (contact_faces_ cm)
             = (4 * length (fst (Dedup.RemoveInternalSkinFaces
                                   (GetNodeGlobalIds two_hex_mesh) skin_faces entity_ids
                                   [])))%nat).
Proof.
  destruct (CreateContactEntities two_hex_mesh serial_run [1] [1]) as [cm|] eqn:E;
    [|vm_compute in E; discriminate].
  exists cm. split; [reflexivity|].
  assert (Hfit : element_ids_fit two_hex_mesh [1]
                   (allreduce_max serial_run (GetMaxNodeGlobalId two_hex_mesh))).
  { intros block_id i_elem Hb Hi. apply list_elem_of_singleton in Hb. subst block_id.
    cbn in Hi. destruct i_elem as [|[|i_elem]]; [| |lia]; vm_compute;
      split; discriminate. }
  assert (Hnodes : Forall (fun g => 0 <= g < Int32.INT_MAX) (GetNodeGlobalIds two_hex_mesh)).
  { apply Forall_forall. intros g Hg. cbn in Hg. unfold Int32.INT_MAX.
    repeat (apply elem_of_cons in Hg as [->|Hg]; [lia|]). inversion Hg. }
  destruct (entity_ids_as_specified two_hex_mesh serial_run [1] [1] cm E
              ltac:(discriminate) Hfit Hnodes)
    as ((skin_faces & entity_ids & Hs & Hl & Hp & Hk & _) & _ & _).
  split; [vm_compute in E; injection E as <-; reflexivity|].
  split; [vm_compute in E; injection E as <-; reflexivity|].
  split; [reflexivity|]. split; [reflexivity|].
  exists skin_faces, entity_ids. split; [exact Hs|]. split; [|split; [exact Hp|exact Hk]].
  vm_compute in Hs. injection Hs as <- <-. reflexivity.
Defined.

(** C5 fails on the code: the ids are built in a 32-bit [int], where the
    packed integer needs up to 59 bits for the element id plus offset, as the
    comment in the source reserves them.  On [wide_id_mesh], with the offset
    23, the face 4 of the element with the global id [2^27 - 24] is a boundary
    face; its packed integer is [2^32 + 16], and [SkinBlocks] gives it the id
    16; its triangle 1 should have the id [2^32 + 17], and it is the contact
    face 1 of the submodel, with the id 17. *)
Lemma entity_id_truncated :
  exists (f : hex_face) (skin_faces : list (list Z)) (entity_ids : list Z)
         (cm : ContactManager) (e : ContactEntity),
    f ∈ boundary_faces (all_faces wide_id_mesh [1])
    /\ hf_elem f = 134217704 + 1 /\ hf_ordinal f = 4
    /\ specified_entity_id (hf_elem f) 23 (hf_ordinal f) 0 = 4294967312
    /\ specified_entity_id (hf_elem f) 23 (hf_ordinal f) 1 = 4294967313
    /\ SkinBlocks wide_id_mesh [1] 23 = Some (skin_faces, entity_ids)
    /\ skin_faces !! 0%nat = Some (hf_nodes f)
    /\ entity_ids !! 0%nat = Some 16
    /\ CreateContactEntities wide_id_mesh serial_run [1] [2] = Some cm
    /\ contact_faces_ cm !! 1%nat = Some e
    /\ entity_type_ e = TRIANGLE
    /\ contact_entity_global_id_ e = 17.
Proof.
  exists {| hf_nodes := [0; 3; 2; 1]; hf_elem := 134217705; hf_ordinal := 4 |}.
  destruct (SkinBlocks wide_id_mesh [1] 23) as [[skin_faces entity_ids]|] eqn:Hs;
    [|vm_compute in Hs; discriminate].
  destruct (CreateContactEntities wide_id_mesh serial_run [1] [2]) as [cm|] eqn:E;
    [|vm_compute in E; discriminate].
  destruct (contact_faces_ cm !! 1%nat) as [e|] eqn:He;
    [|vm_compute in E; injection E as <-; vm_compute in He; discriminate].
  exists skin_faces, entity_ids, cm, e.
  vm_compute in Hs. injection Hs as <- <-.
  vm_compute in E. injection E as <-. vm_compute in He. injection He as <-.
  split.
  { apply list_elem_of_filter. split; [vm_compute; reflexivity|].
    vm_compute. do 4 right. left. }
  repeat split.
Qed.

End SpecifiedIdFacts.

(** ** Which faces the exchange removes *)

Module DedupFirstFacts.
Import Dedup DedupFacts.

Section FirstMatch.

Variable genesis_node_global_ids : list Z.
Variable faces : list (list Z).









End FirstMatch.




End DedupFirstFacts.

(** ** The order of the skin *)

Module SkinOrderFacts.
Import Skin SkinFacts.
Local Open Scope Z_scope.

(** [operator<] of [std::vector<int>]. *)
Definition lex_lt (a b : list Z) : Prop := lex_compare a b = Lt.

Lemma lex_compare_antisym (a b : list Z) :
  lex_compare b a = CompOpp (lex_compare a b).
Proof.
  revert b. induction a as [|x a IH]; intros [|y b]; simpl; try reflexivity.
  rewrite (Z.compare_antisym x y). destruct (x ?= y); simpl; auto.
Qed.

Lemma lex_lt_trans (a b c : list Z) : lex_lt a b -> lex_lt b c -> lex_lt a c.
Proof.
  unfold lex_lt. revert b c.
  induction a as [|x a IH]; intros [|y b] [|z c]; simpl; try congruence.
  destruct (Z.compare_spec x y) as [->|Hxy|Hxy]; try discriminate.
  - destruct (y ?= z); try discriminate; [apply IH|reflexivity].
  - intros _. destruct (Z.compare_spec y z) as [->|Hyz|Hyz]; try discriminate.
    + intros _. rewrite (proj2 (Z.compare_lt_iff x z)) by lia. reflexivity.
    + intros _. rewrite (proj2 (Z.compare_lt_iff x z)) by lia. reflexivity.
Qed.

Lemma lex_lt_irrefl (a : list Z) : ~ lex_lt a a.
Proof.
  unfold lex_lt. rewrite (proj2 (lex_compare_eq a a) eq_refl). discriminate.
Qed.

(** The keys of the map, in the order of iteration, strictly increase. *)
Definition keys_sorted (m : list (list Z * list Z)) : Prop :=
  StronglySorted lex_lt m.*1.

Lemma elem_of_insert_keys (k : list Z) (v : list Z) (m : list (list Z * list Z)) (k' : list Z) :
  k' ∈ (StdMap.insert lex_compare k v m).*1 -> k' = k \/ k' ∈ m.*1.
Proof.
  induction m as [|[k0 v0] m IH]; cbn [StdMap.insert].
  - cbn. rewrite list_elem_of_singleton. auto.
  - destruct (lex_compare k k0); rewrite ?fmap_cons; cbn [fst]; rewrite ?elem_of_cons;
      [tauto|tauto|].
    intros [->|H]; [auto|]. apply IH in H. tauto.
Qed.

Lemma insert_keys_sorted (k v : list Z) (m : list (list Z * list Z)) :
  keys_sorted m -> keys_sorted (StdMap.insert lex_compare k v m).
Proof.
  unfold keys_sorted. induction m as [|[k0 v0] m IH]; cbn [StdMap.insert]; intros Hs.
  - cbn. repeat constructor.
  - rewrite fmap_cons in Hs. cbn [fst] in Hs. apply StronglySorted_inv in Hs as [Hs Hk0].
    destruct (lex_compare k k0) eqn:E; rewrite ?fmap_cons; cbn [fst].
    + apply lex_compare_eq in E. subst k0. constructor; assumption.
    + constructor; [constructor; assumption|].
      constructor; [exact E|]. eapply Forall_impl; [exact Hk0|].
      intros k1 Hk1. eapply lex_lt_trans; eauto.
    + constructor; [apply IH; exact Hs|].
      apply Forall_forall. intros k1 Hk1. apply elem_of_insert_keys in Hk1 as [->|Hk1].
      * unfold lex_lt. rewrite lex_compare_antisym, E. reflexivity.
      * rewrite Forall_forall in Hk0. auto.
Qed.

Lemma visit_face_keys_sorted (m : list (list Z * list Z)) (f : hex_face) :
  keys_sorted m -> keys_sorted (visit_face m f).
Proof.
  intros Hs. unfold visit_face. destruct (StdMap.find _ _ _).
  - unfold keys_sorted. rewrite StdMapFacts.keys_alter. exact Hs.
  - apply insert_keys_sorted, Hs.
Qed.

Lemma visit_faces_keys_sorted (faces : list hex_face) :
  forall m : list (list Z * list Z),
  keys_sorted m -> keys_sorted (fold_left visit_face faces m).
Proof.
  induction faces as [|f faces IH]; intros m Hs; [exact Hs|].
  cbn [fold_left]. apply IH, visit_face_keys_sorted, Hs.
Qed.

Lemma collect_skin_Some (entity_id_offset : Z) (m : list (list Z * list Z)) :
  forall (skin_faces : list (list Z)) (entity_ids : list Z) r,
  collect_skin m entity_id_offset skin_faces entity_ids = Some r ->
  r = (skin_faces
         ++ (entry_output entity_id_offset <$> filter (fun e => entry_count e = 1) m).*1,
       entity_ids
         ++ (entry_output entity_id_offset <$> filter (fun e => entry_count e = 1) m).*2).
Proof.
  induction m as [|[k v] m IH]; intros sf ei r Hr.
  - simpl in Hr. injection Hr as <-. rewrite !app_nil_r. reflexivity.
  - cbn [collect_skin] in Hr. destruct (nth 0 v 0 =? 1) eqn:E1.
    + apply Z.eqb_eq in E1. apply IH in Hr. rewrite Hr.
      rewrite (filter_cons_True (fun e : list Z * list Z => entry_count e = 1) (k, v) m E1).
      rewrite !fmap_cons. cbn [fst snd entry_output]. rewrite <- !app_assoc. reflexivity.
    + apply Z.eqb_neq in E1. destruct (negb (nth 0 v 0 =? 2)); [discriminate|].
      apply IH in Hr. rewrite Hr.
      rewrite (filter_cons_False (fun e : list Z * list Z => entry_count e = 1) (k, v) m E1).
      reflexivity.
Qed.

Lemma filter_keys_sorted (P : list Z * list Z -> Prop) `{!forall e, Decision (P e)}
    (m : list (list Z * list Z)) :
  keys_sorted m -> keys_sorted (filter P m).
Proof.
  unfold keys_sorted. induction m as [|e m IH]; intros Hs; [exact Hs|].
  rewrite fmap_cons in Hs. apply StronglySorted_inv in Hs as [Hs He].
  rewrite filter_cons. destruct (decide (P e)); [|apply IH, Hs].
  rewrite fmap_cons. constructor; [apply IH, Hs|].
  apply Forall_forall. intros k Hk. rewrite Forall_forall in He. apply He.
  apply list_elem_of_fmap in Hk as (e' & -> & He').
  apply list_elem_of_filter in He' as [_ He']. apply list_elem_of_fmap. eauto.
Qed.

(** The map after the visits, and what the final loop pushes from it. *)
Lemma SkinBlocks_from_map (mesh : GenesisMesh) (block_ids : list Z)
    (entity_id_offset : Z) (skin_faces : list (list Z)) (entity_ids : list Z) :
  SkinBlocks mesh block_ids entity_id_offset = Some (skin_faces, entity_ids) ->
  exists m : list (list Z * list Z),
    represents m (all_faces mesh block_ids)
    /\ keys_sorted m
    /\ skin_faces
       = (entry_output entity_id_offset <$> filter (fun e => entry_count e = 1) m).*1
    /\ entity_ids
       = (entry_output entity_id_offset <$> filter (fun e => entry_count e = 1) m).*2.
Proof.
  unfold SkinBlocks. intros H. exists (fold_left (visit_block mesh) block_ids []).
  split; [|split].
  - rewrite visit_blocks_fold. apply (visit_faces_represents _ [] []), represents_nil.
  - rewrite visit_blocks_fold. apply visit_faces_keys_sorted. constructor.
  - apply collect_skin_Some in H. injection H as -> ->. auto.
Qed.

Lemma entry_output_key (entity_id_offset : Z) (m : list (list Z * list Z))
    (faces : list hex_face) (k v : list Z) :
  represents m faces -> (k, v) ∈ m ->
  std_sort (fst (entry_output entity_id_offset (k, v))) = k.
Proof.
  intros Hrep Hin. destruct (entry_decode _ _ _ _ Hrep Hin) as (f & rest & Hfil & ->).
  assert (Hf : f ∈ filter (fun g => face_key g = k) faces) by (rewrite Hfil; left).
  apply list_elem_of_filter in Hf as [Hk _].
  unfold entry_output. cbn [snd fst drop length]. rewrite length_app. cbn [length].
  replace (S (length (hf_nodes f) + 2) - 3)%nat with (length (hf_nodes f)) by lia.
  rewrite drop_0, take_app_length. exact Hk.
Qed.

(** The skin faces come out in strictly increasing lexicographic order of
    their sorted node lists, whatever the order in which the elements were
    visited. *)
Theorem SkinBlocks_sorted (mesh : GenesisMesh) (block_ids : list Z)
    (entity_id_offset : Z) (skin_faces : list (list Z)) (entity_ids : list Z) :
  SkinBlocks mesh block_ids entity_id_offset = Some (skin_faces, entity_ids) ->
  StronglySorted lex_lt (std_sort <$> skin_faces).
Proof.
  intros H. destruct (SkinBlocks_from_map _ _ _ _ _ H) as (m & Hrep & Hs & -> & _).
  assert (Heq : std_sort <$> (entry_output entity_id_offset
                               <$> filter (fun e => entry_count e = 1) m).*1
                = (filter (fun e => entry_count e = 1) m).*1).
  { rewrite <- !list_fmap_compose. apply list_fmap_ext. intros i [k v] Hi. cbn.
    apply list_elem_of_lookup_2 in Hi. apply list_elem_of_filter in Hi as [_ Hi].
    exact (entry_output_key entity_id_offset m _ k v Hrep Hi). }
  rewrite Heq.
  exact (filter_keys_sorted (fun e : list Z * list Z => entry_count e = 1) m Hs).
Qed.


Lemma occurrences_perm (key : list Z) (faces faces' : list hex_face) :
  faces ≡ₚ faces' -> occurrences key faces = occurrences key faces'.
Proof. intros H. unfold occurrences. rewrite H. reflexivity. Qed.

Lemma boundary_faces_perm (faces faces' : list hex_face) :
  faces ≡ₚ faces' -> boundary_faces faces ≡ₚ boundary_faces faces'.
Proof.
  intros H. unfold boundary_faces.
  rewrite (list_filter_iff (fun f => occurrences (face_key f) faces = 1%nat)
             (fun f => occurrences (face_key f) faces' = 1%nat)).
  - rewrite H. reflexivity.
  - intros f. rewrite (occurrences_perm _ _ _ H). reflexivity.
Qed.

Lemma all_faces_perm (mesh : GenesisMesh) (block_ids block_ids' : list Z) :
  block_ids ≡ₚ block_ids' -> all_faces mesh block_ids ≡ₚ all_faces mesh block_ids'.
Proof. intros H. unfold all_faces. apply Permutation_flat_map, H. Qed.

(** The order of two output pairs: the order of the sorted node lists. *)
Definition output_lt (e1 e2 : list Z * Z) : Prop :=
  lex_lt (std_sort (fst e1)) (std_sort (fst e2)).

Lemma sorted_by_key (l : list (list Z * Z)) :
  StronglySorted lex_lt (std_sort <$> l.*1) -> StronglySorted output_lt l.
Proof.
  induction l as [|e l IH]; intros Hs; [constructor|].
  rewrite !fmap_cons in Hs. apply StronglySorted_inv in Hs as [Hs He].
  constructor; [apply IH, Hs|].
  apply Forall_forall. intros e' He'. rewrite Forall_forall in He. apply He.
  apply list_elem_of_fmap. exists (fst e'). split; [reflexivity|].
  apply list_elem_of_fmap. eauto.
Qed.

(** The result of the skinning does not depend on the order in which the
    blocks are listed. *)
Theorem SkinBlocks_block_order (mesh : GenesisMesh) (block_ids block_ids' : list Z)
    (entity_id_offset : Z) :
  block_ids ≡ₚ block_ids' ->
  SkinBlocks mesh block_ids entity_id_offset = SkinBlocks mesh block_ids' entity_id_offset.
Proof.
  intros Hperm. pose proof (all_faces_perm mesh _ _ Hperm) as HF.
  destruct (SkinBlocks_pairs mesh block_ids entity_id_offset) as [Hok Habort].
  destruct (SkinBlocks_pairs mesh block_ids' entity_id_offset) as [Hok' Habort'].
  destruct (decide (Forall (fun f => (occurrences (face_key f) (all_faces mesh block_ids)
                                      <= 2)%nat) (all_faces mesh block_ids)))
    as [Hle|Hnle].
  - assert (Hle' : Forall (fun f => (occurrences (face_key f) (all_faces mesh block_ids')
                                      <= 2)%nat) (all_faces mesh block_ids')).
    { rewrite <- HF. eapply Forall_impl; [exact Hle|]. cbn. intros f Hf.
      rewrite <- (occurrences_perm _ _ _ HF). exact Hf. }
    destruct (Hok Hle) as (out & Hout & Hp). destruct (Hok' Hle') as (out' & Hout' & Hp').
    rewrite Hout, Hout'.
    assert (Hs : StronglySorted output_lt out).
    { apply sorted_by_key. eapply SkinBlocks_sorted. exact Hout. }
    assert (Hs' : StronglySorted output_lt out').
    { apply sorted_by_key. eapply SkinBlocks_sorted. exact Hout'. }
    assert (E : out = out'); [|rewrite E; reflexivity].
    apply (StronglySorted_unique_strong output_lt); [|exact Hs|exact Hs'|].
    + intros e1 e2 _ _ H12 H21. exfalso.
      exact (lex_lt_irrefl _ (lex_lt_trans _ _ _ H12 H21)).
    + rewrite Hp, Hp'. apply fmap_Permutation, boundary_faces_perm, HF.
  - pose proof (not_Forall_Exists
                  (fun f => (occurrences (face_key f) (all_faces mesh block_ids) <= 2)%nat)
                  _ Hnle) as Hex.
    rewrite Habort, Habort'; [reflexivity| |].
    + rewrite <- HF. eapply Exists_impl; [exact Hex|]. cbn. intros f Hf.
      rewrite <- (occurrences_perm _ _ _ HF). lia.
    + eapply Exists_impl; [exact Hex|]. cbn. intros f Hf. lia.
Qed.


(** The theorem at work: the two blocks of the three hexahedra, in either
    order. *)
Lemma SkinBlocks_block_order_witness :
  SkinBlocks EntityIdFacts.wide_id_mesh [1; 2] 23
  = SkinBlocks EntityIdFacts.wide_id_mesh [2; 1] 23.
Proof.
  apply (SkinBlocks_block_order EntityIdFacts.wide_id_mesh [1; 2] [2; 1] 23).
  apply perm_swap.
Defined.

(** The theorem at work on the two glued hexahedra. *)
Lemma SkinBlocks_sorted_witness :
  exists skin_faces entity_ids,
    SkinBlocks two_hex_mesh [1] 11 = Some (skin_faces, entity_ids)
    /\ StronglySorted lex_lt (std_sort <$> skin_faces).
Proof.
  destruct (SkinBlocks two_hex_mesh [1] 11) as [[skin_faces entity_ids]|] eqn:E;
    [|vm_compute in E; discriminate].
  exists skin_faces, entity_ids. split; [reflexivity|].
  exact (SkinBlocks_sorted _ _ _ _ _ E).
Defined.

Lemma occurrences_app (key : list Z) (faces faces' : list hex_face) :
  occurrences key (faces ++ faces')
  = (occurrences key faces + occurrences key faces')%nat.
Proof. unfold occurrences. rewrite filter_app, length_app. reflexivity. Qed.

Lemma all_faces_app (mesh : GenesisMesh) (block_ids block_ids' : list Z) :
  all_faces mesh (block_ids ++ block_ids')
  = all_faces mesh block_ids ++ all_faces mesh block_ids'.
Proof. unfold all_faces. apply flat_map_app. Qed.

Lemma filter_none {A : Type} (P : A -> Prop) `{!forall x, Decision (P x)} (l : list A) :
  (forall x, x ∈ l -> ~ P x) -> filter P l = [].
Proof.
  induction l as [|x l IH]; intros Hno; [reflexivity|].
  rewrite filter_cons. destruct (decide (P x)) as [Hx|_].
  - exfalso. apply (Hno x); [left|exact Hx].
  - apply IH. intros y Hy. apply Hno. right. exact Hy.
Qed.

(** A block list given twice over is not noticed: when no face of the blocks
    is shared by two elements, every face is then seen twice and the skin
    comes out empty, without an error; when some face is shared, it is seen
    four times and the skinning aborts. *)
Theorem SkinBlocks_blocks_listed_twice (mesh : GenesisMesh) (block_ids : list Z)
    (entity_id_offset : Z) :
  let faces := all_faces mesh block_ids in
  (Forall (fun f => occurrences (face_key f) faces = 1%nat) faces ->
   SkinBlocks mesh (block_ids ++ block_ids) entity_id_offset = Some ([], []))
  /\ (Exists (fun f => occurrences (face_key f) faces = 2%nat) faces ->
      SkinBlocks mesh (block_ids ++ block_ids) entity_id_offset = None).
Proof.
  intros faces.
  destruct (SkinBlocks_pairs mesh (block_ids ++ block_ids) entity_id_offset)
    as [Hok Habort].
  rewrite all_faces_app in Hok, Habort. fold faces in Hok, Habort. split.
  - intros Hall. rewrite Forall_forall in Hall.
    assert (Htwo : forall f, f ∈ faces ++ faces ->
                     occurrences (face_key f) (faces ++ faces) = 2%nat).
    { intros f Hf. rewrite occurrences_app.
      apply elem_of_app in Hf as [Hf|Hf]; rewrite (Hall f Hf); reflexivity. }
    destruct Hok as (out & Hout & Hp).
    { apply Forall_forall. intros f Hf. rewrite (Htwo f Hf). lia. }
    assert (Hnone : boundary_faces (faces ++ faces) = []).
    { unfold boundary_faces.
      apply (filter_none (fun f => occurrences (face_key f) (faces ++ faces) = 1%nat)).
      intros f Hf. rewrite (Htwo f Hf). discriminate. }
    rewrite Hnone in Hp. apply Permutation_nil_r in Hp. subst out. exact Hout.
  - intros Hex. apply Habort. apply Exists_exists in Hex as (f & Hf & Hocc).
    apply Exists_exists. exists f. split; [apply elem_of_app; auto|].
    rewrite occurrences_app, Hocc. lia.
Qed.

(** The theorem at work: the lone hexahedron of block 2 listed twice loses its
    skin, and the two glued hexahedra listed twice abort. *)
Lemma SkinBlocks_blocks_listed_twice_witness :
  SkinBlocks EntityIdFacts.wide_id_mesh [2; 2] 23 = Some ([], [])
  /\ SkinBlocks two_hex_mesh [1; 1] 11 = None.
Proof.
  split.
  - apply (proj1 (SkinBlocks_blocks_listed_twice EntityIdFacts.wide_id_mesh [2] 23)).
    vm_compute. repeat constructor.
  - apply (proj2 (SkinBlocks_blocks_listed_twice two_hex_mesh [1] 11)).
    apply Exists_cons_tl, Exists_cons_hd. vm_compute. reflexivity.
Defined.

End SkinOrderFacts.

(** ** Displacements and forces from step to step *)

Module TimeStepFacts.
Import Manager Forces ManagerFacts.
Local Open Scope float_scope.

Section Repeated.

Variable SetCoordinates : list float -> ContactEntity -> ContactEntity.

(** [SetCoordinates] takes every coordinate of the entity from the array: a
    second call overwrites what the first one has set. *)
Hypothesis SetCoordinates_overwrites :
  forall (coord coord' : list float) (e : ContactEntity),
    SetCoordinates coord (SetCoordinates coord' e) = SetCoordinates coord e.

(** Displacements are measured from the model coordinates and do not add up:
    the manager after [ApplyDisplacements(d1)] and then
    [ApplyDisplacements(d2)] is the manager after [ApplyDisplacements(d2)]
    alone. *)
Theorem ApplyDisplacements_not_cumulative (cm : ContactManager) (d1 d2 : list float) :
  (3 * length (node_ids_ cm) <= length (coord_ cm))%nat ->
  ApplyDisplacements SetCoordinates (ApplyDisplacements SetCoordinates cm d1) d2
  = ApplyDisplacements SetCoordinates cm d2.
Proof.
  intros Hlen.
  set (n := length (node_ids_ cm)) in *.
  destruct (displace_fold_spec cm d1 n (coord_ cm) Hlen) as (HL1 & _ & Hrest1).
  destruct (displace_fold_spec cm d2 n (coord_ cm) Hlen) as (HL2 & Hset2 & Hrest2).
  set (c1 := fold_left (displace_node (node_ids_ cm) (model_coord_ cm) d1) (seq 0 n)
               (coord_ cm)) in *.
  set (c2 := fold_left (displace_node (node_ids_ cm) (model_coord_ cm) d2) (seq 0 n)
               (coord_ cm)) in *.
  destruct (displace_fold_spec cm d2 n c1 ltac:(lia)) as (HL12 & Hset12 & Hrest12).
  set (c12 := fold_left (displace_node (node_ids_ cm) (model_coord_ cm) d2) (seq 0 n) c1)
    in *.
  assert (Hc : c12 = c2).
  { apply list_eq. intros j. destruct (Nat.lt_ge_cases j (3 * n)) as [Hj|Hj].
    - rewrite (Nat.div_mod_eq j 3).
      assert (j / 3 < n)%nat by (apply Nat.Div0.div_lt_upper_bound; lia).
      assert (j mod 3 < 3)%nat by (apply Nat.mod_upper_bound; lia).
      rewrite Hset12, Hset2 by assumption. reflexivity.
    - rewrite Hrest12, Hrest1, Hrest2 by assumption. reflexivity. }
  unfold ApplyDisplacements.
  cbn [node_ids_ model_coord_ coord_ force_ contact_nodes_ contact_faces_].
  fold n. fold c1. fold c12. fold c2. rewrite Hc.
  rewrite !map_map.
  f_equal; apply map_ext; intros e; apply SetCoordinates_overwrites.
Qed.

End Repeated.

Lemma SetCoordinates_model_overwrites (coord coord' : list float) (e : ContactEntity) :
  SetCoordinates_model coord (SetCoordinates_model coord' e) = SetCoordinates_model coord e.
Proof.
  unfold SetCoordinates_model. destruct (entity_type_ e); reflexivity.
Qed.

(** The theorem at work: the submodel moved by [mesh_field] and then by no
    displacement at all is back where it started. *)
Lemma ApplyDisplacements_not_cumulative_witness :
  ApplyDisplacements SetCoordinates_model
    (ApplyDisplacements SetCoordinates_model two_node_manager mesh_field)
    (replicate 18 0)
  = ApplyDisplacements SetCoordinates_model two_node_manager (replicate 18 0)
  /\ coord_ (ApplyDisplacements SetCoordinates_model
               (ApplyDisplacements SetCoordinates_model two_node_manager mesh_field)
               (replicate 18 0))
     = [0; 0; 0; 1; 1; 1].
Proof.
  pose proof (ApplyDisplacements_not_cumulative SetCoordinates_model
                SetCoordinates_model_overwrites two_node_manager mesh_field
                (replicate 18 0) (le_n 6)) as H.
  split; [exact H|]. rewrite H. reflexivity.
Defined.

Lemma nth_zeroed (force : list float) (j : nat) :
  nth j ((fun _ => 0) <$> force) 0 = 0.
Proof.
  revert j. induction force as [|x l IH]; intros [|j]; try reflexivity. apply IH.
Qed.

(** After [ZeroContactForce], [GetForces] writes a zero to the three entries
    of every mesh node of the submodel and leaves every other entry of
    [contact_force] as it was: the forces of the nodes outside the submodel
    are not reset.  (The mesh nodes of the submodel are distinct,
    [contact_force] covers them and [force_] covers the submodel.) *)
Theorem GetForces_after_ZeroContactForce (cm : ContactManager) (contact_force : list float) :
  NoDup (node_ids_ cm) ->
  Forall (fun id => 0 <= id /\ 3 * id + 2 < Z.of_nat (length contact_force))%Z
    (node_ids_ cm) ->
  (3 * length (node_ids_ cm) <= length (force_ cm))%nat ->
  let r := GetForces (ZeroContactForce cm) contact_force in
  length r = length contact_force
  /\ length (force_ (ZeroContactForce cm)) = length (force_ cm)
  /\ (forall i c, (i < length (node_ids_ cm))%nat -> (c < 3)%nat ->
        r !! Z.to_nat (3 * nth i (node_ids_ cm) 0%Z + Z.of_nat c) = Some 0)
  /\ (forall j,
        (forall i c, (i < length (node_ids_ cm))%nat -> (c < 3)%nat ->
           j <> Z.to_nat (3 * nth i (node_ids_ cm) 0%Z + Z.of_nat c)) ->
        r !! j = contact_force !! j).
Proof.
  intros Hnd Hin _ r.
  destruct (gather_fold_spec (ZeroContactForce cm) contact_force Hnd Hin _ (le_n _))
    as (HL & Hset & Hrest).
  split; [exact HL|]. split; [apply length_fmap|]. split.
  - intros i c Hi Hc. specialize (Hset i c Hi Hc).
    cbn [ZeroContactForce force_] in Hset. rewrite nth_zeroed in Hset. exact Hset.
  - exact Hrest.
Qed.

(** The theorem at work: entry 17, of the mesh node 5, becomes 0, and entry 3,
    of the mesh node 1, keeps its [1.5]. *)
Lemma GetForces_after_ZeroContactForce_witness :
  GetForces (ZeroContactForce two_node_manager) mesh_field !! 17%nat = Some 0
  /\ GetForces (ZeroContactForce two_node_manager) mesh_field !! 3%nat = Some 1.5.
Proof.
  assert (Hnd : NoDup (node_ids_ two_node_manager)).
  { simpl. repeat constructor; rewrite ?elem_of_cons, ?elem_of_nil; intros H;
      repeat destruct H as [H|H]; try discriminate; try contradiction. }
  assert (Hin : Forall (fun id => 0 <= id /\ 3 * id + 2 < Z.of_nat (length mesh_field))%Z
                  (node_ids_ two_node_manager)).
  { simpl. repeat constructor; lia. }
  destruct (GetForces_after_ZeroContactForce two_node_manager mesh_field Hnd Hin (le_n 6))
    as (_ & _ & Hset & Hrest).
  split.
  - exact (Hset 1%nat 2%nat (le_n 2) (le_n 3)).
  - apply (Hrest 3%nat). intros i c Hi Hc. simpl in Hi.
    destruct i as [|[|i]]; [| |lia]; destruct c as [|[|[|c]]]; simpl; lia.
Defined.

End TimeStepFacts.

(** ** Triangles of no area *)

Module DegenerateFacts.
Import Kernel.
Local Open Scope float_scope.

(** The squared length of the normal, as the three projections compute it. *)
Definition n_squared (tri : ContactEntity) : float :=
  let n := CrossProduct (sub3 (tri_p2 tri) (tri_p1 tri)) (sub3 (tri_p3 tri) (tri_p1 tri)) in
  at0 n * at0 n + at1 n * at1 n + at2 n * at2 n.

(** An infinity or a NaN. *)
Definition SF_unbounded (x : spec_float) : Prop :=
  match x with
  | S754_nan | S754_infinity _ => True
  | _ => False
  end.

Lemma div_by_zero (x d : float) :
  (d =? 0) = true -> SF_unbounded (Prim2SF (x / d)).
Proof.
  rewrite FloatAxioms.eqb_spec, FloatAxioms.div_spec.
  change (Prim2SF 0) with (S754_zero false).
  destruct (Prim2SF d) as [sd|sd| |sd md ed]; try destruct sd; try discriminate;
    intros _; destruct (Prim2SF x) as [sx|sx| |sx mx ex]; exact I.
Qed.

(** No number is above an infinity or a NaN and below another number at once. *)
Lemma unbounded_outside (lo hi q : float) :
  SF_unbounded (Prim2SF q) -> (lo <? q) && (q <? hi) = false.
Proof.
  rewrite !FloatAxioms.ltb_spec. unfold SFltb, SFcompare.
  destruct (Prim2SF q) as [sq|sq| |sq mq eq]; try contradiction; intros _.
  - destruct sq.
    + destruct (Prim2SF lo) as [s|[|]| |[|] m e]; reflexivity.
    + destruct (Prim2SF hi) as [s|[|]| |[|] m e]; try reflexivity;
        apply andb_false_r.
  - apply andb_false_r.
Qed.

(** When the squared normal of the triangle comes out as zero, none of the
    three projections takes the point for a point of the face, whatever the
    tolerance: [Projection] reports no contact and
    [SimpleClosestPointProjectionSingle] reports [UNKNOWN], both leaving
    their other results as they were, and [ClosestPointProjectionSingle]
    answers with the nearest vertex or edge point. *)
Theorem zero_normal_never_projects
    (FindT : double3 -> double3 -> double3 -> float)
    (FindDistanceSquared : double3 -> double3 -> double3 -> float -> float)
    (node tri : ContactEntity) (closest_point0 : double3) (gap0 : float)
    (normal0 barycentric_coordinates0 : double3) (tol : float) :
  (n_squared tri =? 0) = true ->
  Projection node tri gap0 normal0 barycentric_coordinates0 tol
  = {| in_ := false; gap := gap0; normal := normal0;
       barycentric_coordinates := barycentric_coordinates0 |}
  /\ SimpleClosestPointProjectionSingle node tri closest_point0 gap0 normal0 tol
     = {| sp_projection_type := UNKNOWN; sp_closest_point := closest_point0;
          sp_gap := gap0; sp_normal := normal0 |}
  /\ ClosestPointProjectionSingle FindT FindDistanceSquared node tri tol
     = (fallback_point (tri_p1 tri) (tri_p2 tri) (tri_p3 tri)
          (fallback_scan FindT FindDistanceSquared
             (tri_p1 tri) (tri_p2 tri) (tri_p3 tri) (node_p node)),
        NODE_OR_EDGE).
Proof.
  intros Hz. unfold n_squared in Hz. cbn zeta in Hz.
  split; [|split].
  - unfold Projection. cbn zeta.
    rewrite (unbounded_outside _ _ _ (div_by_zero _ _ Hz)), andb_false_r. reflexivity.
  - unfold SimpleClosestPointProjectionSingle. cbn zeta.
    rewrite (unbounded_outside _ _ _ (div_by_zero _ _ Hz)), andb_false_r. reflexivity.
  - unfold ClosestPointProjectionSingle. cbn zeta.
    rewrite (unbounded_outside _ _ _ (div_by_zero _ _ Hz)), andb_false_r. reflexivity.
Qed.

(** The theorem at work on a right triangle with legs of length [2^-300]:
    the square of its normal underflows to zero, and the point just under it
    is not in contact. *)
Definition tiny_triangle : ContactEntity :=
  Submodel.triangle_entity 64 0 (D3 0 0 0) (D3 0x1p-300 0 0) (D3 0 0x1p-300 0)
    0x1p-300 0 1 [0; 1; 2; 3]%Z.

Definition point_under_tiny_triangle : ContactEntity :=
  Submodel.node_entity 5 0 (D3 0x1p-302 0x1p-302 (- 0x1p-310)) 1 4.

Lemma zero_normal_never_projects_witness :
  let FindT := fun _ _ _ : double3 => 0.5 in
  let FindDistanceSquared := fun (_ _ _ : double3) (_ : float) => 1 in
  Projection point_under_tiny_triangle tiny_triangle 7 (D3 1 2 3) (D3 4 5 6) default_tol
  = {| in_ := false; gap := 7; normal := D3 1 2 3;
       barycentric_coordinates := D3 4 5 6 |}
  /\ SimpleClosestPointProjectionSingle point_under_tiny_triangle tiny_triangle
       (D3 8 9 10) 7 (D3 1 2 3) default_tol
     = {| sp_projection_type := UNKNOWN; sp_closest_point := D3 8 9 10;
          sp_gap := 7; sp_normal := D3 1 2 3 |}
  /\ ClosestPointProjectionSingle FindT FindDistanceSquared
       point_under_tiny_triangle tiny_triangle default_tol
     = (fallback_point (tri_p1 tiny_triangle) (tri_p2 tiny_triangle) (tri_p3 tiny_triangle)
          (fallback_scan FindT FindDistanceSquared
             (tri_p1 tiny_triangle) (tri_p2 tiny_triangle) (tri_p3 tiny_triangle)
             (node_p point_under_tiny_triangle)),
        NODE_OR_EDGE).
Proof.
  intros FindT FindDistanceSquared.
  exact (zero_normal_never_projects FindT FindDistanceSquared
           point_under_tiny_triangle tiny_triangle (D3 8 9 10) 7 (D3 1 2 3) (D3 4 5 6)
           default_tol eq_refl).
Defined.

End DegenerateFacts.

(** ** The bounding box of the submodel *)

Module BoundsFacts.
Import Submodel Manager Bounds.
Local Open Scope float_scope.

(** [if (e < m) m = e], over a list of values, from [m0]. *)
Definition running_min (m0 : float) (es : list float) : float :=
  fold_left (fun m e => if e <? m then e else m) es m0.

Lemma running_min_spec (es : list float) :
  forall m0 : float,
  (running_min m0 es = m0
   \/ (running_min m0 es ∈ es /\ (running_min m0 es <? m0) = true))
  /\ forall e, e ∈ es -> (e <? running_min m0 es) = false.
Proof.
  induction es as [|e es IH]; intros m0.
  - split; [left; reflexivity|]. intros e He. inversion He.
  - change (running_min m0 (e :: es)) with (running_min (if e <? m0 then e else m0) es).
    destruct (e <? m0) eqn:Hlt.
    + destruct (IH e) as [Hr Hmin]. set (r := running_min e es) in *.
      assert (Hre : (e <? r) = false).
      { destruct Hr as [->|[_ Hgt]]; [apply Flt.ltb_irrefl|].
        destruct (e <? r) eqn:E; [|reflexivity].
        pose proof (Flt.ltb_trans _ _ _ E Hgt) as Hcyc.
        rewrite Flt.ltb_irrefl in Hcyc. discriminate. }
      split.
      * right. destruct Hr as [Hr|[Hr Hgt]].
        -- rewrite Hr. split; [left|exact Hlt].
        -- split; [right; exact Hr|]. eapply Flt.ltb_trans; eauto.
      * intros e' He'. apply elem_of_cons in He' as [->|He']; auto.
    + destruct (IH m0) as [Hr Hmin]. set (r := running_min m0 es) in *.
      assert (Hre : (e <? r) = false).
      { destruct Hr as [->|[_ Hgt]]; [exact Hlt|].
        destruct (e <? r) eqn:E; [|reflexivity].
        rewrite (Flt.ltb_trans _ _ _ E Hgt) in Hlt. discriminate. }
      split.
      * destruct Hr as [Hr|[Hr Hgt]]; [left; exact Hr|].
        right. split; [right; exact Hr|exact Hgt].
      * intros e' He'. apply elem_of_cons in He' as [->|He']; auto.
Qed.

(** The coordinates number [c] of the nodes the loop visits. *)
Definition component (coord_ : list float) (c : nat) : list float :=
  (fun i => nth (i * 3 + c) coord_ 0) <$> seq 0 (length coord_ / 3).

Lemma BoundingBox_components (coord_ : list float) (idx : list nat) (b : box) :
  let col c := (fun i => nth (i * 3 + c) coord_ 0) <$> idx in
  fold_left (grow coord_) idx b
  = {| x_min := running_min (x_min b) (col 0%nat);
       x_max := running_max (x_max b) (col 0%nat);
       y_min := running_min (y_min b) (col 1%nat);
       y_max := running_max (y_max b) (col 1%nat);
       z_min := running_min (z_min b) (col 2%nat);
       z_max := running_max (z_max b) (col 2%nat) |}.
Proof.
  revert b. induction idx as [|i idx IH]; intros b; [destruct b; reflexivity|].
  cbn zeta in *. cbn [fold_left]. rewrite IH. unfold grow. cbn [x_min x_max y_min y_max z_min z_max].
  rewrite !fmap_cons. unfold running_min, running_max. cbn [fold_left].
  rewrite Nat.add_0_r. reflexivity.
Qed.


(** The lower and the upper bound of the box along the axis [c]. *)
Definition lower (b : box) (c : nat) : float :=
  match c with 0%nat => x_min b | 1%nat => y_min b | _ => z_min b end.

Definition upper (b : box) (c : nat) : float :=
  match c with 0%nat => x_max b | 1%nat => y_max b | _ => z_max b end.

Lemma BoundingBox_bounds (cm : ContactManager) (c : nat) :
  (c < 3)%nat ->
  lower (BoundingBox cm) c = running_min big (component (coord_ cm) c)
  /\ upper (BoundingBox cm) c = running_max (-1 * big) (component (coord_ cm) c).
Proof.
  intros Hc. unfold BoundingBox. rewrite BoundingBox_components.
  destruct c as [|[|[|c]]]; [| | |lia]; split; reflexivity.
Qed.

(** The box of [BoundingBox] encloses every node of the submodel: along each
    axis no coordinate is below the lower bound or above the upper bound.  A
    lower bound is either the starting value, the largest finite number, or
    the coordinate of a node below it, and likewise for an upper bound: a
    submodel without nodes gets the inverted box that runs from the largest
    finite number down to its opposite. *)
Theorem BoundingBox_encloses (cm : ContactManager) :
  let b := BoundingBox cm in
  let n := (length (coord_ cm) / 3)%nat in
  (forall c i, (c < 3)%nat -> (i < n)%nat ->
     (nth (i * 3 + c) (coord_ cm) 0 <? lower b c) = false
     /\ (upper b c <? nth (i * 3 + c) (coord_ cm) 0) = false)
  /\ (forall c, (c < 3)%nat ->
        (lower b c = big
         \/ (lower b c <? big) = true
            /\ exists i, (i < n)%nat /\ lower b c = nth (i * 3 + c) (coord_ cm) 0)
        /\ (upper b c = -1 * big
            \/ (-1 * big <? upper b c) = true
               /\ exists i, (i < n)%nat /\ upper b c = nth (i * 3 + c) (coord_ cm) 0))
  /\ (n = 0%nat ->
      b = {| x_min := big; x_max := -1 * big;
             y_min := big; y_max := -1 * big;
             z_min := big; z_max := -1 * big |}).
Proof.
  intros b n.
  assert (Helem : forall c v, v ∈ component (coord_ cm) c
                    <-> exists i, (i < n)%nat /\ v = nth (i * 3 + c) (coord_ cm) 0).
  { intros c v. unfold component. rewrite list_elem_of_fmap. fold n. split.
    - intros (i & -> & Hi). apply list_elem_of_In, in_seq in Hi. exists i. split; [lia|auto].
    - intros (i & Hi & ->). exists i. split; [reflexivity|]. apply list_elem_of_In, in_seq. lia. }
  split; [|split].
  - intros c i Hc Hi. destruct (BoundingBox_bounds cm c Hc) as [Hlo Hup]. fold b in Hlo, Hup.
    rewrite Hlo, Hup. split.
    + apply running_min_spec. apply Helem. eauto.
    + apply TriangulationFacts.running_max_spec. apply Helem. eauto.
  - intros c Hc. destruct (BoundingBox_bounds cm c Hc) as [Hlo Hup]. fold b in Hlo, Hup.
    rewrite Hlo, Hup. split.
    + destruct (running_min_spec (component (coord_ cm) c) big) as [[H|[Hin Hlt]] _];
        [left; exact H|right]. split; [exact Hlt|]. apply Helem. exact Hin.
    + destruct (TriangulationFacts.running_max_spec (component (coord_ cm) c) (-1 * big))
        as [[H|[Hin Hlt]] _]; [left; exact H|right].
      split; [exact Hlt|]. apply Helem. exact Hin.
  - intros Hn. subst b. unfold BoundingBox. fold n. rewrite Hn. reflexivity.
Qed.

(** In a build without MPI the characteristic length is the largest extent of
    the box: one of the three extents, exceeded by none of them.  For a
    submodel without nodes it is minus infinity. *)
Theorem BoundingBoxAverageCharacteristicLength_serial (cm : ContactManager) :
  let r := BoundingBoxAverageCharacteristicLengthOverAllRanks cm None in
  let b := BoundingBox cm in
  let extents := [x_max b - x_min b; y_max b - y_min b; z_max b - z_min b] in
  r ∈ extents
  /\ (forall e, e ∈ extents -> (r <? e) = false)
  /\ ((length (coord_ cm) < 3)%nat -> r = neg_infinity).
Proof.
  intros r b extents.
  assert (Hr : r = running_max (x_max b - x_min b)
                     [y_max b - y_min b; z_max b - z_min b]) by reflexivity.
  destruct (TriangulationFacts.running_max_spec [y_max b - y_min b; z_max b - z_min b]
              (x_max b - x_min b)) as [Hcase Hmax].
  rewrite <- Hr in Hcase, Hmax. split; [|split].
  - destruct Hcase as [->|[Hin _]]; [left|right; exact Hin].
  - intros e He. apply elem_of_cons in He as [->|He]; [|apply Hmax, He].
    destruct Hcase as [->|[_ Hlt]]; [apply Flt.ltb_irrefl|].
    destruct (r <? _) eqn:E; [|reflexivity].
    pose proof (Flt.ltb_trans _ _ _ Hlt E) as Hcyc.
    rewrite Flt.ltb_irrefl in Hcyc. discriminate.
  - intros Hlen. subst r. unfold BoundingBoxAverageCharacteristicLengthOverAllRanks.
    unfold BoundingBox. rewrite (Nat.div_small _ 3 Hlen). reflexivity.
Qed.

(** A manager of two nodes, at [(1, 5, -2)] and [(4, 2, 0)]. *)
Definition two_point_manager : ContactManager :=
  {| node_ids_ := [0; 1]%Z;
     model_coord_ := [1; 5; -2; 4; 2; 0];
     coord_ := [1; 5; -2; 4; 2; 0];
     force_ := [0; 0; 0; 0; 0; 0];
     contact_nodes_ := [];
     contact_faces_ := [] |}.

(** The theorems at work: the box of the two points, and its largest extent;
    a manager of no node. *)
Lemma BoundingBox_encloses_witness :
  BoundingBox two_point_manager
  = {| x_min := 1; x_max := 4; y_min := 2; y_max := 5; z_min := -2; z_max := 0 |}
  /\ (nth 3 (coord_ two_point_manager) 0 <? x_min (BoundingBox two_point_manager)) = false.
Proof.
  split; [reflexivity|].
  exact (proj1 (proj1 (BoundingBox_encloses two_point_manager) 0%nat 1%nat
                  (Nat.lt_0_succ 2) (le_n 2))).
Defined.

Lemma BoundingBoxAverageCharacteristicLength_serial_witness :
  BoundingBoxAverageCharacteristicLengthOverAllRanks two_point_manager None = 3
  /\ BoundingBoxAverageCharacteristicLengthOverAllRanks
       {| node_ids_ := []; model_coord_ := []; coord_ := []; force_ := [];
          contact_nodes_ := []; contact_faces_ := [] |} None
     = neg_infinity.
Proof.
  split; [reflexivity|].
  apply (proj2 (proj2 (BoundingBoxAverageCharacteristicLength_serial _))).
  cbn. lia.
Defined.

End BoundsFacts.

(** ** The mesh and the steps of the visualization *)

Module VisualizationFacts.
Import Manager Visualization.
Local Open Scope Z_scope.

(** The id of the node [k] (9, 10 or 11) of a contact face in the
    visualization. *)
Definition face_node_id (max_contact_entity_id : Z) (face : ContactEntity) (k : Z) : Z :=
  Int32.add
    (Int32.add (int_mul 3 (contact_entity_global_id_ face)) max_contact_entity_id) k.

(** The nodes of the visualization, in order: the three vertices of each
    contact face, then the contact nodes. *)
Definition vertices (proj1 proj2 proj3 : ContactEntity -> float) (cm : ContactManager)
  : list float :=
  flat_map (fun e => [proj1 e; proj2 e; proj3 e]) (contact_faces_ cm)
  ++ (proj1 <$> contact_nodes_ cm).

Definition vertices_x : ContactManager -> list float :=
  vertices coord_1_x_ coord_2_x_ coord_3_x_.
Definition vertices_y : ContactManager -> list float :=
  vertices coord_1_y_ coord_2_y_ coord_3_y_.
Definition vertices_z : ContactManager -> list float :=
  vertices coord_1_z_ coord_2_z_ coord_3_z_.

Definition vertex_ids (max_contact_entity_id : Z) (cm : ContactManager) : list Z :=
  flat_map (fun e => [face_node_id max_contact_entity_id e 9;
                      face_node_id max_contact_entity_id e 10;
                      face_node_id max_contact_entity_id e 11]) (contact_faces_ cm)
  ++ (contact_entity_global_id_ <$> contact_nodes_ cm).

(** The indices [a], [a + 1], ..., as the [int] counter runs through them. *)
Definition counted (a : nat) (n : nat) : list Z :=
  (fun i => Int32.wrap (Z.of_nat i)) <$> seq a n.

Lemma wrap_succ (a : Z) : Int32.add (Int32.wrap a) 1 = Int32.wrap (a + 1).
Proof.
  unfold Int32.add, Int32.wrap.
  replace ((a + 2 ^ 31) mod 2 ^ 32 - 2 ^ 31 + 1 + 2 ^ 31)
    with ((a + 2 ^ 31) mod 2 ^ 32 + 1) by lia.
  replace (a + 1 + 2 ^ 31) with (a + 2 ^ 31 + 1) by lia.
  rewrite Zplus_mod_idemp_l. reflexivity.
Qed.

(** The state of the loops: what has been pushed so far. *)
Record filled (d : mesh_data) (ids : list Z) (xs ys zs : list float) (elems : list Z)
    (count : nat) : Prop := {
  fd_ids : node_global_id d = ids;
  fd_x : node_x d = xs;
  fd_y : node_y d = ys;
  fd_z : node_z d = zs;
  fd_elems : elem_global_id d = elems;
  fd_index : node_index d = Int32.wrap (Z.of_nat count)
}.

Lemma find_subscript_push (k x : Z) (m : list (Z * list Z)) (conn : list Z) :
  StdMap.find Z.compare k m = Some conn ->
  StdMap.find Z.compare k (subscript_push k x m) = Some (conn ++ [x]).
Proof.
  intros H. unfold subscript_push. rewrite H.
  rewrite StdMapFacts.find_alter, H. reflexivity.
Qed.

Lemma find_subscript_push_ne (k k' x : Z) (m : list (Z * list Z)) :
  k' <> k ->
  StdMap.find Z.compare k' (subscript_push k x m) = StdMap.find Z.compare k' m.
Proof.
  intros H. unfold subscript_push. destruct (StdMap.find Z.compare k m).
  - apply (StdMapFacts.find_alter_ne _ Z_compare_eq). exact H.
  - apply (StdMapFacts.find_insert_ne _ Z_compare_eq). exact H.
Qed.


(** The loops leave the blocks as they were opened. *)
Definition same_blocks (d d' : mesh_data) : Prop :=
  block_ids d' = block_ids d
  /\ block_names d' = block_names d
  /\ block_elem_global_ids d' = block_elem_global_ids d
  /\ block_num_nodes_per_elem d' = block_num_nodes_per_elem d.

Lemma counted_snoc (a n : nat) :
  counted a (S n) = counted a n ++ [Int32.wrap (Z.of_nat (a + n))].
Proof. unfold counted. rewrite seq_S, fmap_app. reflexivity. Qed.

Lemma visualize_faces_filled (max_id : Z) (faces : list ContactEntity) :
  forall (d : mesh_data) (ids : list Z) (xs ys zs : list float) (elems : list Z)
         (count : nat) (conn : list Z),
  filled d ids xs ys zs elems count ->
  StdMap.find Z.compare 1 (block_elem_connectivity d) = Some conn ->
  let d' := fold_left (visualize_face max_id) faces d in
  filled d'
    (ids ++ flat_map (fun e => [face_node_id max_id e 9; face_node_id max_id e 10;
                                face_node_id max_id e 11]) faces)
    (xs ++ flat_map (fun e => [coord_1_x_ e; coord_2_x_ e; coord_3_x_ e]) faces)
    (ys ++ flat_map (fun e => [coord_1_y_ e; coord_2_y_ e; coord_3_y_ e]) faces)
    (zs ++ flat_map (fun e => [coord_1_z_ e; coord_2_z_ e; coord_3_z_ e]) faces)
    (elems ++ (contact_entity_global_id_ <$> faces))
    (count + 3 * length faces)
  /\ StdMap.find Z.compare 1 (block_elem_connectivity d')
     = Some (conn ++ counted count (3 * length faces))
  /\ same_blocks d d'.
Proof.
  induction faces as [|e faces IH]; intros d ids xs ys zs elems count conn Hd Hconn.
  - cbn [fold_left flat_map fmap list_fmap length]. rewrite !app_nil_r, Nat.mul_0_r, Nat.add_0_r.
    split; [exact Hd|]. split; [exact Hconn|]. repeat split.
  - cbn [fold_left]. destruct Hd as [Hi Hx Hy Hz He Hn].
    set (d1 := visualize_face max_id d e).
    assert (Hd1 : filled d1
              (ids ++ [face_node_id max_id e 9; face_node_id max_id e 10;
                       face_node_id max_id e 11])
              (xs ++ [coord_1_x_ e; coord_2_x_ e; coord_3_x_ e])
              (ys ++ [coord_1_y_ e; coord_2_y_ e; coord_3_y_ e])
              (zs ++ [coord_1_z_ e; coord_2_z_ e; coord_3_z_ e])
              (elems ++ [contact_entity_global_id_ e]) (count + 3)).
    { subst d1. unfold visualize_face. split;
        cbn [push_elem push_node node_global_id node_x node_y node_z elem_global_id
             node_index].
      - rewrite Hi, <- !app_assoc. reflexivity.
      - rewrite Hx, <- !app_assoc. reflexivity.
      - rewrite Hy, <- !app_assoc. reflexivity.
      - rewrite Hz, <- !app_assoc. reflexivity.
      - rewrite He. reflexivity.
      - rewrite Hn, !wrap_succ. f_equal. lia. }
    assert (Hc1 : StdMap.find Z.compare 1 (block_elem_connectivity d1)
                  = Some (conn ++ counted count 3)).
    { subst d1. unfold visualize_face.
      cbn [push_elem push_node block_elem_connectivity node_index].
      pose proof (find_subscript_push 1 (node_index d) _ _ Hconn) as H1.
      pose proof (find_subscript_push 1 (Int32.add (node_index d) 1) _ _ H1) as H2.
      pose proof (find_subscript_push 1 (Int32.add (Int32.add (node_index d) 1) 1) _ _ H2)
        as H3.
      rewrite H3, Hn, !wrap_succ, <- !app_assoc. unfold counted. cbn [seq fmap list_fmap app].
      repeat f_equal; lia. }
    destruct (IH d1 _ _ _ _ _ _ _ Hd1 Hc1) as (Hf & Hc & Hb1 & Hb2 & Hb3 & Hb4).
    cbn zeta in *. split; [|split].
    + cbn [flat_map fmap list_fmap length].
      replace (count + 3 * S (length faces))%nat with (count + 3 + 3 * length faces)%nat by lia.
      rewrite <- !app_assoc in Hf. cbn [app] in Hf |- *. exact Hf.
    + rewrite Hc, <- app_assoc. f_equal. cbn [length]. unfold counted.
      replace (3 * S (length faces))%nat with (3 + 3 * length faces)%nat by lia.
      rewrite seq_app, fmap_app. reflexivity.
    + unfold same_blocks. rewrite Hb1, Hb2, Hb3, Hb4. repeat split.
Qed.


Lemma visualize_nodes_filled (nodes : list ContactEntity) :
  forall (d : mesh_data) (ids : list Z) (xs ys zs : list float) (elems : list Z)
         (count : nat) (conn : list Z),
  filled d ids xs ys zs elems count ->
  StdMap.find Z.compare 2 (block_elem_connectivity d) = Some conn ->
  let d' := fold_left visualize_node nodes d in
  filled d'
    (ids ++ (contact_entity_global_id_ <$> nodes))
    (xs ++ (coord_1_x_ <$> nodes)) (ys ++ (coord_1_y_ <$> nodes))
    (zs ++ (coord_1_z_ <$> nodes))
    (elems ++ (contact_entity_global_id_ <$> nodes))
    (count + length nodes)
  /\ StdMap.find Z.compare 2 (block_elem_connectivity d')
     = Some (conn ++ counted count (length nodes))
  /\ StdMap.find Z.compare 1 (block_elem_connectivity d')
     = StdMap.find Z.compare 1 (block_elem_connectivity d)
  /\ same_blocks d d'.
Proof.
  induction nodes as [|e nodes IH]; intros d ids xs ys zs elems count conn Hd Hconn.
  - cbn [fold_left fmap list_fmap length]. rewrite !app_nil_r, Nat.add_0_r.
    split; [exact Hd|]. split; [exact Hconn|]. repeat split.
  - cbn [fold_left]. destruct Hd as [Hi Hx Hy Hz He Hn].
    set (d1 := visualize_node d e).
    assert (Hd1 : filled d1 (ids ++ [contact_entity_global_id_ e])
              (xs ++ [coord_1_x_ e]) (ys ++ [coord_1_y_ e]) (zs ++ [coord_1_z_ e])
              (elems ++ [contact_entity_global_id_ e]) (count + 1)).
    { subst d1. unfold visualize_node. split;
        cbn [push_elem push_node node_global_id node_x node_y node_z elem_global_id
             node_index]; try congruence.
      rewrite Hn, wrap_succ. f_equal. lia. }
    assert (Hc1 : StdMap.find Z.compare 2 (block_elem_connectivity d1)
                  = Some (conn ++ counted count 1)).
    { subst d1. unfold visualize_node.
      cbn [push_elem push_node block_elem_connectivity node_index].
      rewrite (find_subscript_push 2 (node_index d) _ _ Hconn), Hn.
      unfold counted. cbn [seq fmap list_fmap]. reflexivity. }
    assert (Hc1' : StdMap.find Z.compare 1 (block_elem_connectivity d1)
                   = StdMap.find Z.compare 1 (block_elem_connectivity d)).
    { subst d1. unfold visualize_node.
      cbn [push_elem push_node block_elem_connectivity node_index].
      apply find_subscript_push_ne. discriminate. }
    destruct (IH d1 _ _ _ _ _ _ _ Hd1 Hc1) as (Hf & Hc & Hc' & Hb1 & Hb2 & Hb3 & Hb4).
    cbn zeta in *. split; [|split; [|split]].
    + cbn [fmap list_fmap length].
      replace (count + S (length nodes))%nat with (count + 1 + length nodes)%nat by lia.
      rewrite <- !app_assoc in Hf. cbn [app] in Hf |- *. exact Hf.
    + rewrite Hc, <- app_assoc. f_equal. cbn [length]. unfold counted.
      change (S (length nodes)) with (1 + length nodes)%nat.
      rewrite seq_app, fmap_app. reflexivity.
    + rewrite Hc', Hc1'. reflexivity.
    + unfold same_blocks. rewrite Hb1, Hb2, Hb3, Hb4. repeat split.
Qed.

(** What [InitializeContactVisualization] has pushed when it calls
    [mesh.Initialize]. *)
Lemma visualization_filled (env : Environment) (cm : ContactManager) :
  let d := InitializeContactVisualization env cm in
  let faces := length (contact_faces_ cm) in
  let nodes := length (contact_nodes_ cm) in
  filled d (vertex_ids (max_contact_entity_id env cm) cm)
    (vertices_x cm) (vertices_y cm) (vertices_z cm)
    ((contact_entity_global_id_ <$> contact_faces_ cm)
     ++ (contact_entity_global_id_ <$> contact_nodes_ cm))
    (3 * faces + nodes)
  /\ StdMap.find Z.compare 1 (block_elem_connectivity d) = Some (counted 0 (3 * faces))
  /\ StdMap.find Z.compare 2 (block_elem_connectivity d)
     = Some (counted (3 * faces) nodes)
  /\ block_ids d = [1; 2]
  /\ block_num_nodes_per_elem d = [(1, 3); (2, 1)]
  /\ block_elem_global_ids d = [(1, []); (2, [])].
Proof.
  intros d faces nodes. subst d. unfold InitializeContactVisualization.
  set (M := max_contact_entity_id env cm).
  set (d0 := open_block 1 _ _ _).
  assert (Hd0 : filled d0 [] [] [] [] [] 0) by (split; reflexivity).
  destruct (visualize_faces_filled M (contact_faces_ cm) d0 _ _ _ _ _ _ []
              Hd0 eq_refl) as (Hf & Hc1 & Hb1 & Hb2 & Hb3 & Hb4).
  cbn zeta in *. set (d1 := fold_left (visualize_face M) (contact_faces_ cm) d0) in *.
  set (d2 := open_block 2 _ _ d1).
  assert (Hd2 : filled d2
            ([] ++ flat_map (fun e => [face_node_id M e 9; face_node_id M e 10;
                                       face_node_id M e 11]) (contact_faces_ cm))
            ([] ++ flat_map (fun e => [coord_1_x_ e; coord_2_x_ e; coord_3_x_ e])
                     (contact_faces_ cm))
            ([] ++ flat_map (fun e => [coord_1_y_ e; coord_2_y_ e; coord_3_y_ e])
                     (contact_faces_ cm))
            ([] ++ flat_map (fun e => [coord_1_z_ e; coord_2_z_ e; coord_3_z_ e])
                     (contact_faces_ cm))
            ([] ++ (contact_entity_global_id_ <$> contact_faces_ cm))
            (0 + 3 * length (contact_faces_ cm))).
  { destruct Hf. split; assumption. }
  assert (Hc2 : StdMap.find Z.compare 2 (block_elem_connectivity d2) = Some []).
  { subst d2. cbn [open_block block_elem_connectivity].
    apply (StdMapFacts.find_insert _ Z_compare_eq). }
  assert (Hc21 : StdMap.find Z.compare 1 (block_elem_connectivity d2)
                 = Some ([] ++ counted 0 (3 * length (contact_faces_ cm)))).
  { subst d2. cbn [open_block block_elem_connectivity].
    rewrite (StdMapFacts.find_insert_ne _ Z_compare_eq) by discriminate. exact Hc1. }
  destruct (visualize_nodes_filled (contact_nodes_ cm) d2 _ _ _ _ _ _ [] Hd2 Hc2)
    as (Hfill & Hcn & Hcn1 & Hn1 & Hn2 & Hn3 & Hn4).
  cbn zeta in *. cbn [app Nat.add] in *.
  split; [exact Hfill|]. split; [rewrite Hcn1; exact Hc21|]. split; [exact Hcn|].
  split; [rewrite Hn1; subst d2; cbn; rewrite Hb1; reflexivity|].
  split.
  - rewrite Hn4. subst d2. cbn [open_block block_num_nodes_per_elem]. rewrite Hb4.
    reflexivity.
  - rewrite Hn3. subst d2. cbn [open_block block_elem_global_ids]. rewrite Hb3.
    reflexivity.
Qed.

Lemma length_flat_map_three (A : Type) (f g h : ContactEntity -> A)
    (l : list ContactEntity) :
  length (flat_map (fun e => [f e; g e; h e]) l) = (3 * length l)%nat.
Proof.
  induction l as [|e l IH]; [reflexivity|].
  cbn [flat_map length app]. rewrite IH. lia.
Qed.

Lemma length_vertices (p1 p2 p3 : ContactEntity -> float) (cm : ContactManager) :
  length (vertices p1 p2 p3 cm)
  = (3 * length (contact_faces_ cm) + length (contact_nodes_ cm))%nat.
Proof.
  unfold vertices. rewrite length_app, length_fmap, (length_flat_map_three float).
  reflexivity.
Qed.

(** The mesh of the visualization: three nodes of its own for each contact
    face and one for each contact node, in this order, with the coordinates
    of the entities; the element ids are the entity ids; the element [e] of
    the block 1 joins the nodes [3 e], [3 e + 1] and [3 e + 2] and the block 2
    has one node to the element; [block_elem_global_ids] is left empty for
    both blocks. *)
Theorem InitializeContactVisualization_mesh (env : Environment) (cm : ContactManager) :
  let d := InitializeContactVisualization env cm in
  let faces := length (contact_faces_ cm) in
  let nodes := length (contact_nodes_ cm) in
  node_global_id d = vertex_ids (max_contact_entity_id env cm) cm
  /\ node_x d = vertices_x cm /\ node_y d = vertices_y cm /\ node_z d = vertices_z cm
  /\ length (node_global_id d) = (3 * faces + nodes)%nat
  /\ length (node_x d) = (3 * faces + nodes)%nat
  /\ elem_global_id d
     = (contact_entity_global_id_ <$> contact_faces_ cm)
       ++ (contact_entity_global_id_ <$> contact_nodes_ cm)
  /\ block_ids d = [1; 2]
  /\ StdMap.find Z.compare 1 (block_elem_connectivity d) = Some (counted 0 (3 * faces))
  /\ StdMap.find Z.compare 2 (block_elem_connectivity d)
     = Some (counted (3 * faces) nodes)
  /\ block_num_nodes_per_elem d = [(1, 3); (2, 1)]
  /\ block_elem_global_ids d = [(1, []); (2, [])].
Proof.
  intros d faces nodes.
  destruct (visualization_filled env cm) as ([Hi Hx Hy Hz He _] & Hc1 & Hc2 & Hb & Hn & Hg).
  fold d in Hi, Hx, Hy, Hz, He, Hc1, Hc2, Hb, Hn, Hg.
  split; [exact Hi|]. split; [exact Hx|]. split; [exact Hy|]. split; [exact Hz|].
  split.
  { rewrite Hi. unfold vertex_ids. rewrite length_app, length_fmap.
    rewrite (length_flat_map_three Z). reflexivity. }
  split; [rewrite Hx; apply length_vertices|].
  repeat (split; [assumption|]). assumption.
Qed.

(** *** The node ids of the visualization are distinct *)

Lemma raise_max_fold (l : list ContactEntity) (m : Z) :
  m <= fold_left raise_max l m
  /\ Forall (fun e => contact_entity_global_id_ e <= fold_left raise_max l m) l.
Proof.
  revert m. induction l as [|e l IH]; intros m; cbn [fold_left].
  - split; [lia|constructor].
  - destruct (IH (raise_max m e)) as [H1 H2].
    assert (Hm : m <= raise_max m e /\ contact_entity_global_id_ e <= raise_max m e).
    { unfold raise_max. destruct (Z.ltb_spec m (contact_entity_global_id_ e)); lia. }
    split; [lia|]. constructor; [lia|exact H2].
Qed.

(** [max_contact_entity_id] is not negative and bounds the id of every contact
    entity of the rank, when the reduction returns no less than the rank gave. *)
Lemma max_contact_entity_id_bounds (env : Environment) (cm : ContactManager) :
  (forall z, z <= allreduce_max env z) ->
  0 <= max_contact_entity_id env cm
  /\ Forall (fun e => contact_entity_global_id_ e <= max_contact_entity_id env cm)
       (contact_faces_ cm ++ contact_nodes_ cm).
Proof.
  intros Hmax. unfold max_contact_entity_id. cbn zeta.
  set (m1 := fold_left raise_max (contact_faces_ cm) 0).
  destruct (raise_max_fold (contact_faces_ cm) 0) as [H0 Hf]. fold m1 in H0, Hf.
  destruct (raise_max_fold (contact_nodes_ cm) m1) as [H1 Hn].
  set (m2 := fold_left raise_max (contact_nodes_ cm) m1) in *.
  pose proof (Hmax m2) as H2.
  split; [lia|]. apply Forall_app. split.
  - eapply Forall_impl; [exact Hf|]. cbn beta. intros e He. lia.
  - eapply Forall_impl; [exact Hn|]. cbn beta. intros e He. lia.
Qed.

Lemma wrap_exact (z : Z) : - 2 ^ 31 <= z < 2 ^ 31 -> Int32.wrap z = z.
Proof.
  intros H. unfold Int32.wrap. rewrite Z.mod_small by lia. lia.
Qed.

Lemma face_node_id_exact (M : Z) (e : ContactEntity) (k : Z) :
  0 <= M -> 0 <= k <= 11 ->
  0 <= contact_entity_global_id_ e ->
  3 * contact_entity_global_id_ e + M + 11 <= Int32.INT_MAX ->
  face_node_id M e k = 3 * contact_entity_global_id_ e + M + k.
Proof.
  unfold Int32.INT_MAX. intros HM Hk H0 H1.
  unfold face_node_id, Int32.add, int_mul.
  rewrite (wrap_exact (3 * _)) by lia.
  rewrite (wrap_exact (3 * _ + M)) by lia.
  apply wrap_exact. lia.
Qed.

Lemma face_node_ids_elem (M : Z) (l : list ContactEntity) (x : Z) :
  0 <= M ->
  Forall (fun e => 0 <= contact_entity_global_id_ e
                   /\ 3 * contact_entity_global_id_ e + M + 11 <= Int32.INT_MAX) l ->
  x ∈ flat_map (fun e => [face_node_id M e 9; face_node_id M e 10; face_node_id M e 11]) l ->
  exists e k, e ∈ l /\ 9 <= k <= 11 /\ x = 3 * contact_entity_global_id_ e + M + k.
Proof.
  intros HM Hl Hx. apply list_elem_of_In, in_flat_map in Hx.
  destruct Hx as (e & He & Hx). apply list_elem_of_In in He.
  pose proof (proj1 (Forall_forall _ _) Hl e He) as [H0 H1].
  rewrite !face_node_id_exact in Hx by lia.
  exists e. cbn [In] in Hx. destruct Hx as [<-|[<-|[<-|[]]]].
  - exists 9. split; [exact He|]. lia.
  - exists 10. split; [exact He|]. lia.
  - exists 11. split; [exact He|]. lia.
Qed.

Lemma face_node_ids_NoDup (M : Z) (l : list ContactEntity) :
  0 <= M ->
  Forall (fun e => 0 <= contact_entity_global_id_ e
                   /\ 3 * contact_entity_global_id_ e + M + 11 <= Int32.INT_MAX) l ->
  NoDup (contact_entity_global_id_ <$> l) ->
  NoDup (flat_map (fun e => [face_node_id M e 9; face_node_id M e 10; face_node_id M e 11])
           l).
Proof.
  intros HM. induction l as [|e l IH]; intros Hl Hnd; [constructor|].
  rewrite fmap_cons in Hnd. apply NoDup_cons in Hnd as [Hne Hnd].
  apply Forall_cons in Hl as [[H0 H1] Hl].
  cbn [flat_map app]. rewrite !face_node_id_exact by lia.
  assert (Hfresh : forall k, 9 <= k <= 11 ->
            3 * contact_entity_global_id_ e + M + k
            ∉ flat_map (fun e => [face_node_id M e 9; face_node_id M e 10;
                                  face_node_id M e 11]) l).
  { intros k Hk Hin. apply (face_node_ids_elem M l _ HM Hl) in Hin.
    destruct Hin as (e' & k' & He' & Hk' & Heq).
    assert (contact_entity_global_id_ e' = contact_entity_global_id_ e) as Hid by lia.
    apply Hne. rewrite <- Hid. apply list_elem_of_fmap. exists e'. split; [reflexivity|exact He']. }
  apply NoDup_cons. split.
  { rewrite !elem_of_cons. intros [?|[?|?]]; [lia|lia|]. apply (Hfresh 9); [lia|assumption]. }
  apply NoDup_cons. split.
  { rewrite !elem_of_cons. intros [?|?]; [lia|]. apply (Hfresh 10); [lia|assumption]. }
  apply NoDup_cons. split.
  { apply (Hfresh 11). lia. }
  apply IH; assumption.
Qed.

(** The ids of the nodes of the visualization are pairwise distinct, and the
    three nodes of a face have ids above [max_contact_entity_id], hence above
    the id of every contact node, when: the contact faces have pairwise
    distinct ids, so have the contact nodes, the reduction returns no less than
    the rank gave, no face id is negative, and
    [3 * id + max_contact_entity_id + 11] fits an [int] for every face. *)
Theorem visualization_node_ids_distinct (env : Environment) (cm : ContactManager) :
  (forall z, z <= allreduce_max env z) ->
  NoDup (contact_entity_global_id_ <$> contact_faces_ cm) ->
  NoDup (contact_entity_global_id_ <$> contact_nodes_ cm) ->
  Forall (fun e => 0 <= contact_entity_global_id_ e
                   /\ 3 * contact_entity_global_id_ e + max_contact_entity_id env cm + 11
                      <= Int32.INT_MAX) (contact_faces_ cm) ->
  let d := InitializeContactVisualization env cm in
  NoDup (node_global_id d)
  /\ forall i id, node_global_id d !! i = Some id ->
       (i < 3 * length (contact_faces_ cm))%nat ->
       max_contact_entity_id env cm < id.
Proof.
  intros Hmax Hfaces Hnodes Hfit d.
  destruct (visualization_filled env cm) as ([Hi _ _ _ _ _] & _). fold d in Hi.
  destruct (max_contact_entity_id_bounds env cm Hmax) as [HM Hle].
  apply Forall_app in Hle as [_ Hle].
  set (M := max_contact_entity_id env cm) in *.
  rewrite Hi. unfold vertex_ids. split.
  - apply NoDup_app. split; [apply face_node_ids_NoDup; assumption|]. split; [|exact Hnodes].
    intros x Hx Hn. apply (face_node_ids_elem M _ _ HM Hfit) in Hx.
    destruct Hx as (e & k & He & Hk & ->).
    apply list_elem_of_fmap in Hn as (n & Hid & Hn).
    pose proof (proj1 (Forall_forall _ _) Hle n Hn) as Hb. cbn beta in Hb.
    pose proof (proj1 (Forall_forall _ _) Hfit e He) as [H0 _]. lia.
  - intros i id Hid Hlt. rewrite lookup_app_l in Hid
      by (rewrite (length_flat_map_three Z); exact Hlt).
    apply list_elem_of_lookup_2 in Hid.
    apply (face_node_ids_elem M _ _ HM Hfit) in Hid.
    destruct Hid as (e & k & He & Hk & ->).
    pose proof (proj1 (Forall_forall _ _) Hfit e He) as [H0 _]. lia.
Qed.

(** The theorem at work on the submodel of the two glued hexahedra. *)
Lemma visualization_node_ids_distinct_witness :
  exists cm,
    CreateContactEntities SkinFacts.two_hex_mesh EntityIdFacts.serial_run [1] [1]
    = Some cm
    /\ let d := InitializeContactVisualization EntityIdFacts.serial_run cm in
       NoDup (node_global_id d)
       /\ forall i id, node_global_id d !! i = Some id ->
            (i < 3 * length (contact_faces_ cm))%nat ->
            max_contact_entity_id EntityIdFacts.serial_run cm < id.
Proof.
  destruct (CreateContactEntities SkinFacts.two_hex_mesh EntityIdFacts.serial_run
              [1] [1]) as [cm|] eqn:E; [|vm_compute in E; discriminate].
  exists cm. split; [reflexivity|].
  vm_compute in E. injection E as <-.
  apply visualization_node_ids_distinct.
  - intros z. cbn. lia.
  - apply (bool_decide_unpack _). vm_compute. exact I.
  - apply (bool_decide_unpack _). vm_compute. exact I.
  - apply (bool_decide_unpack _). vm_compute. exact I.
Defined.

(** *** The data of a step *)

Section StepFacts.

Variable contact_status : ContactEntity -> float.
Variable num_contacts : ContactManager -> float.

(** The status of the nodes of the visualization, in their order. *)
Definition statuses (cm : ContactManager) : list float :=
  flat_map (fun e => [contact_status e; contact_status e; contact_status e])
    (contact_faces_ cm)
  ++ (contact_status <$> contact_nodes_ cm).

(** [current - model] on the first nodes, and the zeros of [resize] on the
    others. *)
Definition displacements (current model : list float) (num_nodes : nat) : list float :=
  zip_with (fun c m => (c - m)%float) current model
  ++ replicate (num_nodes - length current) 0%float.

Definition padded (values : list float) (num_nodes : nat) : list float :=
  values ++ replicate (num_nodes - length values) 0%float.

(** What is written for one node: its coordinates and its status. *)
Definition written : Type := float * float * float * float.

Definition face_written (e : ContactEntity) : list written :=
  [(coord_1_x_ e, coord_1_y_ e, coord_1_z_ e, contact_status e);
   (coord_2_x_ e, coord_2_y_ e, coord_2_z_ e, contact_status e);
   (coord_3_x_ e, coord_3_y_ e, coord_3_z_ e, contact_status e)].

Definition node_written (e : ContactEntity) : written :=
  (coord_1_x_ e, coord_1_y_ e, coord_1_z_ e, contact_status e).

Definition all_written (cm : ContactManager) : list written :=
  flat_map face_written (contact_faces_ cm) ++ (node_written <$> contact_nodes_ cm).

Definition write (mx my mz : list float) (st : option (list (list float) * Z))
    (w : written) : option (list (list float) * Z) :=
  st ≫= write_node mx my mz w.1.1.1 w.1.1.2 w.1.2 w.2.

Lemma write_faces (mx my mz : list float) (faces : list ContactEntity)
    (st : option (list (list float) * Z)) :
  fold_left (write_face contact_status mx my mz) faces st
  = fold_left (write mx my mz) (flat_map face_written faces) st.
Proof.
  revert st. induction faces as [|e l IH]; intros st; [reflexivity|].
  cbn [flat_map fold_left face_written app]. rewrite IH. f_equal.
  unfold write_face, write. cbn [fst snd]. destruct st as [st|]; [|reflexivity].
  cbn [mbind option_bind].
  destruct (write_node mx my mz (coord_1_x_ e) _ _ _ st) as [st1|]; [|reflexivity].
  cbn [mbind option_bind].
  destruct (write_node mx my mz (coord_2_x_ e) _ _ _ st1) as [st2|]; reflexivity.
Qed.

Lemma write_nodes (mx my mz : list float) (nodes : list ContactEntity)
    (st : option (list (list float) * Z)) :
  fold_left (write_contact_node contact_status mx my mz) nodes st
  = fold_left (write mx my mz) (node_written <$> nodes) st.
Proof.
  revert st. induction nodes as [|e l IH]; intros st; [reflexivity|].
  rewrite fmap_cons. cbn [fold_left]. rewrite IH. reflexivity.
Qed.

Lemma write_None (mx my mz : list float) (ws : list written) :
  fold_left (write mx my mz) ws None = None.
Proof. induction ws as [|w ws IH]; [reflexivity|exact IH]. Qed.

Lemma zip_with_snoc (f : float -> float -> float) (l k : list float) (a c : float) :
  k !! length l = Some c ->
  zip_with f (l ++ [a]) k = zip_with f l k ++ [f a c].
Proof.
  revert k. induction l as [|x l IH]; intros [|y k] Hk; try discriminate.
  - cbn in Hk. injection Hk as ->. reflexivity.
  - cbn [app zip_with length] in *. rewrite IH by exact Hk. reflexivity.
Qed.

Lemma length_zip_with_le (f : float -> float -> float) (l k : list float) :
  (length l <= length k)%nat -> length (zip_with f l k) = length l.
Proof.
  revert k. induction l as [|x l IH]; intros [|y k] H; cbn in *; try lia.
  rewrite IH by lia. reflexivity.
Qed.

Lemma length_displacements (current model : list float) (num_nodes : nat) :
  (length current <= num_nodes)%nat -> length model = num_nodes ->
  length (displacements current model num_nodes) = num_nodes.
Proof.
  intros H1 H2. unfold displacements.
  rewrite length_app, length_zip_with_le, length_replicate by lia. lia.
Qed.

Lemma displacements_snoc (current model : list float) (num_nodes : nat) (x c : float) :
  (length current < num_nodes)%nat -> length model = num_nodes ->
  model !! length current = Some c ->
  <[length current := (x - c)%float]> (displacements current model num_nodes)
  = displacements (current ++ [x]) model num_nodes.
Proof.
  intros H1 H2 Hc. unfold displacements.
  rewrite (zip_with_snoc _ _ _ x c Hc), length_app. cbn [length].
  replace (num_nodes - length current)%nat with (S (num_nodes - (length current + 1)))
    by lia.
  cbn [replicate].
  assert (Hl : length (zip_with (fun c m => (c - m)%float) current model) = length current)
    by (apply length_zip_with_le; lia).
  rewrite <- Hl at 1. rewrite insert_app_r_alt by lia.
  rewrite Nat.sub_diag. cbn [insert list_insert]. rewrite <- app_assoc. reflexivity.
Qed.

Lemma padded_snoc (values : list float) (num_nodes : nat) (v : float) :
  (length values < num_nodes)%nat ->
  <[length values := v]> (padded values num_nodes) = padded (values ++ [v]) num_nodes.
Proof.
  intros H1. unfold padded. rewrite length_app. cbn [length].
  replace (num_nodes - length values)%nat with (S (num_nodes - (length values + 1)))
    by lia.
  cbn [replicate]. rewrite insert_app_r_alt by lia.
  rewrite Nat.sub_diag. cbn [insert list_insert]. rewrite <- app_assoc. reflexivity.
Qed.

Lemma length_padded (values : list float) (num_nodes : nat) :
  (length values <= num_nodes)%nat -> length (padded values num_nodes) = num_nodes.
Proof.
  intros H. unfold padded. rewrite length_app, length_replicate. lia.
Qed.

Lemma model_coord_inside (coord : list float) (i : nat) :
  model_coord coord (Z.of_nat i) = coord !! i.
Proof.
  unfold model_coord. destruct (Z.ltb_spec (Z.of_nat i) 0) as [?|_]; [lia|].
  rewrite Nat2Z.id. reflexivity.
Qed.

Lemma set_data_inside (k i : nat) (v : float) (data : list (list float))
    (ndata : list float) :
  data !! k = Some ndata -> (i < length ndata)%nat ->
  set_data k (Z.of_nat i) v data = Some (<[k := <[i := v]> ndata]> data).
Proof.
  intros Hk Hi. unfold set_data. rewrite Hk. cbn [mbind option_bind].
  destruct (Z.leb_spec 0 (Z.of_nat i)) as [_|?]; [|lia].
  destruct (Z.ltb_spec (Z.of_nat i) (Z.of_nat (length ndata))) as [_|?]; [|lia].
  cbn [andb]. rewrite Nat2Z.id. reflexivity.
Qed.

(** The state after the writes [ws], while they stay inside the vectors. *)
Lemma write_fold (mx my mz : list float) (num_nodes : nat) (ws : list written) :
  length mx = num_nodes -> length my = num_nodes -> length mz = num_nodes ->
  Z.of_nat num_nodes <= Int32.INT_MAX ->
  (length ws <= num_nodes)%nat ->
  fold_left (write mx my mz) ws
    (Some (replicate 4 (replicate num_nodes 0%float), 0))
  = Some ([displacements ((fun w : written => w.1.1.1) <$> ws) mx num_nodes;
           displacements ((fun w : written => w.1.1.2) <$> ws) my num_nodes;
           displacements ((fun w : written => w.1.2) <$> ws) mz num_nodes;
           padded ((fun w : written => w.2) <$> ws) num_nodes],
          Z.of_nat (length ws)).
Proof.
  intros Hx Hy Hz Hmax. unfold Int32.INT_MAX in Hmax.
  induction ws as [|w ws IH] using rev_ind; intros Hlen.
  - cbn [fold_left fmap list_fmap length]. unfold displacements, padded.
    cbn [zip_with length app]. rewrite Nat.sub_0_r. reflexivity.
  - rewrite length_app in Hlen. cbn [length] in Hlen.
    rewrite fold_left_app, IH by lia. cbn [fold_left]. clear IH.
    rewrite !fmap_app, length_app. cbn [fmap list_fmap length].
    set (xs := (fun w : written => w.1.1.1) <$> ws).
    set (ys := (fun w : written => w.1.1.2) <$> ws).
    set (zs := (fun w : written => w.1.2) <$> ws).
    set (ss := (fun w : written => w.2) <$> ws).
    assert (Hlx : length xs = length ws) by apply length_fmap.
    assert (Hly : length ys = length ws) by apply length_fmap.
    assert (Hlz : length zs = length ws) by apply length_fmap.
    assert (Hls : length ss = length ws) by apply length_fmap.
    destruct (lookup_lt_is_Some_2 mx (length ws) ltac:(lia)) as [cx Hcx].
    destruct (lookup_lt_is_Some_2 my (length ws) ltac:(lia)) as [cy Hcy].
    destruct (lookup_lt_is_Some_2 mz (length ws) ltac:(lia)) as [cz Hcz].
    unfold write. cbn [mbind option_bind]. unfold write_node.
    rewrite !model_coord_inside, Hcx, Hcy, Hcz. cbn [mbind option_bind].
    rewrite (set_data_inside 0 _ _ _ (displacements xs mx num_nodes))
      by (rewrite ?length_displacements by lia; first [reflexivity|lia]).
    cbn [mbind option_bind insert list_insert].
    rewrite (set_data_inside 1 _ _ _ (displacements ys my num_nodes))
      by (rewrite ?length_displacements by lia; first [reflexivity|lia]).
    cbn [mbind option_bind insert list_insert].
    rewrite (set_data_inside 2 _ _ _ (displacements zs mz num_nodes))
      by (rewrite ?length_displacements by lia; first [reflexivity|lia]).
    cbn [mbind option_bind insert list_insert].
    rewrite (set_data_inside 3 _ _ _ (padded ss num_nodes))
      by (rewrite ?length_padded by lia; first [reflexivity|lia]).
    cbn [mbind option_bind insert list_insert].
    rewrite <- Hlx at 1. rewrite displacements_snoc by (rewrite ?Hlx; first [lia|assumption]).
    rewrite <- Hly at 1. rewrite displacements_snoc by (rewrite ?Hly; first [lia|assumption]).
    rewrite <- Hlz at 1. rewrite displacements_snoc by (rewrite ?Hlz; first [lia|assumption]).
    rewrite <- Hls at 1. rewrite padded_snoc by lia.
    do 2 f_equal. unfold Int32.add. rewrite wrap_exact by lia. lia.
Qed.

Lemma write_overrun (mx my mz : list float) (num_nodes : nat) (ws : list written) :
  length mx = num_nodes -> length my = num_nodes -> length mz = num_nodes ->
  Z.of_nat num_nodes <= Int32.INT_MAX ->
  (num_nodes < length ws)%nat ->
  fold_left (write mx my mz) ws
    (Some (replicate 4 (replicate num_nodes 0%float), 0))
  = None.
Proof.
  intros Hx Hy Hz Hmax Hlen.
  rewrite <- (take_drop num_nodes ws), fold_left_app.
  rewrite (write_fold mx my mz num_nodes) by (rewrite ?length_take; first [assumption|lia]).
  rewrite length_take, Nat.min_l by lia.
  destruct (drop num_nodes ws) as [|w rest] eqn:Hd.
  { apply (f_equal length) in Hd. rewrite length_drop in Hd. cbn in Hd. lia. }
  cbn [fold_left].
  replace (write mx my mz (Some _) w) with (@None (list (list float) * Z));
    [apply write_None|].
  unfold write. cbn [mbind option_bind]. unfold write_node.
  rewrite (model_coord_inside mx), (lookup_ge_None_2 mx) by lia. reflexivity.
Qed.

Lemma fmap_flat_map_three (A : Type) (p : written -> A) (f g h : ContactEntity -> written)
    (l : list ContactEntity) :
  p <$> flat_map (fun e => [f e; g e; h e]) l
  = flat_map (fun e => [p (f e); p (g e); p (h e)]) l.
Proof.
  induction l as [|e l IH]; [reflexivity|].
  cbn [flat_map app]. rewrite !fmap_cons, IH. reflexivity.
Qed.

Lemma all_written_rows (cm : ContactManager) :
  (fun w : written => w.1.1.1) <$> all_written cm = vertices_x cm
  /\ (fun w : written => w.1.1.2) <$> all_written cm = vertices_y cm
  /\ (fun w : written => w.1.2) <$> all_written cm = vertices_z cm
  /\ (fun w : written => w.2) <$> all_written cm = statuses cm
  /\ length (all_written cm)
     = (3 * length (contact_faces_ cm) + length (contact_nodes_ cm))%nat.
Proof.
  unfold all_written, vertices_x, vertices_y, vertices_z, vertices, statuses, face_written.
  rewrite !fmap_app, !fmap_flat_map_three, <- !list_fmap_compose.
  repeat split.
  rewrite length_app, length_fmap, (length_flat_map_three written). reflexivity.
Qed.

Lemma WriteVisualizationData_fold (cm : ContactManager) (mesh_block_ids : list Z)
    (num_nodes : nat) (mx my mz : list float) :
  WriteVisualizationData contact_status num_contacts cm mesh_block_ids num_nodes mx my mz
  = st ← fold_left (write mx my mz) (all_written cm)
           (Some (replicate 4 (replicate num_nodes 0%float), 0));
    Some {| global_data := [num_contacts cm];
            node_data_for_output := st.1;
            elem_data_labels_for_output :=
              fold_left (fun m block_id => StdMap.insert Z.compare block_id [] m)
                mesh_block_ids [];
            derived_elem_data_labels :=
              fold_left (fun m block_id => StdMap.insert Z.compare block_id [] m)
                mesh_block_ids [] |}.
Proof.
  unfold WriteVisualizationData, all_written. cbn zeta.
  rewrite fold_left_app, write_faces, write_nodes. reflexivity.
Qed.

(** One step of the visualization, for a mesh of [num_nodes] nodes, an [int],
    with its three coordinate arrays.  When the mesh has a node for each of
    the three vertices of every contact face and for every contact node, the
    step is written: for the node [i] of the visualization, in the order of
    [InitializeContactVisualization], the three displacements are the
    coordinates of the entity minus those of the mesh node [i] and the fourth
    value is the contact status of the entity; the nodes of the mesh beyond
    them keep 0; the global value is the number of active contact faces.  When
    the mesh has fewer nodes, the function reads and writes beyond the arrays. *)
Theorem WriteVisualizationData_displacements (cm : ContactManager)
    (mesh_block_ids : list Z) (num_nodes : nat) (mx my mz : list float) :
  length mx = num_nodes -> length my = num_nodes -> length mz = num_nodes ->
  Z.of_nat num_nodes <= Int32.INT_MAX ->
  let total := (3 * length (contact_faces_ cm) + length (contact_nodes_ cm))%nat in
  let step :=
    WriteVisualizationData contact_status num_contacts cm mesh_block_ids num_nodes
      mx my mz in
  ((total <= num_nodes)%nat ->
   exists s, step = Some s
     /\ global_data s = [num_contacts cm]
     /\ node_data_for_output s
        = [displacements (vertices_x cm) mx num_nodes;
           displacements (vertices_y cm) my num_nodes;
           displacements (vertices_z cm) mz num_nodes;
           padded (statuses cm) num_nodes])
  /\ ((num_nodes < total)%nat -> step = None).
Proof.
  intros Hx Hy Hz Hmax total step. subst step.
  rewrite WriteVisualizationData_fold.
  destruct (all_written_rows cm) as (Rx & Ry & Rz & Rs & Rl). fold total in Rl.
  split; intros Htotal.
  - rewrite (write_fold mx my mz num_nodes) by (rewrite ?Rl; assumption).
    rewrite Rx, Ry, Rz, Rs. cbn [mbind option_bind fst].
    eexists. split; [reflexivity|]. split; reflexivity.
  - rewrite (write_overrun mx my mz num_nodes) by (rewrite ?Rl; assumption).
    reflexivity.
Qed.

(** The steps written after [InitializeContactVisualization], to a mesh that
    holds the nodes as the function handed them over, for a manager [cm'] of
    as many contact faces and contact nodes as [cm] had (as
    [ApplyDisplacements] leaves them): every step is written, no access leaves
    the arrays, and the displacement of each node of the visualization is the
    coordinate of its entity in [cm'] minus its coordinate in [cm]. *)
Theorem WriteVisualizationData_after_Initialize (env : Environment)
    (cm cm' : ContactManager) (mesh_block_ids : list Z) :
  length (contact_faces_ cm') = length (contact_faces_ cm) ->
  length (contact_nodes_ cm') = length (contact_nodes_ cm) ->
  Z.of_nat (3 * length (contact_faces_ cm) + length (contact_nodes_ cm))
  <= Int32.INT_MAX ->
  let d := InitializeContactVisualization env cm in
  exists s,
    WriteVisualizationData contact_status num_contacts cm' mesh_block_ids
      (length (node_global_id d)) (node_x d) (node_y d) (node_z d) = Some s
    /\ node_data_for_output s
       = [zip_with (fun c m => (c - m)%float) (vertices_x cm') (vertices_x cm);
          zip_with (fun c m => (c - m)%float) (vertices_y cm') (vertices_y cm);
          zip_with (fun c m => (c - m)%float) (vertices_z cm') (vertices_z cm);
          statuses cm'].
Proof.
  intros Hf Hn Hmax d.
  destruct (visualization_filled env cm) as ([Hi Hx Hy Hz _ _] & _).
  fold d in Hi, Hx, Hy, Hz.
  set (total := (3 * length (contact_faces_ cm) + length (contact_nodes_ cm))%nat) in *.
  assert (Hli : length (node_global_id d) = total).
  { rewrite Hi. unfold vertex_ids.
    rewrite length_app, length_fmap, (length_flat_map_three Z). reflexivity. }
  rewrite Hli, Hx, Hy, Hz, WriteVisualizationData_fold.
  destruct (all_written_rows cm') as (Rx & Ry & Rz & Rs & Rl).
  rewrite Hf, Hn in Rl. fold total in Rl.
  rewrite (write_fold _ _ _ total);
    [|apply length_vertices|apply length_vertices|apply length_vertices|exact Hmax
     |rewrite Rl; apply Nat.le_refl].
  rewrite Rx, Ry, Rz, Rs. cbn [mbind option_bind fst].
  eexists. split; [reflexivity|]. cbn [node_data_for_output].
  unfold displacements, padded, vertices_x, vertices_y, vertices_z.
  assert (Hs : length (statuses cm') = total).
  { rewrite <- Rs, length_fmap. exact Rl. }
  rewrite !length_vertices, Hs, Hf, Hn. fold total.
  rewrite Nat.sub_diag. cbn [replicate]. rewrite !app_nil_r. reflexivity.
Qed.

End StepFacts.

(** The theorem at work on the submodel of one contact node at [(1, 1, 1)]:
    a mesh of two nodes takes the step, a mesh of no node does not. *)
Lemma WriteVisualizationData_displacements_witness :
  let contact_status := fun _ : ContactEntity => 1%float in
  let num_contacts := fun _ : ContactManager => 0%float in
  (exists s,
     WriteVisualizationData contact_status num_contacts ManagerFacts.two_node_manager
       [1; 2] 2 [0.5; 7]%float [0.25; 7]%float [0; 7]%float = Some s
     /\ global_data s = [0%float]
     /\ node_data_for_output s
        = [[0.5; 0]; [0.75; 0]; [1; 0]; [1; 0]]%float)
  /\ WriteVisualizationData contact_status num_contacts ManagerFacts.two_node_manager
       [1; 2] 0 [] [] [] = None.
Proof.
  intros contact_status num_contacts. split.
  - exact (proj1 (WriteVisualizationData_displacements contact_status num_contacts
                    ManagerFacts.two_node_manager [1; 2] 2
                    [0.5; 7]%float [0.25; 7]%float [0; 7]%float
                    eq_refl eq_refl eq_refl ltac:(discriminate)) (le_S 1 1 (le_n 1))).
  - exact (proj2 (WriteVisualizationData_displacements contact_status num_contacts
                    ManagerFacts.two_node_manager [1; 2] 0 [] [] []
                    eq_refl eq_refl eq_refl ltac:(discriminate)) (le_n 1)).
Defined.

(** The theorem at work: the contact node of the submodel, moved from
    [(1, 1, 1)] by [(7.5, 8, 8.5)]. *)
Lemma WriteVisualizationData_after_Initialize_witness :
  let contact_status := fun _ : ContactEntity => 1%float in
  let num_contacts := fun _ : ContactManager => 0%float in
  let d := InitializeContactVisualization EntityIdFacts.serial_run
             ManagerFacts.two_node_manager in
  exists s,
    WriteVisualizationData contact_status num_contacts
      (ApplyDisplacements ManagerFacts.SetCoordinates_model ManagerFacts.two_node_manager
         ManagerFacts.mesh_field)
      [1; 2] (length (node_global_id d)) (node_x d) (node_y d) (node_z d) = Some s
    /\ node_data_for_output s = [[7.5]; [8]; [8.5]; [1]]%float.
Proof.
  intros contact_status num_contacts d.
  exact (WriteVisualizationData_after_Initialize contact_status num_contacts
           EntityIdFacts.serial_run ManagerFacts.two_node_manager
           (ApplyDisplacements ManagerFacts.SetCoordinates_model
              ManagerFacts.two_node_manager ManagerFacts.mesh_field)
           [1; 2] eq_refl eq_refl ltac:(discriminate)).
Defined.

End VisualizationFacts.

(** ** The contact command *)

Module ParseFacts.
Import Ascii String Parse.

(** Nothing but white space. *)
Fixpoint all_space (s : string) : bool :=
  match s with
  | EmptyString => true
  | String c s' => isspace c && all_space s'
  end.

(** No white space. *)
Fixpoint no_space (s : string) : bool :=
  match s with
  | EmptyString => true
  | String c s' => negb (isspace c) && no_space s'
  end.

(** A word: at least one character, none of them white space. *)
Definition word (w : string) : Prop := is_empty w = false /\ no_space w = true.

(** A separator: at least one character, all of them white space. *)
Definition separator (sp : string) : Prop := is_empty sp = false /\ all_space sp = true.

(** What can follow a word: the end of the command, or white space. *)
Definition after_word (rest : string) : Prop :=
  match rest with
  | EmptyString => True
  | String c _ => isspace c = true
  end.

Lemma append_assoc (a b c : string) : ((a ++ b) ++ c = a ++ (b ++ c))%string.
Proof. induction a as [|x a IH]; simpl; [reflexivity|]. rewrite IH. reflexivity. Qed.

Lemma length_append (a b : string) :
  length (a ++ b)%string = (length a + length b)%nat.
Proof. induction a as [|x a IH]; simpl; [reflexivity|]. rewrite IH. reflexivity. Qed.

Lemma skip_ws_space (sp rest : string) :
  all_space sp = true -> skip_ws (sp ++ rest) = skip_ws rest.
Proof.
  induction sp as [|c sp IH]; simpl; [reflexivity|].
  intros H. apply andb_true_iff in H as [Hc Hsp]. rewrite Hc. apply IH, Hsp.
Qed.

Lemma skip_ws_all_space (sp : string) : all_space sp = true -> skip_ws sp = EmptyString.
Proof.
  induction sp as [|c sp IH]; simpl; [reflexivity|].
  intros H. apply andb_true_iff in H as [Hc Hsp]. rewrite Hc. apply IH, Hsp.
Qed.

Lemma read_word_word (w rest : string) :
  no_space w = true -> after_word rest -> read_word (w ++ rest) = (w, rest).
Proof.
  induction w as [|c w IH]; simpl; intros Hw Hrest.
  - destruct rest as [|c r]; [reflexivity|]. simpl in *. rewrite Hrest. reflexivity.
  - apply andb_true_iff in Hw as [Hc Hw]. apply negb_true_iff in Hc. rewrite Hc.
    rewrite (IH Hw Hrest). reflexivity.
Qed.

(** One extraction: the separator is skipped, the word is read, and the stream
    is left before what follows, at its end if nothing does. *)
Lemma extract_word (sp w rest str : string) :
  all_space sp = true -> word w -> after_word rest ->
  extract_string {| buf := sp ++ w ++ rest; eofbit := false; failbit := false |} str
  = ({| buf := rest; eofbit := is_empty rest; failbit := false |}, w).
Proof.
  intros Hsp [Hne Hw] Hrest. unfold extract_string. cbn [good eofbit failbit negb andb buf].
  rewrite (skip_ws_space _ _ Hsp).
  destruct w as [|c w]; [discriminate|]. simpl in Hw.
  apply andb_true_iff in Hw as [Hc Hw']. pose proof Hc as Hc'. apply negb_true_iff in Hc'.
  cbn [append skip_ws]. rewrite Hc'.
  change (String c (w ++ rest)) with (String c w ++ rest)%string.
  rewrite read_word_word; [reflexivity| |exact Hrest].
  simpl. rewrite Hc, Hw'. reflexivity.
Qed.

(** The names of a command: each word after its separator. *)
Fixpoint render (ws : list (string * string)) : string :=
  match ws with
  | [] => EmptyString
  | (sp, w) :: ws' => (sp ++ w ++ render ws')%string
  end.

(** Names that the loop pushes: separated words, none of them the key. *)
Definition names_before (is_key : string -> bool) (ws : list (string * string)) : Prop :=
  Forall (fun spw => separator (fst spw) /\ word (snd spw) /\ is_key (snd spw) = false) ws.

Lemma separator_append (sp rest : string) :
  separator sp -> after_word (sp ++ rest) /\ is_empty (sp ++ rest) = false.
Proof.
  intros [Hne Hsp]. destruct sp as [|c sp]; [discriminate|]. simpl in *.
  apply andb_true_iff in Hsp as [Hc _]. auto.
Qed.

Lemma render_cons_after (is_key : string -> bool) (ws : list (string * string))
    (sp rest : string) :
  names_before is_key ws -> separator sp ->
  after_word (render ws ++ sp ++ rest)
  /\ is_empty (render ws ++ sp ++ rest) = false.
Proof.
  intros Hws Hsp. destruct ws as [|[sp' w'] ws]; cbn [render].
  - cbn [append]. apply separator_append, Hsp.
  - apply Forall_cons in Hws as [(Hsp' & _) _]. rewrite !append_assoc.
    apply separator_append, Hsp'.
Qed.

Lemma length_render (is_key : string -> bool) (ws : list (string * string)) :
  names_before is_key ws -> (List.length ws <= length (render ws))%nat.
Proof.
  induction 1 as [|[sp w] ws (Hsp & _) _ IH]; cbn [render List.length]; [lia|].
  rewrite !length_append. destruct Hsp as [Hne _].
  destruct sp; [discriminate|]. cbn [length]. lia.
Qed.

(** The loop over a well-formed list of names followed by the key. *)
Lemma scan_names_found (is_key : string -> bool) (ws : list (string * string)) :
  forall (fuel : nat) (sp key rest : string) (names : list string),
  names_before is_key ws -> separator sp -> word key -> is_key key = true ->
  after_word rest -> (List.length ws < fuel)%nat ->
  scan_names fuel is_key
    {| buf := render ws ++ sp ++ key ++ rest; eofbit := false; failbit := false |} names
  = ({| buf := rest; eofbit := is_empty rest; failbit := false |},
     names ++ (snd <$> ws), true).
Proof.
  induction ws as [|[sp' w'] ws IH]; intros fuel sp key rest names Hws Hsp Hkey Hk Hrest Hfuel.
  - destruct fuel as [|fuel]; [cbn in Hfuel; lia|]. cbn [scan_names render append good
      eofbit failbit negb andb].
    rewrite (extract_word sp key rest EmptyString (proj2 Hsp) Hkey Hrest), Hk.
    rewrite app_nil_r. reflexivity.
  - destruct fuel as [|fuel]; [cbn in Hfuel; lia|].
    apply Forall_cons in Hws as [(Hsp' & Hw' & Hk') Hws]. cbn [fst snd] in *.
    cbn [scan_names render good eofbit failbit negb andb].
    rewrite !append_assoc.
    destruct (render_cons_after is_key ws sp (key ++ rest) Hws Hsp) as [Hafter Hne].
    rewrite (extract_word sp' w' _ EmptyString (proj2 Hsp') Hw' Hafter), Hk', Hne.
    rewrite (IH fuel sp key rest _ Hws Hsp Hkey Hk Hrest) by (cbn in Hfuel; lia).
    rewrite fmap_cons, <- app_assoc. reflexivity.
Qed.


Lemma primary_key_word (key : string) : is_primary_key key = true -> word key.
Proof.
  unfold is_primary_key. intros H. apply orb_true_iff in H as [H|H];
    apply String.eqb_eq in H; subst key; split; reflexivity.
Qed.

Lemma secondary_key_word (key : string) : is_secondary_key key = true -> word key.
Proof.
  unfold is_secondary_key. intros H. apply orb_true_iff in H as [H|H];
    apply String.eqb_eq in H; subst key; split; reflexivity.
Qed.

Lemma scan_fuel (is_key : string -> bool) (ws : list (string * string)) (rest : string) :
  names_before is_key ws -> (List.length ws < S (length (render ws ++ rest)))%nat.
Proof.
  intros Hws. pose proof (length_render is_key ws Hws). rewrite length_append. lia.
Qed.

Lemma length_skip_ws (s : string) : (length (skip_ws s) <= length s)%nat.
Proof.
  induction s as [|c s IH]; simpl; [lia|]. destruct (isspace c); simpl; lia.
Qed.

Lemma length_read_word (s : string) :
  (length (fst (read_word s)) + length (snd (read_word s)) = length s)%nat.
Proof.
  induction s as [|c s IH]; simpl; [reflexivity|].
  destruct (isspace c); [reflexivity|].
  destruct (read_word s) as [w r]. simpl in *. lia.
Qed.

(** An extraction that leaves the stream good has read at least one
    character. *)
Lemma extract_string_shorter (ss : sstream) (str : string) :
  good (fst (extract_string ss str)) = true ->
  (length (buf (fst (extract_string ss str))) < length (buf ss))%nat.
Proof.
  unfold extract_string. destruct (good ss);
    [|cbn [fst good eofbit failbit negb]; destruct (eofbit ss); discriminate].
  pose proof (length_skip_ws (buf ss)) as Hskip.
  destruct (skip_ws (buf ss)) as [|c s'] eqn:E; [discriminate|].
  pose proof (length_read_word (String c s')) as Hrw.
  assert (Hc : isspace c = false).
  { destruct (buf ss) as [|c0 b]; [discriminate|]. revert E. clear.
    revert c0. induction b as [|c1 b IH]; intros c0; simpl.
    - destruct (isspace c0) eqn:E0; [discriminate|]. intros H. injection H as <- _. exact E0.
    - destruct (isspace c0) eqn:E0; [apply IH|]. intros H. injection H as <- _. exact E0. }
  cbn [read_word] in *. rewrite Hc in *.
  destruct (read_word s') as [w r]. cbn [fst snd buf length] in *. intros _. lia.
Qed.

(** The fuel is never what ends the loop: with more fuel than characters
    left, the loop stops because the key was found or the stream is no longer
    good. *)
Lemma scan_names_exit (is_key : string -> bool) :
  forall (fuel : nat) (ss : sstream) (names : list string),
  (length (buf ss) < fuel)%nat ->
  snd (scan_names fuel is_key ss names) = true
  \/ good (fst (fst (scan_names fuel is_key ss names))) = false.
Proof.
  induction fuel as [|fuel IH]; intros ss names Hfuel; [lia|].
  cbn [scan_names]. destruct (good ss) eqn:Hg; [|right; exact Hg].
  pose proof (extract_string_shorter ss EmptyString) as Hshort.
  destruct (extract_string ss EmptyString) as [ss' temp]. cbn [fst] in Hshort.
  destruct (is_key temp); [left; reflexivity|].
  destruct (good ss') eqn:Hg'.
  - apply IH. specialize (Hshort eq_refl). lia.
  - right. destruct fuel; cbn [scan_names fst]; [exact Hg'|]. rewrite Hg'. exact Hg'.
Qed.

Lemma after_all_space (trailing : string) : all_space trailing = true -> after_word trailing.
Proof.
  destruct trailing as [|c r]; simpl; [auto|]. intros H.
  apply andb_true_iff in H as [Hc _]. exact Hc.
Qed.

Lemma render_after (is_key : string -> bool) (ws : list (string * string))
    (trailing : string) :
  names_before is_key ws -> all_space trailing = true ->
  after_word (render ws ++ trailing).
Proof.
  intros Hws Htr. destruct ws as [|[sp' w'] ws]; cbn [render append].
  - apply after_all_space, Htr.
  - apply Forall_cons in Hws as [(Hsp' & _) _]. rewrite !append_assoc.
    apply separator_append, Hsp'.
Qed.

(** The loop over a list of names that runs to the end of the command without
    meeting the key: the key is not found, and white space left at the end
    makes one more turn, which pushes an empty name. *)
Lemma scan_names_missing (is_key : string -> bool) (ws : list (string * string)) :
  forall (fuel : nat) (trailing : string) (names : list string),
  names_before is_key ws -> is_key EmptyString = false -> all_space trailing = true ->
  (length (render ws ++ trailing) < fuel)%nat ->
  exists ss',
    scan_names fuel is_key
      {| buf := render ws ++ trailing; eofbit := is_empty (render ws ++ trailing);
         failbit := false |} names
    = (ss', names ++ (snd <$> ws) ++ (if is_empty trailing then [] else [EmptyString]),
       false).
Proof.
  induction ws as [|[sp' w'] ws IH]; intros fuel trailing names Hws Hk Htr Hfuel.
  - cbn [render append] in *. destruct fuel as [|fuel]; [lia|].
    destruct trailing as [|c r].
    + eexists. cbn. rewrite app_nil_r. reflexivity.
    + destruct fuel as [|fuel]; [cbn in Hfuel; lia|].
      eexists. cbn [scan_names good eofbit failbit is_empty negb andb].
      unfold extract_string. cbn [good eofbit failbit negb andb buf].
      rewrite (skip_ws_all_space _ Htr), Hk.
      cbn [scan_names good eofbit failbit negb andb fmap list_fmap app]. reflexivity.
  - destruct fuel as [|fuel]; [lia|].
    apply Forall_cons in Hws as [(Hsp' & Hw' & Hk') Hws]. cbn [fst snd] in *.
    cbn [render] in *. rewrite !append_assoc in *.
    destruct (separator_append sp' (w' ++ render ws ++ trailing) Hsp') as [_ Hne].
    rewrite Hne. cbn [scan_names good eofbit failbit negb andb].
    rewrite (extract_word sp' w' _ EmptyString (proj2 Hsp') Hw'
               (render_after is_key ws trailing Hws Htr)), Hk'.
    destruct (IH fuel trailing (names ++ [w']) Hws Hk Htr) as [ss' Hss'].
    { rewrite !length_append in Hfuel. rewrite length_append.
      destruct Hsp' as [Hsp' _]. destruct sp'; [discriminate|]. cbn [length] in Hfuel. lia. }
    exists ss'. rewrite Hss', fmap_cons, <- !app_assoc. reflexivity.
Qed.

Section CommandFacts.

Variable num_get : string -> float.

(** A well-formed command is read back: after [primary_blocks] (or
    [master_blocks]) come the names of the primary blocks, after
    [secondary_blocks] (or [slave_blocks]) those of the secondary blocks, and
    after [penalty_parameter] the number, whatever white space separates
    them.  The names are pushed behind those the vectors hold, and a command
    that ends at [penalty_parameter] is accepted, the parameter keeping its
    value. *)
Theorem ParseContactCommand_well_formed
    (sp0 key1 sp2 key2 sp3 tail : string) (ps ss : list (string * string))
    (primary_block_names0 secondary_block_names0 : list string)
    (penalty_parameter0 : float) :
  all_space sp0 = true -> is_primary_key key1 = true ->
  names_before is_secondary_key ps ->
  separator sp2 -> is_secondary_key key2 = true ->
  names_before is_penalty_key ss ->
  separator sp3 -> after_word tail ->
  ParseContactCommand num_get
    (sp0 ++ key1 ++ render ps ++ sp2 ++ key2 ++ render ss
         ++ sp3 ++ "penalty_parameter" ++ tail)%string
    primary_block_names0 secondary_block_names0 penalty_parameter0
  = {| thrown := None;
       primary_block_names := primary_block_names0 ++ (snd <$> ps);
       secondary_block_names := secondary_block_names0 ++ (snd <$> ss);
       penalty_parameter :=
         match skip_ws tail with
         | EmptyString => penalty_parameter0
         | String c r => num_get (String c r)
         end |}.
Proof.
  intros Hsp0 Hk1 Hps Hsp2 Hk2 Hss Hsp3 Htail. unfold ParseContactCommand.
  destruct (render_cons_after is_secondary_key ps sp2
              (key2 ++ render ss ++ sp3 ++ "penalty_parameter" ++ tail) Hps Hsp2)
    as [Hafter1 Hne1].
  rewrite (extract_word sp0 key1 _ EmptyString Hsp0 (primary_key_word _ Hk1) Hafter1).
  rewrite Hk1, Hne1. cbn [negb buf].
  destruct (render_cons_after is_penalty_key ss sp3 ("penalty_parameter" ++ tail) Hss Hsp3)
    as [Hafter2 Hne2].
  rewrite (scan_names_found is_secondary_key ps _ sp2 key2 _ _ Hps Hsp2
             (secondary_key_word _ Hk2) Hk2 Hafter2 (scan_fuel _ _ _ Hps)).
  rewrite Hne2. cbn [negb buf].
  rewrite (scan_names_found is_penalty_key ss _ sp3 "penalty_parameter" tail _ Hss Hsp3
             (conj eq_refl eq_refl) eq_refl Htail (scan_fuel _ _ _ Hss)).
  cbn [negb]. f_equal. unfold extract_double.
  destruct tail as [|c r]; [reflexivity|]. reflexivity.
Qed.

(** A stand-in for the library's conversion on the sample below. *)
Definition sample_num_get (s : string) : float :=
  if (s =? "1.0e5")%string then 100000%float else 0%float.

(** A command whose first word is not a key of the primary blocks, or that
    holds no word at all, is refused with the word found, and nothing is
    touched. *)
Theorem ParseContactCommand_unknown_key
    (sp0 w rest : string) (primary_block_names0 secondary_block_names0 : list string)
    (penalty_parameter0 : float) :
  all_space sp0 = true ->
  (word w /\ after_word rest \/ w = EmptyString /\ rest = EmptyString) ->
  is_primary_key w = false ->
  ParseContactCommand num_get (sp0 ++ w ++ rest)%string
    primary_block_names0 secondary_block_names0 penalty_parameter0
  = {| thrown := Some (unknown_key w);
       primary_block_names := primary_block_names0;
       secondary_block_names := secondary_block_names0;
       penalty_parameter := penalty_parameter0 |}.
Proof.
  intros Hsp0 [[Hw Hrest]|[-> ->]] Hk; unfold ParseContactCommand.
  - rewrite (extract_word sp0 w rest EmptyString Hsp0 Hw Hrest), Hk. reflexivity.
  - unfold extract_string. cbn [good eofbit failbit negb andb buf append].
    rewrite (skip_ws_space sp0 EmptyString Hsp0). reflexivity.
Qed.

(** A command that ends before [secondary_blocks], or before
    [penalty_parameter], is refused.  The names read until then have been
    pushed, and white space at the end of the command has pushed one empty
    name more. *)
Theorem ParseContactCommand_missing_key
    (sp0 key1 sp2 key2 trailing : string) (ps ss : list (string * string))
    (primary_block_names0 secondary_block_names0 : list string)
    (penalty_parameter0 : float) :
  all_space sp0 = true -> is_primary_key key1 = true ->
  names_before is_secondary_key ps ->
  separator sp2 -> is_secondary_key key2 = true ->
  names_before is_penalty_key ss ->
  all_space trailing = true ->
  let last := if is_empty trailing then [] else [EmptyString] in
  ParseContactCommand num_get (sp0 ++ key1 ++ render ps ++ trailing)%string
    primary_block_names0 secondary_block_names0 penalty_parameter0
  = {| thrown := Some expected_secondary_blocks;
       primary_block_names := primary_block_names0 ++ (snd <$> ps) ++ last;
       secondary_block_names := secondary_block_names0;
       penalty_parameter := penalty_parameter0 |}
  /\ ParseContactCommand num_get
       (sp0 ++ key1 ++ render ps ++ sp2 ++ key2 ++ render ss ++ trailing)%string
       primary_block_names0 secondary_block_names0 penalty_parameter0
     = {| thrown := Some expected_penalty_parameter;
          primary_block_names := primary_block_names0 ++ (snd <$> ps);
          secondary_block_names := secondary_block_names0 ++ (snd <$> ss) ++ last;
          penalty_parameter := penalty_parameter0 |}.
Proof.
  intros Hsp0 Hk1 Hps Hsp2 Hk2 Hss Htr last. unfold ParseContactCommand. split.
  - rewrite (extract_word sp0 key1 _ EmptyString Hsp0 (primary_key_word _ Hk1)
               (render_after is_secondary_key ps trailing Hps Htr)).
    rewrite Hk1. cbn [negb buf].
    destruct (scan_names_missing is_secondary_key ps
                (S (length (render ps ++ trailing))) trailing primary_block_names0
                Hps eq_refl Htr (Nat.lt_succ_diag_r _)) as [ss' Hss'].
    rewrite Hss'. reflexivity.
  - destruct (render_cons_after is_secondary_key ps sp2
                (key2 ++ render ss ++ trailing) Hps Hsp2) as [Hafter1 Hne1].
    rewrite (extract_word sp0 key1 _ EmptyString Hsp0 (primary_key_word _ Hk1) Hafter1).
    rewrite Hk1, Hne1. cbn [negb buf].
    rewrite (scan_names_found is_secondary_key ps _ sp2 key2 _ _ Hps Hsp2
               (secondary_key_word _ Hk2) Hk2
               (render_after is_penalty_key ss trailing Hss Htr) (scan_fuel _ _ _ Hps)).
    cbn [negb buf].
    destruct (scan_names_missing is_penalty_key ss
                (S (length (render ss ++ trailing))) trailing secondary_block_names0
                Hss eq_refl Htr (Nat.lt_succ_diag_r _)) as [ss' Hss'].
    rewrite Hss'. reflexivity.
Qed.

End CommandFacts.

(** The theorems at work. *)
Lemma ParseContactCommand_well_formed_witness :
  ParseContactCommand sample_num_get
    "primary_blocks block_1 block_2 secondary_blocks block_3 penalty_parameter 1.0e5"
    ["old"%string] [] 7
  = {| thrown := None;
       primary_block_names := ["old"; "block_1"; "block_2"]%string;
       secondary_block_names := ["block_3"%string];
       penalty_parameter := 100000 |}.
Proof.
  apply (ParseContactCommand_well_formed sample_num_get
           EmptyString "primary_blocks" " " "secondary_blocks" " " " 1.0e5"
           [(" ", "block_1"); (" ", "block_2")]%string [(" ", "block_3")]%string
           ["old"%string] [] 7%float);
    try reflexivity; try (split; reflexivity);
    repeat (constructor; [repeat split; reflexivity|]); constructor.
Defined.

Lemma ParseContactCommand_unknown_key_witness :
  ParseContactCommand sample_num_get "contact block_1" [] [] 7
  = {| thrown := Some (unknown_key "contact");
       primary_block_names := []; secondary_block_names := [];
       penalty_parameter := 7 |}.
Proof.
  apply (ParseContactCommand_unknown_key sample_num_get EmptyString "contact" " block_1" [] [] 7%float).
  - reflexivity.
  - left. split; [split; reflexivity|reflexivity].
  - reflexivity.
Defined.

Lemma ParseContactCommand_missing_key_witness :
  ParseContactCommand sample_num_get "primary_blocks block_1 " [] [] 7
  = {| thrown := Some expected_secondary_blocks;
       primary_block_names := ["block_1"; EmptyString]%string; secondary_block_names := [];
       penalty_parameter := 7 |}
  /\ ParseContactCommand sample_num_get
       "primary_blocks block_1 secondary_blocks block_2 " [] [] 7
     = {| thrown := Some expected_penalty_parameter;
          primary_block_names := ["block_1"%string];
          secondary_block_names := ["block_2"; EmptyString]%string;
          penalty_parameter := 7 |}.
Proof.
  apply (ParseContactCommand_missing_key sample_num_get
           EmptyString "primary_blocks" " " "secondary_blocks" " "
           [(" ", "block_1")]%string [(" ", "block_2")]%string [] [] 7%float);
    try reflexivity; try (split; reflexivity);
    repeat (constructor; [repeat split; reflexivity|]); constructor.
Defined.

End ParseFacts.
